(* ===== verification/_CoqProject ===== *)
-Q . S2P
Prelude.v
JsRuntime.v
Ieee.v
Bits.v
Utils.v
Main.v
Padder.v
Sha1Spec.v
Bytes.v
BitString.v
Splitter.v
Expander.v
Compressor.v
Finalizer.v
Refinement.v
Program.v
Extension.v
Draft.v
Script.v
