(* ===== verification/Prelude.v ===== *)
(** * A verification development for sha1-explained

    The repository is a didactic JavaScript implementation of SHA-1 that
    manipulates binary data as strings of the characters '0' and '1'.  It has
    two objects, both in [src/javascript/main.js]:

    - [Utils] (lines 5-184): string helpers [getStringXTime], [xor], [or],
      [and], [add], [not], [rotate], [binToHex], returned as the properties
      of one object;
    - [Main] (lines 190-383): the single function [sha1], written as
      fourteen numbered steps that call [Utils] through that object.

    [src/unnamed/part_000] is an earlier, unfinished draft of the same file
    (three helpers and steps 1 to 12, with other steps 11 and 12).

    ** Files, in the order they are checked

    - [Prelude] (this file): the error type and the [result] monad in which
      thrown JavaScript exceptions are values, the tactics and hint
      databases of the development, and list and integer lemmas shared by
      the components ([chunks], [foldlM], bit tests of [Z]).
    - [JsRuntime]: the fragment of the JavaScript runtime the sources call:
      strings as lists of UTF-16 code units, Numbers with their rounding,
      [Number.prototype.toString], [parseInt], [substr], [new Array(n)],
      [Array.prototype.join].  These are not code of the repository; they
      are modelled from ECMAScript.
    - [Ieee]: the Numbers of [JsRuntime] against the Standard Library's
      specification of IEEE 754 ([SpecFloat]): the conversion of an integer
      and the addition are those of binary64.
    - [Bits]: the codec between binary strings and integers ([val], [enc],
      [hex]), with its round trips, rotation ([rotl]) and words; the
      vocabulary in which every other statement is written.
    - [Utils]: the interface [Utils.Ops] (the shape of the object returned at
      lines 174-183), the contract [Utils.Laws] it promises to [Main], its
      consequences ([UtilsFacts]), the function bodies in module
      [UtilsImpl] (one definition per function of lines 17-172, under its
      name), and the proof that they meet the contract
      ([UtilsImpl.exports_laws]).
    - [Main]: [Main.sha1] (lines 199-378), one definition per step under the
      name of the step's variable, parametric in [Utils.Ops]; [h0] to [h4] are
      the record [Main.hstate].
    - [Padder], [Splitter], [Expander], [Compressor], [Finalizer]: the
      lemmas of steps 1-8, 9-10, 11, 12-13 and 14, proved against
      [Utils.Laws], and the theorems about the program at
      [UtilsImpl.exports].
    - [Sha1Spec]: the specification ([Spec]): SHA-1 on bytes and 32-bit
      words, as spec.md describes its five components, and SHA-1 on
      messages of bits as FIPS 180 defines it ([Spec.bit_sha1]).  [Bytes]:
      bytes against binary strings.  [BitString]: bits against binary
      strings, and the agreement of the two specifications on bytes.
    - [Refinement]: [Main.sha1] returns the digest [Spec.bit_sha1] of the
      bit string of steps 1 to 5, hence that of [Spec.sha1] on bytes, for
      any [Utils] object that meets the contract.
    - [Program]: the program of the file, [Main.sha1] at
      [UtilsImpl.exports], and the value line 385 logs; the refinement
      theorem for it and the published test vectors.
    - [Extension]: what the fold of step 13 lets the holder of a digest
      compute: [Extension.extend] resumes steps 9 to 14 from the registers
      a digest prints.  Its definitions are not code of the repository;
      they are written with the steps of [Main].
    - [Draft]: src/unnamed/part_000: [Draft.Ops], the steps of its [sha1],
      the function bodies in [DraftImpl]; what it computes and how it
      differs from main.js.
    - [Script]: the three top-level statements of each file ([var Utils],
      [var Main], [console.log(Main.sha1(...))]) as a step relation on the
      global variables, the console and the statements still to run;
      [Script.main_js] and [Script.draft_js] are the two scripts.

    ** What the theorems show

    - Each function of [Utils] is the word operation of its name on binary
      strings: [add] wraps modulo 2^w, [rotate] is a left rotation, [xor],
      [or], [and], [not] are bitwise, [binToHex] prints eight hexadecimal
      digits; [getStringXTime] throws a RangeError exactly outside the
      array lengths.  [add] adds Numbers: it is the addition modulo 2^w up
      to 52 characters ([add_wraps]) and no further ([add_rounds]); on
      longer words it returns the low bits of the binary64 sum
      ([add_binary64]); on any two strings it returns exactly the
      requested number of characters and cannot throw ([add_total]).
      [binToHex] is characterised for every requested length: its guard
      compares the width of the numeral with 8, so a numeral of eight
      digits or more is never padded and a short request throws
      ([binToHex_guard]).  On other strings the bitwise loops still return
      binary strings: they read a character other than '1' as 0 and align
      a shorter string on the left ([bitwise_any_strings]); [xor], [or]
      and [and] are morphisms of the equivalence [same_reading] of strings
      with '1' at the same indices, [not] is not ([not_improper]).
    - The scripts: [Script] is a model of how an engine runs the three
      top-level statements; its lemmas (determinism, the invariant of the
      globals, the line main.js logs) are properties of that machine and
      are generic in the functions it is given, so none of them is listed
      as a property of the program.
    - Refinement, component by component and end to end: padding, splitting,
      schedule, compression and finalization compute what [Spec] prescribes
      ([padder_refines] to [finalizer_refines], [sha1_correct]).  On
      strings with code units above 255 the program still computes a
      SHA-1: that of a bit string in which such a code unit has 9 to 16
      bits ([sha1_bit_string]); it never throws on a string of code units
      and the result is forty hexadecimal characters ([sha1_is_digest]).
      On bytes the padded message determines the message
      ([padded_injective]); beyond bytes different strings share a bit
      string and a digest ([wide_unit_collision]).
    - Composition: [h0] to [h4] are all that step 13 hands from one chunk
      to the next and step 14 prints them, so the digest and the length of
      a message of bytes give, without the message, the digest of the
      message followed by its padding and by any further bytes
      ([length_extension]).
    - Invariants: the padded message is a positive multiple of 512 binary
      characters, (n + 8) / 64 + 1 chunks for n bytes
      ([padded_chunk_count]); every schedule has 80 words of 32 that obey the
      recurrence of SHA-1 ([schedule_recurrence]); [h0] to [h4] are five
      words of 32 after every chunk.
    - Termination and errors: the loops return within their fuel; a short
      chunk raises a TypeError; a round without its word does not throw
      and yields the numeral "NaN".
    - The draft: same helpers and same steps 1 to 10 as main.js, another
      schedule; it never throws on a string of code units, and on a
      string of bytes it returns, for every block of the padded bytes,
      the block extended without rotation and then rotated word by word
      ([draft_refines]).

    ** Modelling conventions

    - A string is a [list N] of code units; [s.split("")] and
      [arr.join("")] on arrays of one-character strings are the identity on
      that representation; an out-of-range [bits[i]] is [None].
    - A thrown exception is [Err e]; code that cannot throw is a plain
      function.  [OutOfFuel] is not a JavaScript error: it marks a loop of
      the model that ran out of fuel.
    - Fuel: the [while] loops of steps 9 and 10 get [S (length str)], one
      more than the iterations a positive size needs since each removes a
      character ([substr_loop_fuel]); the loop of step 11 gets 81, each
      iteration pushing one word up to 80 ([expand_terminates]);
      [Number.prototype.toString] gets one more than the binary logarithm
      of the number.  [rotate] recurses on its count, a natural number.
    - JavaScript Numbers are the non-negative integers that are doubles,
      +Infinity and NaN: the program builds no others.  [parseInt] and the
      addition round their exact result to the nearest double, ties to
      even ([Number_of_N]); [Ieee] proves that this is binary64.  A
      character code and the length of a string are exact Numbers, since
      JavaScript strings are shorter than 2^53; the lists of the model are
      not bounded, and [Num] of a longer length stands for the integer
      itself.  The bounds 2^61 bytes and 2^60 code units of the
      refinement theorems, under which the bit length fits the 64-bit
      field, include every JavaScript string; beyond 2^53 they describe
      the model only, and nothing is claimed of longer lengths.
    - The arrays step 11 mutates in place are returned as new lists;
      nothing reads the old ones afterwards.
    - The functions reach [Utils] through a global variable.  [Main] takes
      the object as a parameter ([Utils.Ops]); [binToHex], which reads the
      global from inside [Utils], takes the property it reads as a
      parameter ([UtilsImpl.binToHex_via]); the machine of [Script] keeps
      the two globals in its state, passes their value at the time of the
      call, and its invariant shows that this value is the object of the
      closure.  A script of [n] statements gets the fuel [n]: a step runs
      a statement or ends the script ([Script.run_nf]).

    ** Not modelled

    - How the console prints what [console.log] is given: the console of
      the model holds the values, a string for main.js and an array of
      arrays of strings for the draft.
    - Input that is not a string; code units are not decoded (a surrogate
      pair is two code units, as [charCodeAt] sees them).
    - Negative and fractional Numbers, and counts of [rotate] that are not
      natural numbers (the source then recurses without end): the program
      passes the constants 1, 5 and 30.
    - The limits of an implementation: the longest string and the deepest
      recursion an engine allows.
    - src/README.md: documentation. *)

From Stdlib Require Export ZArith Lia Btauto.
From stdpp Require Export base tactics option list numbers strings.

(** ** Errors as values *)

Inductive error : Type := RangeError | TypeError | OutOfFuel.

#[global] Instance error_eq_dec : EqDecision error.
Proof. solve_decision. Defined.

Inductive result (A : Type) : Type :=
| Ok (a : A)
| Err (e : error).

Arguments Ok {A} a.
Arguments Err {A} e.

#[global] Instance result_eq_dec `{EqDecision A} : EqDecision (result A).
Proof. solve_decision. Defined.

#[global] Instance result_ret : MRet result := λ A a, Ok a.

#[global] Instance result_bind : MBind result :=
  λ A B f m, match m with Ok a => f a | Err e => Err e end.

#[global] Instance result_fmap : FMap result :=
  λ A B f m, match m with Ok a => Ok (f a) | Err e => Err e end.

Definition is_Ok {A} (r : result A) : Prop := ∃ a, r = Ok a.

#[global] Instance is_Ok_dec {A} (r : result A) : Decision (is_Ok r).
Proof.
  destruct r as [a|e]; [left; by exists a | right; intros [a ?]; done].
Defined.

(** The callback of [Array.prototype.forEach] run over a state: the first
    error stops the iteration. *)
Fixpoint foldlM {A S} (f : S → A → result S) (s : S) (l : list A) : result S :=
  match l with
  | [] => Ok s
  | x :: l' => s' ← f s x; foldlM f s' l'
  end.

(** ** Tactics *)

(** Use an equation between results: injection on [Ok], discrimination
    of [Ok] against [Err]. *)
Ltac simplify_result :=
  repeat match goal with
  | H : is_Ok (Err _) |- _ => destruct H as [? H]; discriminate H
  | H : is_Ok (Ok _) |- _ => clear H
  | H : mret _ = _ |- _ => unfold mret, result_ret in H
  | |- is_Ok (Ok _) => eexists; reflexivity
  | |- is_Ok (mret _) => eexists; reflexivity
  | _ => progress simplify_eq
  end.

(** Case analysis on the guard of a conditional of the code, closing the
    branches arithmetic refutes. *)
Ltac case_cond :=
  repeat (case_decide; try lia); try done.

(** Case analysis on the first computation of a sequence of binds. *)
Ltac case_bind :=
  repeat match goal with
  | |- context [mbind _ ?m] =>
      lazymatch m with
      | Ok _ => fail
      | Err _ => fail
      | _ => destruct m; cbn [mbind result_bind]
      end
  end.

(** Prove a closed decidable proposition by evaluating its decision
    procedure. *)
Ltac vm_decide := apply (bool_decide_unpack _); vm_compute; exact I.

(** ** Hint databases

    [len] rewrites the length of a list built by the operations the model
    uses; [enc] rewrites an operation of the program on encoded integers
    into the encoding of the integer operation; [bits] collects the
    well-formedness lemmas of binary strings and words.  Later files
    extend them. *)
Create Rewrite HintDb len.
Create Rewrite HintDb enc.
Create HintDb bits.

#[export] Hint Rewrite @length_app @length_take @length_drop @length_replicate
  @length_fmap @length_seq @length_cons @length_nil @length_reverse : len.

Ltac len := autorewrite with len; try lia.

(** ** The result monad *)

Section result.
Context {A B : Type}.
Implicit Types (m : result A) (f : A → result B).

Lemma bind_Ok m f b : m ≫= f = Ok b ↔ ∃ a, m = Ok a ∧ f a = Ok b.
Proof.
  destruct m as [a|e]; simpl; split; try done; try by eauto.
  - by intros (? & ? & ?); simplify_result.
  - by intros (? & ? & ?).
Qed.

Lemma bind_Err m f e :
  m ≫= f = Err e ↔ m = Err e ∨ ∃ a, m = Ok a ∧ f a = Err e.
Proof.
  destruct m as [a|e']; simpl.
  - split; [intros; right; by exists a|]. by intros [?|(? & ? & ?)]; simplify_result.
  - split; [intros; simplify_eq; by left|]. by intros [?|(? & ? & ?)]; simplify_eq.
Qed.

Lemma bind_is_Ok m f : is_Ok (m ≫= f) ↔ ∃ a, m = Ok a ∧ is_Ok (f a).
Proof.
  unfold is_Ok. setoid_rewrite bind_Ok. split.
  - intros (b & a & ? & ?). eauto.
  - intros (a & ? & b & ?). eauto.
Qed.

End result.

Section mapM.
Context {A B : Type}.

Lemma mapM_Ok_fmap (g : A → B) (l : list A) :
  mapM (M := result) (λ x, Ok (g x)) l = Ok (g <$> l).
Proof. induction l as [|x l IH]; simpl; [done|]. by rewrite IH. Qed.

Lemma mapM_Ok_ext (f : A → result B) (g : A → B) (l : list A) :
  Forall (λ x, f x = Ok (g x)) l → mapM f l = Ok (g <$> l).
Proof.
  induction 1 as [|x l Hx _ IH]; simpl; [done|]. by rewrite Hx; simpl; rewrite IH.
Qed.

Lemma mapM_Ok_length (f : A → result B) l k :
  mapM f l = Ok k → length k = length l.
Proof.
  revert k. induction l as [|x l IH]; simpl; intros k Hk; [by simplify_result|].
  apply bind_Ok in Hk as (y & _ & Hk). apply bind_Ok in Hk as (k' & Hk' & Hk).
  simplify_result. simpl. f_equal. by apply IH.
Qed.

Lemma mapM_Ok_Forall2 (f : A → result B) l k :
  mapM f l = Ok k ↔ Forall2 (λ x y, f x = Ok y) l k.
Proof.
  revert k. induction l as [|x l IH]; simpl; intros k.
  - split; [intros; simplify_result; constructor | by inversion 1].
  - rewrite bind_Ok. split.
    + intros (y & Hy & Hk). apply bind_Ok in Hk as (k' & Hk' & Hk).
      simplify_result. constructor; [done|]. by apply IH.
    + inversion 1 as [|? y ? k' Hy Hk']; subst. exists y. split; [done|].
      apply IH in Hk'. by rewrite Hk'.
Qed.

End mapM.

Lemma foldlM_app {A S} (f : S → A → result S) s l1 l2 :
  foldlM f s (l1 ++ l2) = s' ← foldlM f s l1; foldlM f s' l2.
Proof.
  revert s. induction l1 as [|x l1 IH]; intros s; simpl; [done|].
  destruct (f s x) as [s'|e]; simpl; [apply IH | done].
Qed.

(** An invariant of the state that every step preserves holds at the end
    of the iteration. *)
Lemma foldlM_invariant {A S} (P : S → Prop) (Q : A → Prop)
    (f : S → A → result S) s l s' :
  (∀ s x s', P s → Q x → f s x = Ok s' → P s') →
  P s → Forall Q l → foldlM f s l = Ok s' → P s'.
Proof.
  intros Hstep. revert s. induction l as [|x l IH]; simpl; intros s Hs Hl Hr.
  - by simplify_result.
  - inversion Hl as [|? ? Hx Hl']; subst.
    apply bind_Ok in Hr as (s1 & Hs1 & Hr). eauto.
Qed.

(** A computation terminates when it does not run out of fuel: it returns
    or throws. *)
Definition terminated {A} (m : result A) : Prop :=
  match m with Err OutOfFuel => False | _ => True end.

#[global] Instance terminated_dec {A} (m : result A) : Decision (terminated m).
Proof. destruct m as [|[]]; simpl; apply _. Defined.

Lemma terminated_bind {A B} (m : result A) (f : A → result B) :
  terminated m → (∀ a, m = Ok a → terminated (f a)) → terminated (m ≫= f).
Proof. destruct m as [a|e]; simpl; [by auto|done]. Qed.

(** A fallible iteration that simulates a pure one through an encoding
    [enc] of the pure state does not fail. *)
Lemma foldlM_simulation {A S T} (enc : T → S) (P : T → Prop) (Q : A → Prop)
    (f : S → A → result S) (g : T → A → T) t l :
  (∀ t x, P t → Q x → f (enc t) x = Ok (enc (g t x))) →
  (∀ t x, P t → Q x → P (g t x)) →
  P t → Forall Q l → foldlM f (enc t) l = Ok (enc (foldl g t l)).
Proof.
  intros Hf Hg. revert t. induction l as [|x l IH]; intros t Ht Hl; [done|].
  inversion Hl; subst. simpl. rewrite Hf by done. simpl. apply IH; auto.
Qed.

(** Two iterations whose steps agree on the elements of the list. *)
Lemma foldl_ext_Forall {A S} (f g : S → A → S) s (l : list A) :
  Forall (λ x, ∀ s, f s x = g s x) l → foldl f s l = foldl g s l.
Proof.
  intros Hl. revert s. induction Hl as [|x l Hx _ IH]; intros s; [done|].
  simpl. by rewrite Hx, IH.
Qed.

(** ** Lists *)

Section lists.
Context {A : Type}.
Implicit Types (l k : list A) (x : A).

Lemma fmap_seq_lookup (f : nat → A) n i :
  i < n → (f <$> seq 0 n) !! i = Some (f i).
Proof.
  intros. rewrite list_lookup_fmap, lookup_seq_lt by lia. done.
Qed.

Lemma fmap_seq_ext (f : nat → A) l :
  (∀ i, i < length l → l !! i = Some (f i)) → l = f <$> seq 0 (length l).
Proof.
  intros Hl. apply list_eq_same_length with (length l); [by len|done|].
  intros i x y Hi Hx Hy. rewrite Hl in Hx by done.
  rewrite fmap_seq_lookup in Hy by lia. congruence.
Qed.

Lemma length_concat_uniform n (ls : list (list A)) :
  Forall (λ c, length c = n) ls → length (concat ls) = length ls * n.
Proof.
  induction 1 as [|c ls Hc _ IH]; [done|]. simpl. rewrite length_app. lia.
Qed.

Lemma concat_replicate_length l n :
  length (concat (replicate n l)) = n * length l.
Proof. induction n as [|n IH]; simpl; [done|]. rewrite length_app. lia. Qed.

Lemma drop_take_rotate l n :
  n ≤ length l → length (drop n l ++ take n l) = length l.
Proof. intros. len. Qed.

End lists.

(** [l[i]] of a mapped list, as a total lookup. *)
Lemma fmap_lookup_total {A B} `{Inhabited B} (f : A → B) (l : list A) i x :
  l !! i = Some x → (f <$> l) !!! i = f x.
Proof.
  intros Hx. apply list_lookup_total_correct.
  by rewrite list_lookup_fmap, Hx.
Qed.

(** Two maps that undo each other on the elements satisfying [P]. *)
Lemma fmap_cancel {A B} (P : A → Prop) (f : A → B) (g : B → A) (l : list A) :
  (∀ x, P x → g (f x) = x) → Forall P l → g <$> (f <$> l) = l.
Proof.
  intros Hgf Hl. rewrite <-list_fmap_compose.
  rewrite <-(list_fmap_id l) at 2. apply Forall_fmap_ext_1.
  eapply Forall_impl; [done|]. intros x Hx. by apply Hgf.
Qed.

#[export] Hint Rewrite @concat_replicate_length : len.

(** ** Chunks

    [chunks n l] cuts [l] into consecutive pieces of [n] elements, the last
    one shorter when [n] does not divide the length: the reference for the
    loops of the program that consume a string by [substr]. *)

Definition chunk_count (n len : nat) : nat :=
  if decide (len = 0) then 0 else S ((len - 1) / n).

Definition chunks {A} (n : nat) (l : list A) : list (list A) :=
  reshape (replicate (chunk_count n (length l)) n) l.

Section chunks.
Context {A : Type} (n : nat) (Hn : 0 < n).
Implicit Types (l : list A) (ls : list (list A)).

Lemma chunk_count_step len :
  0 < len → chunk_count n len = S (chunk_count n (len - n)).
Proof.
  intros Hlen. unfold chunk_count. rewrite decide_False by lia.
  f_equal. case_decide.
  - apply Nat.div_small. lia.
  - replace (len - 1) with ((len - n - 1) + 1 * n) by lia.
    rewrite Nat.div_add by lia. lia.
Qed.

Lemma chunk_count_exact k : chunk_count n (k * n) = k.
Proof.
  induction k as [|k IH]; [done|].
  rewrite chunk_count_step by (simpl; lia).
  replace (S k * n - n) with (k * n) by lia. by rewrite IH.
Qed.

Lemma chunks_nil : chunks n (@nil A) = [].
Proof. done. Qed.

Lemma chunks_step l :
  0 < length l → chunks n l = take n l :: chunks n (drop n l).
Proof.
  intros Hl. unfold chunks. rewrite chunk_count_step by done.
  by rewrite length_drop.
Qed.

Lemma chunks_app l k :
  length l = n → chunks n (l ++ k) = l :: chunks n k.
Proof.
  intros Hl. rewrite chunks_step by (rewrite length_app; lia).
  by rewrite take_app_length', drop_app_length' by lia.
Qed.

(** Round trip: cutting a concatenation of pieces of [n] elements gives the
    pieces back, and concatenating the chunks gives the list back. *)
Lemma chunks_concat ls :
  Forall (λ c, length c = n) ls → chunks n (concat ls) = ls.
Proof.
  induction 1 as [|c ls Hc _ IH]; [done|]. simpl.
  by rewrite chunks_app, IH.
Qed.

Lemma concat_chunks l : concat (chunks n l) = l.
Proof.
  induction l as [l IH] using (induction_ltof1 _ length). unfold ltof in IH.
  destruct (decide (length l = 0)) as [Hnil|Hpos].
  - by apply nil_length_inv in Hnil as ->.
  - rewrite chunks_step by lia. simpl.
    rewrite IH by (rewrite length_drop; lia). apply take_drop.
Qed.

Lemma chunks_length l k :
  length l = k * n → length (chunks n l) = k.
Proof.
  intros Hl. unfold chunks. by rewrite length_reshape, length_replicate, Hl,
    chunk_count_exact.
Qed.

Lemma chunks_Forall_length l k :
  length l = k * n → Forall (λ c, length c = n) (chunks n l).
Proof.
  revert l. induction k as [|k IH]; intros l Hl.
  - apply nil_length_inv in Hl as ->. constructor.
  - rewrite chunks_step by (simpl in Hl; lia). constructor.
    + rewrite length_take. simpl in Hl. lia.
    + apply IH. rewrite length_drop. simpl in Hl. lia.
Qed.

Lemma chunks_Forall (P : A → Prop) l :
  Forall P l → Forall (Forall P) (chunks n l).
Proof. apply Forall_reshape. Qed.

(** No chunk is empty and none is longer than [n]. *)
Lemma chunks_Forall_bound l : Forall (λ c, 0 < length c ≤ n) (chunks n l).
Proof.
  induction l as [l IH] using (induction_ltof1 _ length). unfold ltof in IH.
  destruct (decide (length l = 0)) as [Hnil|Hpos].
  - apply nil_length_inv in Hnil as ->. constructor.
  - rewrite chunks_step by lia. constructor; [rewrite length_take; lia|].
    apply IH. rewrite length_drop. lia.
Qed.

End chunks.

(** Chunks commute with a map. *)
Lemma reshape_fmap {A B} (f : A → B) szs (l : list A) :
  reshape szs (f <$> l) = fmap (M := list) f <$> reshape szs l.
Proof.
  revert l. induction szs as [|sz szs IH]; intros l; [done|].
  simpl. by rewrite <-fmap_drop, IH, fmap_take.
Qed.

Lemma chunks_fmap {A B} (f : A → B) n (l : list A) :
  chunks n (f <$> l) = fmap (M := list) f <$> chunks n l.
Proof. unfold chunks. rewrite length_fmap. apply reshape_fmap. Qed.

(** The first [k] pieces of a concatenation of pieces of [n] elements. *)
Lemma take_drop_concat {A} n k (ls : list (list A)) :
  Forall (λ c, length c = n) ls →
  take (k * n) (concat ls) = concat (take k ls)
  ∧ drop (k * n) (concat ls) = concat (drop k ls).
Proof.
  intros Hls. revert k. induction Hls as [|c ls Hc _ IH]; intros k.
  { cbn [concat]. by rewrite !take_nil, !drop_nil. }
  destruct k as [|k]; [done|]. destruct (IH k) as [Htake Hdrop].
  cbn [concat take drop Nat.mul].
  by rewrite take_app_add', drop_app_add', Htake, Hdrop.
Qed.

(** Chunks of [k] pieces: cutting the concatenation every [k * n] elements
    is cutting the list of pieces every [k]. *)
Lemma chunks_concat_mul {A} n k (ls : list (list A)) :
  0 < n → 0 < k → Forall (λ c, length c = n) ls →
  chunks (k * n) (concat ls) = @concat A <$> chunks k ls.
Proof.
  intros Hn Hk. induction ls as [ls IH] using (induction_ltof1 _ length).
  unfold ltof in IH. intros Hls. destruct ls as [|c ls']; [done|].
  destruct (take_drop_concat n k (c :: ls') Hls) as [Htake Hdrop].
  inversion Hls; subst.
  rewrite (chunks_step (k * length c)), (chunks_step k)
    by (simpl; rewrite ?length_app; nia).
  rewrite fmap_cons, Htake, Hdrop, IH;
    [done | rewrite length_drop; simpl; lia | by apply Forall_drop].
Qed.

(** ** Recurrences

    [extend_with next n w] appends [n] elements to [w], each computed by
    [next] from the list so far: the shape of a message schedule. *)

Section extend_with.
Context {A : Type} (next : list A → A).
Implicit Types (w : list A).

Fixpoint extend_with (n : nat) w : list A :=
  match n with
  | O => w
  | S n' => extend_with n' (w ++ [next w])
  end.

Lemma extend_with_S n w :
  extend_with (S n) w = extend_with n (w ++ [next w]).
Proof. done. Qed.

Lemma extend_with_length n w : length (extend_with n w) = length w + n.
Proof.
  revert w. induction n as [|n IH]; intros w; simpl; [lia|].
  rewrite IH, length_app. simpl. lia.
Qed.

(** The list so far is a prefix of every extension. *)
Lemma extend_with_take n w k :
  k ≤ length w → take k (extend_with n w) = take k w.
Proof.
  revert w. induction n as [|n IH]; intros w Hk; [done|].
  simpl. rewrite IH by (rewrite length_app; lia). by rewrite take_app_le.
Qed.

Lemma extend_with_prefix n w : take (length w) (extend_with n w) = w.
Proof. rewrite extend_with_take by done. apply firstn_all. Qed.

Lemma extend_with_Forall (P : A → Prop) n w :
  (∀ w, Forall P w → P (next w)) →
  Forall P w → Forall P (extend_with n w).
Proof.
  intros Hnext. revert w. induction n as [|n IH]; intros w Hw; [done|].
  simpl. apply IH, Forall_app. split; [done|]. by apply Forall_singleton, Hnext.
Qed.

(** Every appended element is [next] of the elements before it. *)
Lemma extend_with_lookup n w t :
  length w ≤ t < length w + n →
  extend_with n w !! t = Some (next (take t (extend_with n w))).
Proof.
  revert w. induction n as [|n IH]; intros w Ht; [lia|].
  destruct (decide (t = length w)) as [->|Hne].
  - rewrite extend_with_prefix, extend_with_S.
    rewrite <-(lookup_take_lt _ (S (length w))) by lia.
    rewrite extend_with_take by (rewrite length_app; simpl; lia).
    rewrite lookup_take_lt by lia.
    by rewrite lookup_app_r, Nat.sub_diag.
  - simpl. apply IH. rewrite length_app. simpl. lia.
Qed.

End extend_with.

(** ** Integers *)

Local Open Scope Z_scope.

Lemma pow2_pos n : 0 ≤ n → 0 < 2 ^ n.
Proof. intros. by apply Z.pow_pos_nonneg. Qed.

Lemma testbit_mod_pow2 z n i :
  0 ≤ n → Z.testbit (z mod 2 ^ n) i = bool_decide (i < n) && Z.testbit z i.
Proof.
  intros Hn. case_bool_decide.
  - destruct (decide (0 ≤ i)).
    + by rewrite Z.mod_pow2_bits_low by lia.
    + by rewrite !Z.testbit_neg_r by lia.
  - by rewrite Z.mod_pow2_bits_high by lia.
Qed.

Lemma Z_bounded_testbit z n i :
  0 ≤ z < 2 ^ n → n ≤ i → Z.testbit z i = false.
Proof.
  intros Hz Hi. destruct (decide (0 ≤ n)).
  - rewrite <-(Z.mod_small z (2 ^ n)) by done. rewrite testbit_mod_pow2 by done.
    by rewrite bool_decide_eq_false_2 by lia.
  - rewrite Z.pow_neg_r in Hz by lia. lia.
Qed.

(** The digits of [z] above [b], out of its digits below [b * c]. *)
Lemma Z_mod_mul_div z b c :
  0 < b → 0 < c → (z mod (b * c)) / b = (z / b) mod c.
Proof.
  intros Hb Hc. rewrite Z.rem_mul_r by lia.
  rewrite (Z.mul_comm b), Z.div_add by lia.
  rewrite Z.div_small by (apply Z.mod_pos_bound; lia). done.
Qed.

Lemma Z_mod_mul_mod z b c : 0 < b → 0 < c → (z mod (b * c)) mod b = z mod b.
Proof.
  intros Hb Hc. rewrite Z.rem_mul_r by lia.
  by rewrite (Z.mul_comm b), Z.mod_add, Z.mod_mod by lia.
Qed.

Lemma Z_mod_pow2_eq z1 z2 n :
  0 ≤ n →
  (∀ i, 0 ≤ i < n → Z.testbit z1 i = Z.testbit z2 i) →
  z1 mod 2 ^ n = z2 mod 2 ^ n.
Proof.
  intros Hn Hbits. apply Z.bits_inj'. intros i Hi.
  rewrite !testbit_mod_pow2 by done. case_bool_decide; simpl; [|done].
  apply Hbits. lia.
Qed.
