(* ===== verification/JsRuntime.v ===== *)
(** * The JavaScript runtime the sources call

    None of this is code of the repository: it is the fragment of ECMAScript
    that [src/javascript/main.js] relies on, restricted to the values the
    program builds.

    - Strings are lists of UTF-16 code units ([jsstr]); [str] embeds a
      literal.  [s.split("")] yields the array of the one-unit strings of
      [s] and [a.join("")] concatenates them back, so both are the identity
      here and an array of characters is a [jsstr] too.
    - Numbers are the doubles the program can build ([jsnum]): the
      non-negative integers that are doubles, +Infinity and NaN; the
      program only adds results of [parseInt] and reads [length]s and
      character codes.  [Number_of_N] is the conversion of a mathematical
      integer to a Number, rounding to the nearest double, ties to even:
      it is the identity below 2^53, drops the digits after the first 53
      beyond, and yields [Infinity] from 2^1024 - 2^970 on.  [parseInt] and
      the addition round their exact results with it.  File [Ieee] proves
      that this is the rounding and the addition of binary64 as the
      Standard Library specifies them ([SpecFloat]).
    - [Number_toString] is [Number.prototype.toString(radix)], [parseInt]
      is the global function on strings that start with neither white space
      nor a sign, [new_Array] is [new Array(n)] for an integer [n],
      [Array_join] is [Array.prototype.join], [substr] is
      [String.prototype.substr].

    [fixed_digits] is not JavaScript: it is the fixed-width positional
    numeral against which [Number_toString] and [parseInt] are specified. *)

From S2P Require Import Prelude.

(** ** Strings *)

(** Abbreviations, not definitions, so that the list lemmas apply to
    strings as they are. *)
Abbreviation char := N (only parsing).
Abbreviation jsstr := (list N) (only parsing).

Definition str (s : string) : jsstr :=
  Ascii.N_of_ascii <$> String.list_ascii_of_string s.

(** The characters '0' and '1'. *)
Definition ch0 : char := 48%N.
Definition ch1 : char := 49%N.

(** [ToString(v)] on a value that is a string or [undefined]. *)
Definition ToString (v : option jsstr) : jsstr := default (str "undefined") v.

Definition substr_start (s : jsstr) (start : Z) : nat :=
  if decide (start < 0)%Z then Z.to_nat (Z.max (Z.of_nat (length s) + start) 0)
  else Z.to_nat start.

(** [s.substr(start)] is [substr s start None]; [s.substr(start, len)] is
    [substr s start (Some len)]. *)
Definition substr (s : jsstr) (start : Z) (len : option Z) : jsstr :=
  let rest := drop (substr_start s start) s in
  match len with
  | None => rest
  | Some l => take (Z.to_nat l) rest
  end.

Arguments substr : simpl never.

(** ** Arrays *)

(** [new Array(n)]: [n] holes, or a RangeError when [n] is not an array
    length. *)
Definition new_Array (n : Z) : result (list (option jsstr)) :=
  if decide (0 ≤ n < 2 ^ 32)%Z then Ok (replicate (Z.to_nat n) None)
  else Err RangeError.

(** [arr.join(sep)]: holes and [undefined] contribute the empty string. *)
Fixpoint Array_join (sep : jsstr) (arr : list (option jsstr)) : jsstr :=
  match arr with
  | [] => []
  | [x] => default [] x
  | x :: rest => default [] x ++ sep ++ Array_join sep rest
  end.

(** ** Numbers *)

(** [Num n] is the Number of value [n]; only integers that are doubles
    occur ([double]). *)
Inductive jsnum : Type := Num (n : N) | Infinity | NaN.

#[global] Instance jsnum_eq_dec : EqDecision jsnum.
Proof. solve_decision. Defined.

(** The quotient [q] of a division by [2 * half], rounded to the nearest
    integer given the remainder [r]; a tie goes to the even one. *)
Definition round_half_even (q r half : N) : N :=
  if decide (r < half)%N then q
  else if decide (half < r)%N then (q + 1)%N
  else if N.even q then q else (q + 1)%N.

(** The Number of a mathematical integer: the 53 leading binary digits,
    rounded according to the [sh] digits dropped. *)
Definition Number_of_N (n : N) : jsnum :=
  if decide (n < 2 ^ 53)%N then Num n
  else
    let sh := (N.size n - 53)%N in
    let q := round_half_even (n / 2 ^ sh) (n mod 2 ^ sh) (2 ^ (sh - 1)) in
    if decide (q * 2 ^ sh < 2 ^ 1024)%N then Num (q * 2 ^ sh)%N
    else Infinity.

(** The integers that are doubles. *)
Definition double (n : N) : Prop := Number_of_N n = Num n.

#[global] Instance double_dec n : Decision (double n).
Proof. unfold double. apply _. Defined.

(** [x + y] on Numbers that are not negative. *)
Definition num_add (x y : jsnum) : jsnum :=
  match x, y with
  | Num a, Num b => Number_of_N (a + b)
  | NaN, _ | _, NaN => NaN
  | _, _ => Infinity
  end.

(** The character of a digit below 36: '0'-'9', then 'a'-'z'. *)
Definition digit_char (d : N) : char :=
  if decide (d < 10)%N then (48 + d)%N else (87 + d)%N.

(** The digit a character stands for in [radix], if any; letters of
    either case. *)
Definition digit_val (radix : N) (c : char) : option N :=
  let d :=
    if decide (48 ≤ c < 58)%N then Some (c - 48)%N
    else if decide (97 ≤ c < 123)%N then Some (c - 87)%N
    else if decide (65 ≤ c < 91)%N then Some (c - 55)%N
    else None in
  d ≫= λ v, if decide (v < radix)%N then Some v else None.

(** Digits of [n] most significant first, pushed in front of [acc]; at
    least one digit. *)
Fixpoint to_digits (fuel : nat) (radix n : N) (acc : jsstr) : jsstr :=
  match fuel with
  | O => acc
  | S fuel' =>
      let acc' := digit_char (n mod radix) :: acc in
      if decide (n / radix = 0)%N then acc'
      else to_digits fuel' radix (n / radix) acc'
  end.

Definition Number_toString (x : jsnum) (radix : N) : jsstr :=
  match x with
  | Num n => to_digits (S (N.to_nat (N.log2 n))) radix n []
  | Infinity => str "Infinity"
  | NaN => str "NaN"
  end.

(** The value of the longest prefix of [s] made of digits of [radix];
    [acc] is [None] until a digit has been read. *)
Fixpoint parse_digits (radix : N) (s : jsstr) (acc : option N) : option N :=
  match s with
  | [] => acc
  | c :: s' =>
      match digit_val radix c with
      | Some d => parse_digits radix s' (Some (default 0 acc * radix + d)%N)
      | None => acc
      end
  end.

Definition parseInt (s : jsstr) (radix : N) : jsnum :=
  match parse_digits radix s None with
  | Some n => Number_of_N n
  | None => NaN
  end.

(** ** The reference numeral *)

(** The [w] least significant digits of [n] in [radix], most significant
    first. *)
Fixpoint fixed_digits (w : nat) (radix n : N) : jsstr :=
  match w with
  | O => []
  | S w' => fixed_digits w' radix (n / radix) ++ [digit_char (n mod radix)]
  end.

(** ** Lemmas *)

Lemma Number_of_N_exact n : (n < 2 ^ 53)%N → Number_of_N n = Num n.
Proof. intros. unfold Number_of_N. by case_decide. Qed.

Lemma Array_join_holes sep n :
  Array_join sep (replicate (S n) None) = concat (replicate n sep).
Proof.
  induction n as [|n IH]; [done|].
  change (Array_join sep (replicate (S (S n)) None))
    with (sep ++ Array_join sep (replicate (S n) None)).
  by rewrite IH.
Qed.

Lemma new_Array_Ok n :
  (0 ≤ n < 2 ^ 32)%Z → new_Array n = Ok (replicate (Z.to_nat n) None).
Proof. intros. unfold new_Array. by case_decide. Qed.

Lemma new_Array_Err n :
  (n < 0 ∨ 2 ^ 32 ≤ n)%Z → new_Array n = Err RangeError.
Proof. intros. unfold new_Array. case_decide; [lia|done]. Qed.

Lemma substr_prefix s (n : nat) :
  substr s 0 (Some (Z.of_nat n)) = take n s.
Proof. unfold substr, substr_start. simpl. by rewrite Nat2Z.id, drop_0. Qed.

Lemma substr_suffix s (n : nat) : substr s (Z.of_nat n) None = drop n s.
Proof.
  unfold substr, substr_start. case_decide; [lia|]. by rewrite Nat2Z.id.
Qed.

Lemma fixed_digits_length w radix n : length (fixed_digits w radix n) = w.
Proof.
  revert n. induction w as [|w IH]; intros n; simpl; [done|].
  rewrite length_app, IH. simpl. lia.
Qed.

Section digits.
Local Open Scope N_scope.
Context (radix : N) (Hlo : 2 ≤ radix).

Lemma digit_val_char d :
  radix ≤ 36 → d < radix → digit_val radix (digit_char d) = Some d.
Proof.
  intros Hhi Hd. unfold digit_val, digit_char.
  repeat case_decide; simpl; try lia;
    (case_decide; [f_equal; lia | lia]).
Qed.

(** Zero-padding on the left widens the numeral. *)
Lemma fixed_digits_pad k w n :
  n < radix ^ N.of_nat w →
  replicate k ch0 ++ fixed_digits w radix n = fixed_digits (k + w) radix n.
Proof.
  revert n. induction w as [|w IH]; intros n Hn.
  - assert (n = 0) as -> by (simpl in Hn; lia).
    rewrite Nat.add_0_r, app_nil_r. clear Hn.
    induction k as [|k IHk]; [done|]. simpl fixed_digits.
    rewrite N.Div0.div_0_l, N.Div0.mod_0_l. rewrite <-IHk.
    change [digit_char 0] with (replicate 1 ch0).
    rewrite <-replicate_add. f_equal. lia.
  - replace (k + S w)%nat with (S (k + w)) by lia. simpl.
    rewrite app_assoc. f_equal. apply IH.
    apply N.Div0.div_lt_upper_bound.
    replace (N.of_nat (S w)) with (N.succ (N.of_nat w)) in Hn by lia.
    by rewrite N.pow_succ_r' in Hn.
Qed.

(** Dropping leading digits reduces the number modulo the remaining
    width. *)
Lemma fixed_digits_drop k w n :
  drop k (fixed_digits (k + w) radix n)
  = fixed_digits w radix (n mod radix ^ N.of_nat w).
Proof.
  revert n. induction w as [|w IH]; intros n.
  - rewrite Nat.add_0_r. simpl.
    apply drop_ge. by rewrite fixed_digits_length.
  - replace (k + S w)%nat with (S (k + w)) by lia. simpl.
    rewrite drop_app_le by (rewrite fixed_digits_length; lia).
    rewrite IH. replace (N.of_nat (S w)) with (N.succ (N.of_nat w)) by lia.
    rewrite N.pow_succ_r'.
    assert (0 < radix ^ N.of_nat w) by (apply N.neq_0_lt_0, N.pow_nonzero; lia).
    rewrite N.Div0.mod_mul_r, (N.mul_comm radix), N.div_add by lia.
    rewrite (N.div_small (n mod radix)), N.add_0_l by (apply N.mod_lt; lia).
    by rewrite N.Div0.mod_add, N.Div0.mod_mod.
Qed.

Lemma fixed_digits_mod w n :
  fixed_digits w radix (n mod radix ^ N.of_nat w) = fixed_digits w radix n.
Proof. by rewrite <-(fixed_digits_drop 0 w n). Qed.

(** A numeral is its leading digits followed by its trailing digits. *)
Lemma fixed_digits_app a b n :
  fixed_digits (a + b) radix n
  = fixed_digits a radix (n / radix ^ N.of_nat b) ++ fixed_digits b radix n.
Proof.
  revert n. induction b as [|b IH]; intros n.
  - rewrite Nat.add_0_r. simpl. by rewrite N.div_1_r, app_nil_r.
  - replace (a + S b)%nat with (S (a + b)) by lia. simpl.
    rewrite IH, <-app_assoc. do 2 f_equal.
    rewrite N.Div0.div_div. f_equal.
    replace (N.of_nat (S b)) with (N.succ (N.of_nat b)) by lia.
    by rewrite N.pow_succ_r'.
Qed.

(** [Number.prototype.toString] prints the shortest numeral: with enough
    fuel, [to_digits] is the fixed-width numeral of any width [w] that
    holds [n] and has no leading zero. *)
Lemma to_digits_fixed fuel w n acc :
  (w ≤ fuel)%nat → n < radix ^ N.of_nat (S w) →
  (w = 0%nat ∨ radix ^ N.of_nat w ≤ n) →
  to_digits (S fuel) radix n acc = fixed_digits (S w) radix n ++ acc.
Proof.
  revert w n acc. induction fuel as [|fuel IH]; intros w n acc Hw Hn Hmin.
  - assert (w = 0%nat) as -> by lia. simpl in *.
    rewrite N.pow_1_r in Hn. rewrite N.div_small by done.
    by case_decide.
  - destruct w as [|w].
    + simpl in *. rewrite N.pow_1_r in Hn. rewrite N.div_small by done.
      by case_decide.
    + destruct Hmin as [|Hmin]; [done|].
      replace (N.of_nat (S w)) with (N.succ (N.of_nat w)) in Hmin by lia.
      rewrite N.pow_succ_r' in Hmin.
      replace (N.of_nat (S (S w))) with (N.succ (N.of_nat (S w))) in Hn by lia.
      rewrite N.pow_succ_r' in Hn.
      assert (0 < radix ^ N.of_nat w) by (apply N.neq_0_lt_0, N.pow_nonzero; lia).
      assert (radix ^ N.of_nat w ≤ n / radix)
        by (apply N.div_le_lower_bound; lia).
      change (to_digits (S (S fuel)) radix n acc) with
        (let acc' := digit_char (n mod radix) :: acc in
         if decide (n / radix = 0) then acc'
         else to_digits (S fuel) radix (n / radix) acc').
      cbv zeta. case_decide; [lia|].
      rewrite IH with (w := w); [| lia | | ].
      * change (fixed_digits (S (S w)) radix n) with
          (fixed_digits (S w) radix (n / radix) ++ [digit_char (n mod radix)]).
        by rewrite <-app_assoc.
      * by apply N.Div0.div_lt_upper_bound.
      * destruct w; [by left | by right].
Qed.

(** Reading a fixed-width numeral gives its number back. *)
Lemma parse_digits_fixed w n acc :
  radix ≤ 36 → n < radix ^ N.of_nat w → (0 < w)%nat ∨ is_Some acc →
  parse_digits radix (fixed_digits w radix n) acc
  = Some (default 0 acc * radix ^ N.of_nat w + n).
Proof.
  intros Hhi Hn Hw.
  cut (∀ s a, parse_digits radix (fixed_digits w radix n ++ s) a
         = parse_digits radix s
             (if decide (w = 0%nat) then a
              else Some (default 0 a * radix ^ N.of_nat w + n))).
  { intros Hcut. specialize (Hcut [] acc). rewrite app_nil_r in Hcut.
    rewrite Hcut. simpl. case_decide; [|done]. subst.
    destruct Hw as [|[a ->]]; [lia|]. simpl in *.
    f_equal. lia. }
  clear Hw acc. revert n Hn. induction w as [|w IH]; intros n Hn s a.
  - by case_decide.
  - replace (N.of_nat (S w)) with (N.succ (N.of_nat w)) in * by lia.
    rewrite N.pow_succ_r' in *.
    assert (0 < radix ^ N.of_nat w) by (apply N.neq_0_lt_0, N.pow_nonzero; lia).
    simpl fixed_digits. rewrite <-app_assoc, IH
      by (apply N.Div0.div_lt_upper_bound; lia).
    simpl. rewrite digit_val_char by (done || apply N.mod_lt; lia).
    f_equal. f_equal. pose proof (N.div_mod n radix ltac:(lia)).
    case_decide; subst; simpl; [|nia].
    rewrite N.pow_0_r, N.mul_1_r in *. rewrite N.mod_small by lia. lia.
Qed.

End digits.

#[export] Hint Rewrite fixed_digits_length : len.

(** Every number has a shortest numeral: a width with no leading zero,
    bounded by the binary logarithm. *)
Lemma numeral_width (radix n : N) :
  (2 ≤ radix)%N →
  ∃ w, (w ≤ N.to_nat (N.log2 n))%nat ∧ (n < radix ^ N.of_nat (S w))%N
       ∧ (w = 0%nat ∨ radix ^ N.of_nat w ≤ n)%N.
Proof.
  intros Hr.
  assert (n < radix ^ N.of_nat (S (N.to_nat (N.log2 n))))%N as Hup.
  { destruct (decide (n = 0%N)) as [->|Hn]; [apply N.neq_0_lt_0, N.pow_nonzero; lia|].
    eapply N.lt_le_trans; [apply N.log2_spec; lia|].
    replace (N.of_nat (S (N.to_nat (N.log2 n)))) with (N.succ (N.log2 n)) by lia.
    apply N.pow_le_mono_l. lia. }
  revert Hup. generalize (N.to_nat (N.log2 n)). intros k.
  induction k as [|k IH]; intros Hup.
  - exists 0%nat. by eauto.
  - destruct (decide (n < radix ^ N.of_nat (S k))%N) as [Hlt|Hge].
    + destruct (IH Hlt) as (w & ? & ? & ?). exists w. split; [lia|done].
    + exists (S k). split; [done|]. split; [done|]. right. lia.
Qed.

Lemma Number_toString_fixed (radix n : N) :
  (2 ≤ radix)%N →
  ∃ w, Number_toString (Num n) radix = fixed_digits (S w) radix n
       ∧ (n < radix ^ N.of_nat (S w))%N
       ∧ (w = 0%nat ∨ radix ^ N.of_nat w ≤ n)%N.
Proof.
  intros Hr. destruct (numeral_width radix n Hr) as (w & Hw & Hup & Hlow).
  exists w. split; [|done]. unfold Number_toString.
  rewrite to_digits_fixed with (w := w) by done. apply app_nil_r.
Qed.

(** No numeral is empty: at least one digit, "Infinity" or "NaN". *)
Lemma Number_toString_nonempty (x : jsnum) (radix : N) :
  (2 ≤ radix)%N → (0 < length (Number_toString x radix))%nat.
Proof.
  intros Hr. destruct x as [n| |]; [|simpl; lia..].
  destruct (Number_toString_fixed radix n Hr) as (k & -> & _).
  rewrite fixed_digits_length. lia.
Qed.

(** Round trip: [parseInt] reads back what [toString] printed. *)
Lemma parseInt_toString (radix n : N) :
  (2 ≤ radix ≤ 36)%N → double n →
  parseInt (Number_toString (Num n) radix) radix = Num n.
Proof.
  intros [Hlo Hhi] Hn.
  destruct (Number_toString_fixed radix n Hlo) as (w & -> & Hup & _).
  unfold parseInt. rewrite parse_digits_fixed by (done || (left; lia)).
  simpl. by rewrite N.mul_0_l.
Qed.
