(* ===== verification/Ieee.v ===== *)
(** * The Numbers of the runtime are binary64 numbers

    [JsRuntime] rounds the integers [parseInt] reads and the sums of
    Numbers with [Number_of_N], written on the binary digits of the
    integer.  This file proves that it is the arithmetic of IEEE 754
    binary64, as the Standard Library specifies it in [SpecFloat] (after
    Flocq): [SF_of] maps a Number to the float it stands for, and

    - [Number_of_N_binary64]: the Number of an integer is the float
      [SpecFloat.binary_normalize] rounds it to, for every integer,
      overflow to +Infinity included;
    - [num_add_binary64]: the sum of two Numbers is their
      [SpecFloat.SFadd];
    - [SF_of_inj], [Number_of_N_representable]: the integers that occur
      are doubles, and distinct ones are distinct floats.

    The proofs go through a closed form of [SpecFloat.binary_round] on
    positive mantissas ([round_to], [binary_round_closed]): the record of
    the digits shifted out ([shr_iter]) decides the rounding ([round_shr]),
    and a mantissa scaled by a power of two rounds to the same float
    ([round_to_scale]), which is why adding aligned mantissas adds the
    integers ([SFadd_pos]).  Nothing here is code of the repository. *)

From Stdlib Require Import Floats.SpecFloat.
From S2P Require Import Prelude JsRuntime.

Module Ieee.

Local Open Scope Z_scope.

(** ** Definitions *)

(** The number of binary digits of a positive number. *)
Definition digits (p : positive) : Z := Z.pos (digits2_pos p).

(** [round_half_even] on integers. *)
Definition rne (q r half : Z) : Z :=
  if decide (r < half) then q
  else if decide (half < r) then q + 1
  else if Z.even q then q else q + 1.

(** The record [SpecFloat.shr] keeps of a shift to the right by [k]
    digits: the quotient, the first digit dropped and whether any other
    dropped digit is 1. *)
Definition shr_spec (m k : Z) : shr_record :=
  {| shr_m := m / 2 ^ k; shr_r := Z.testbit m (k - 1);
     shr_s := negb (m mod 2 ^ (k - 1) =? 0) |}.

(** The record of a number from which nothing was dropped. *)
Definition exact_record (q : Z) : shr_record :=
  {| shr_m := q; shr_r := false; shr_s := false |}.

(** The float of a mantissa [q] between 2^52 and 2^53 at exponent [e]:
    2^53 is renormalized to 2^52, and an exponent above 971 is an
    overflow. *)
Definition pack (q e : Z) : spec_float :=
  if decide (q < 2 ^ 53) then
    if decide (e ≤ 971) then S754_finite false (Z.to_pos q) e
    else S754_infinity false
  else
    if decide (e + 1 ≤ 971) then S754_finite false (Z.to_pos (q / 2)) (e + 1)
    else S754_infinity false.

(** The 53 leading digits of a number of more than 53, rounded according
    to the digits that follow. *)
Definition rounded (p : positive) : Z :=
  let k := digits p - 53 in
  rne (Z.pos p / 2 ^ k) (Z.pos p mod 2 ^ k) (2 ^ (k - 1)).

(** The double nearest to [p * 2 ^ e], in closed form: what
    [SpecFloat.binary_round] computes ([binary_round_closed]). *)
Definition round_to (p : positive) (e : Z) : spec_float :=
  let k := digits p - 53 in
  if decide (k ≤ 0) then pack (Z.pos p * 2 ^ (- k)) (e + k)
  else pack (rounded p) (e + k).

(** The mantissa and exponent of the normal form of a positive integer:
    53 digits, the digits beyond dropped. *)
Definition mant (p : positive) : positive :=
  Z.to_pos (Z.shiftl (Z.pos p) (53 - digits p)).

Definition expo (p : positive) : Z := digits p - 53.

(** The binary64 number a Number of the runtime stands for. *)
Definition SF_of (x : jsnum) : spec_float :=
  match x with
  | Num 0 => S754_zero false
  | Num (N.pos p) => S754_finite false (mant p) (expo p)
  | Infinity => S754_infinity false
  | NaN => S754_nan
  end.

(** The Numbers whose integer is a double. *)
Definition representable (x : jsnum) : Prop :=
  match x with Num n => double n | _ => True end.

(** The conversion and the addition of binary64, as [SpecFloat] defines
    them for a precision of 53 bits and a largest exponent of 1024. *)
Definition binary64_of_Z (z : Z) : spec_float :=
  binary_normalize 53 1024 z 0 false.

Definition binary64_add : spec_float → spec_float → spec_float :=
  SFadd 53 1024.

(** ** Binary digits *)

Lemma digits_xO p : digits p~0 = Z.succ (digits p).
Proof. unfold digits. simpl. lia. Qed.

Lemma digits_xI p : digits p~1 = Z.succ (digits p).
Proof. unfold digits. simpl. lia. Qed.

Lemma digits_pos p : 0 < digits p.
Proof. done. Qed.

Lemma digits_spec p : 2 ^ (digits p - 1) ≤ Z.pos p < 2 ^ digits p.
Proof.
  induction p as [p IH|p IH|]; [| |done].
  - rewrite digits_xI, Z.pow_succ_r by done.
    replace (Z.succ (digits p) - 1) with (Z.succ (digits p - 1)) by lia.
    rewrite Z.pow_succ_r by (pose proof (digits_pos p); lia). lia.
  - rewrite digits_xO, Z.pow_succ_r by done.
    replace (Z.succ (digits p) - 1) with (Z.succ (digits p - 1)) by lia.
    rewrite Z.pow_succ_r by (pose proof (digits_pos p); lia). lia.
Qed.

Lemma digits_unique p d : 2 ^ (d - 1) ≤ Z.pos p < 2 ^ d → digits p = d.
Proof.
  intros Hd. pose proof (digits_spec p) as Hp. pose proof (digits_pos p).
  destruct (Z.lt_trichotomy (digits p) d) as [Hlt|[Heq|Hgt]]; [|done|].
  - pose proof (Z.pow_le_mono_r 2 (digits p) (d - 1)). lia.
  - assert (0 ≤ d)
      by (destruct (decide (0 ≤ d)); [done|];
          rewrite !Z.pow_neg_r in Hd by lia; lia).
    pose proof (Z.pow_le_mono_r 2 d (digits p - 1)). lia.
Qed.

Lemma digits_size p : digits p = Z.of_N (N.size (N.pos p)).
Proof. unfold digits. simpl. by f_equal. Qed.

(** The digits of a number of more than 53 digits, without the last
    [digits p - 53], are 53 digits; so are those of a shorter number
    followed by zeros. *)
Lemma high_digits p :
  53 ≤ digits p → 2 ^ 52 ≤ Z.pos p / 2 ^ (digits p - 53) < 2 ^ 53.
Proof.
  intros Hk. pose proof (digits_spec p) as Hp.
  pose proof (pow2_pos (digits p - 53) ltac:(lia)).
  replace (digits p - 1) with (52 + (digits p - 53)) in Hp by lia.
  replace (digits p) with (53 + (digits p - 53)) in Hp at 2 by lia.
  rewrite !Z.pow_add_r in Hp by lia. split.
  - apply Z.div_le_lower_bound; lia.
  - apply Z.div_lt_upper_bound; lia.
Qed.

Lemma low_digits p :
  digits p ≤ 53 → 2 ^ 52 ≤ Z.pos p * 2 ^ (53 - digits p) < 2 ^ 53.
Proof.
  intros Hd. pose proof (digits_spec p) as Hp. pose proof (digits_pos p).
  pose proof (pow2_pos (53 - digits p) ltac:(lia)).
  replace (2 ^ 52) with (2 ^ (digits p - 1) * 2 ^ (53 - digits p))
    by (rewrite <-Z.pow_add_r by lia; f_equal; lia).
  replace (2 ^ 53) with (2 ^ digits p * 2 ^ (53 - digits p))
    by (rewrite <-Z.pow_add_r by lia; f_equal; lia).
  nia.
Qed.

(** A mantissa of 53 digits followed by [e] zeros. *)
Lemma digits_mantissa q e p :
  2 ^ 52 ≤ q < 2 ^ 53 → 0 ≤ e → Z.pos p = q * 2 ^ e → digits p = 53 + e.
Proof.
  intros Hq He Hv. pose proof (pow2_pos e He). apply digits_unique.
  rewrite Hv. replace (53 + e - 1) with (52 + e) by lia.
  rewrite !Z.pow_add_r by lia. nia.
Qed.

Lemma digits_scale p j p' :
  0 ≤ j → Z.pos p' = Z.pos p * 2 ^ j → digits p' = digits p + j.
Proof.
  intros Hj Hp'. pose proof (digits_spec p). pose proof (digits_pos p).
  pose proof (pow2_pos j Hj). apply digits_unique. rewrite Hp'.
  replace (digits p + j - 1) with (digits p - 1 + j) by lia.
  rewrite !Z.pow_add_r by lia. nia.
Qed.

Lemma below_digits p : (N.pos p < 2 ^ 53)%N ↔ digits p ≤ 53.
Proof.
  pose proof (digits_spec p) as Hp. pose proof (digits_pos p). split.
  - intros Hlt. destruct (decide (digits p ≤ 53)); [done|].
    pose proof (Z.pow_le_mono_r 2 53 (digits p - 1)). lia.
  - intros Hle. pose proof (Z.pow_le_mono_r 2 (digits p) 53). lia.
Qed.

(** ** Shifting to the right *)

Lemma iter_pos_iter {A} (f : A → A) p x :
  SpecFloat.iter_pos f p x = Pos.iter f x p.
Proof.
  revert x. induction p as [p IH|p IH|]; intros x; simpl;
    [|by rewrite !IH|done].
  by rewrite !IH, !Pos.iter_swap.
Qed.

Lemma shr_1_nonneg m r s :
  0 ≤ m → shr_1 {| shr_m := m; shr_r := r; shr_s := s |}
          = {| shr_m := m / 2; shr_r := Z.odd m; shr_s := r || s |}.
Proof.
  intros Hm. destruct m as [|[p|p|]|p]; try done; simpl; f_equal.
  - rewrite Pos2Z.inj_xI. apply Z.div_unique with 1; lia.
  - rewrite Pos2Z.inj_xO. apply Z.div_unique with 0; lia.
Qed.

Lemma mod_pow2_split m k :
  0 < k →
  m mod 2 ^ k
  = m mod 2 ^ (k - 1) + 2 ^ (k - 1) * Z.b2z (Z.testbit m (k - 1)).
Proof.
  intros Hk. rewrite Z.testbit_spec' by lia.
  replace (2 ^ k) with (2 ^ (k - 1) * 2)
    by (rewrite Z.mul_comm, <-Z.pow_succ_r by lia; f_equal; lia).
  apply Z.rem_mul_r; [apply Z.pow_nonzero; lia | lia].
Qed.

Lemma shr_iter m k :
  0 ≤ m →
  Pos.iter shr_1 {| shr_m := m; shr_r := false; shr_s := false |} k
  = shr_spec m (Z.pos k).
Proof.
  intros Hm. apply (Pos.iter_ind _ shr_1 _ (λ k r, r = shr_spec m (Z.pos k))).
  - rewrite shr_1_nonneg by done. unfold shr_spec.
    change (1 - 1) with 0. by rewrite Z.pow_1_r, Z.bit0_odd, Z.mod_1_r.
  - intros p a ->. unfold shr_spec.
    rewrite shr_1_nonneg by (apply Z.div_pos; [done|apply pow2_pos; lia]).
    rewrite Pos2Z.inj_succ, Z.pow_succ_r, Z.div_div by lia.
    replace (Z.succ (Z.pos p) - 1) with (Z.pos p) by lia.
    rewrite (Z.mul_comm 2). f_equal.
    + by rewrite Z.testbit_odd, Z.shiftr_div_pow2.
    + rewrite (mod_pow2_split m (Z.pos p)) by lia.
      pose proof (pow2_pos (Z.pos p - 1) ltac:(lia)).
      pose proof (Z.mod_pos_bound m (2 ^ (Z.pos p - 1)) ltac:(done)).
      destruct (Z.testbit m (Z.pos p - 1)); simpl;
        [|by rewrite Z.mul_0_r, Z.add_0_r].
      symmetry. apply negb_true_iff, Z.eqb_neq. lia.
Qed.

(** ** Rounding to nearest, ties to even *)

Lemma even_of_N q : Z.even (Z.of_N q) = N.even q.
Proof. by destruct q as [|[]]. Qed.

Lemma round_half_even_Z q r half :
  Z.of_N (round_half_even q r half) = rne (Z.of_N q) (Z.of_N r) (Z.of_N half).
Proof.
  unfold round_half_even, rne. rewrite even_of_N.
  repeat case_decide; try lia. destruct (N.even q); lia.
Qed.

Lemma rne_bounds q r half : q ≤ rne q r half ≤ q + 1.
Proof. unfold rne. repeat case_decide; try lia. destruct (Z.even q); lia. Qed.

Lemma rne_scale q r half c : 0 < c → rne q (r * c) (half * c) = rne q r half.
Proof. intros Hc. unfold rne. repeat case_decide; try nia; done. Qed.

Lemma rne_exact q half : 0 < half → rne q 0 half = q.
Proof. intros. unfold rne. by rewrite decide_True. Qed.

Lemma rounded_bounds p : 53 ≤ digits p → 2 ^ 52 ≤ rounded p ≤ 2 ^ 53.
Proof.
  intros Hd. pose proof (high_digits p Hd). unfold rounded. cbv zeta.
  pose proof (rne_bounds (Z.pos p / 2 ^ (digits p - 53))
                (Z.pos p mod 2 ^ (digits p - 53)) (2 ^ (digits p - 53 - 1))).
  lia.
Qed.

(** Nothing is rounded off a mantissa followed by zeros. *)
Lemma rounded_mantissa q e p :
  2 ^ 52 ≤ q < 2 ^ 53 → 0 < e → Z.pos p = q * 2 ^ e → rounded p = q.
Proof.
  intros Hq He Hv. unfold rounded. cbv zeta.
  rewrite (digits_mantissa q e p), Hv by (done || lia).
  replace (53 + e - 53) with e by lia.
  rewrite Z.div_mul, Z.mod_mul by (apply Z.pow_nonzero; lia).
  apply rne_exact, pow2_pos. lia.
Qed.

(** Zeros appended to a number do not change how it is rounded. *)
Lemma rounded_scale p j p' :
  53 < digits p → 0 ≤ j → Z.pos p' = Z.pos p * 2 ^ j → rounded p' = rounded p.
Proof.
  intros Hd Hj Hv. pose proof (pow2_pos j Hj). unfold rounded. cbv zeta.
  rewrite (digits_scale p j p'), Hv by done.
  replace (digits p + j - 53) with (digits p - 53 + j) by lia.
  replace (digits p - 53 + j - 1) with (digits p - 53 - 1 + j) by lia.
  rewrite !Z.pow_add_r, Z.div_mul_cancel_r, Zmult_mod_distr_r
    by (lia || apply Z.pow_nonzero; lia).
  by apply rne_scale.
Qed.

(** What [round_nearest_even] does with the record of a shift. *)
Lemma round_shr m k :
  0 ≤ m → 0 < k →
  round_nearest_even (shr_m (shr_spec m k)) (loc_of_shr_record (shr_spec m k))
  = rne (m / 2 ^ k) (m mod 2 ^ k) (2 ^ (k - 1)).
Proof.
  intros Hm Hk. unfold shr_spec, rne. cbn [shr_m loc_of_shr_record].
  rewrite (mod_pow2_split m k) by done.
  pose proof (Z.mod_pos_bound m (2 ^ (k - 1)) ltac:(apply pow2_pos; lia)).
  destruct (Z.testbit m (k - 1)); cbn [Z.b2z];
    destruct (Z.eqb_spec (m mod 2 ^ (k - 1)) 0); cbn [negb round_nearest_even];
    repeat case_decide; lia || done.
Qed.

(** ** [binary_round] in closed form *)

Lemma fexp_eq e : -1021 ≤ e → fexp 53 1024 e = e - 53.
Proof. unfold fexp, emin. lia. Qed.

Lemma shr_fexp_exact q e :
  2 ^ 52 ≤ q < 2 ^ 53 → -1074 ≤ e →
  shr_fexp 53 1024 q e loc_Exact = (exact_record q, e).
Proof.
  intros Hq He. destruct q as [|p|p]; [lia| |lia]. unfold shr_fexp.
  change (Zdigits2 (Z.pos p)) with (digits p).
  rewrite (digits_unique p 53), fexp_eq, Z.add_simpl_l, Z.sub_diag
    by (done || lia).
  done.
Qed.

Lemma shr_fexp_carry e :
  -1074 ≤ e →
  shr_fexp 53 1024 (2 ^ 53) e loc_Exact = (exact_record (2 ^ 52), e + 1).
Proof.
  intros He. unfold shr_fexp. change (Zdigits2 (2 ^ 53)) with 54.
  rewrite fexp_eq by lia. replace (54 + e - 53 - e) with 1 by lia. done.
Qed.

Lemma finish_pack q e :
  2 ^ 52 ≤ q ≤ 2 ^ 53 → -1074 ≤ e →
  (let '(mrs, e') := shr_fexp 53 1024 q e loc_Exact in
   match shr_m mrs with
   | 0 => S754_zero false
   | Z.pos m => if e' <=? 1024 - 53 then S754_finite false m e'
                else S754_infinity false
   | Z.neg _ => S754_nan
   end) = pack q e.
Proof.
  intros Hq He. unfold pack. case_decide as Hlt.
  - rewrite shr_fexp_exact by lia. cbn [shr_m exact_record].
    destruct q as [|p|p]; [lia| |lia]. change (1024 - 53) with 971.
    destruct (Z.leb_spec e 971); by case_decide; try lia.
  - assert (q = 2 ^ 53) as -> by lia. rewrite shr_fexp_carry by lia.
    change (1024 - 53) with 971. cbn [shr_m exact_record].
    change (2 ^ 53 / 2) with (2 ^ 52).
    destruct (Z.leb_spec (e + 1) 971); by case_decide; try lia.
Qed.

Lemma binary_round_aux_exact q e :
  2 ^ 52 ≤ q < 2 ^ 53 → -1074 ≤ e →
  binary_round_aux 53 1024 false q e loc_Exact = pack q e.
Proof.
  intros Hq He. unfold binary_round_aux. rewrite shr_fexp_exact by done.
  cbn [shr_m exact_record loc_of_shr_record round_nearest_even].
  apply finish_pack; lia.
Qed.

Lemma binary_round_aux_round p e :
  53 < digits p → -1074 ≤ e →
  binary_round_aux 53 1024 false (Z.pos p) e loc_Exact
  = pack (rounded p) (e + (digits p - 53)).
Proof.
  intros Hd He. pose proof (rounded_bounds p ltac:(lia)) as Hr.
  unfold rounded in *. cbv zeta in *.
  unfold binary_round_aux, shr_fexp at 1.
  change (Zdigits2 (Z.pos p)) with (digits p).
  rewrite fexp_eq by lia.
  replace (digits p + e - 53 - e) with (digits p - 53) by lia.
  destruct (digits p - 53) as [|k|k] eqn:Hk; [lia| |lia].
  cbn [shr shr_record_of_loc].
  rewrite iter_pos_iter, shr_iter, round_shr by lia.
  apply finish_pack; lia.
Qed.

Lemma iter_xO p k : Z.pos (Pos.iter xO p k) = Z.pos p * 2 ^ Z.pos k.
Proof.
  apply (Pos.iter_ind _ xO p (λ k r, Z.pos r = Z.pos p * 2 ^ Z.pos k)).
  - rewrite Pos2Z.inj_xO. lia.
  - intros j a Ha. rewrite Pos2Z.inj_xO, Ha, Pos2Z.inj_succ, Z.pow_succ_r; lia.
Qed.

Lemma binary_round_closed p e :
  -1021 ≤ e → binary_round 53 1024 false p e = round_to p e.
Proof.
  intros He. pose proof (digits_pos p). unfold binary_round, round_to.
  change (Z.pos (digits2_pos p)) with (digits p).
  rewrite fexp_eq by lia. unfold shl_align.
  replace (digits p + e - 53 - e) with (digits p - 53) by lia.
  pose proof (low_digits p) as Hlow.
  destruct (digits p - 53) as [|k|k] eqn:Hk; case_decide; try lia.
  - replace (53 - digits p) with 0 in Hlow by lia.
    rewrite binary_round_aux_exact by lia. f_equal; lia.
  - rewrite binary_round_aux_round by lia. by rewrite Hk.
  - replace (53 - digits p) with (Z.pos k) in Hlow by lia.
    rewrite iter_xO, binary_round_aux_exact by lia.
    f_equal; lia.
Qed.

(** ** The Number of an integer *)

Lemma SF_of_scaled q e :
  2 ^ 52 ≤ q < 2 ^ 53 → 0 ≤ e →
  SF_of (Num (Z.to_N (q * 2 ^ e))) = S754_finite false (Z.to_pos q) e.
Proof.
  intros Hq He. pose proof (pow2_pos e He).
  destruct (Z.to_N (q * 2 ^ e)) as [|p] eqn:Hp; [nia|].
  assert (Z.pos p = q * 2 ^ e) as Hv by lia. clear Hp.
  unfold SF_of, mant, expo. rewrite (digits_mantissa q e p), Hv by done.
  replace (53 - (53 + e)) with (- e) by lia.
  rewrite Z.shiftl_opp_r, Z.shiftr_div_pow2, Z.div_mul by lia.
  f_equal. lia.
Qed.

(** A mantissa rounded up to 2^53 is the mantissa 2^52 one exponent
    higher. *)
Lemma pow2_carry e : 0 ≤ e → 2 ^ 53 * 2 ^ e = 2 ^ 52 * 2 ^ (e + 1).
Proof. intros. rewrite Z.pow_add_r by lia. lia. Qed.

Lemma scaled_below q e :
  2 ^ 52 ≤ q < 2 ^ 53 → 0 ≤ e → q * 2 ^ e < 2 ^ 1024 ↔ e ≤ 971.
Proof.
  intros Hq He. pose proof (pow2_pos e He).
  change (2 ^ 1024) with (2 ^ 53 * 2 ^ 971). split.
  - intros Hlt. destruct (decide (e ≤ 971)); [done|].
    pose proof (Z.pow_le_mono_r 2 972 e).
    change (2 ^ 972) with (2 * 2 ^ 971) in *. nia.
  - intros Hle. pose proof (Z.pow_le_mono_r 2 e 971). nia.
Qed.

Lemma pack_SF_of q e :
  2 ^ 52 ≤ q ≤ 2 ^ 53 → 0 ≤ e →
  pack q e = SF_of (if decide (q * 2 ^ e < 2 ^ 1024)
                    then Num (Z.to_N (q * 2 ^ e)) else Infinity).
Proof.
  intros Hq He. unfold pack. destruct (decide (q < 2 ^ 53)) as [Hlt|Hge].
  - pose proof (scaled_below q e ltac:(lia) He).
    repeat case_decide; try tauto. by rewrite SF_of_scaled by lia.
  - assert (q = 2 ^ 53) as -> by lia. change (2 ^ 53 / 2) with (2 ^ 52).
    rewrite pow2_carry by done.
    pose proof (scaled_below (2 ^ 52) (e + 1) ltac:(lia) ltac:(lia)).
    repeat case_decide; try tauto. by rewrite SF_of_scaled by lia.
Qed.

(** The rounded digits of [JsRuntime], which are written on [N], are
    those of [rounded]. *)
Lemma rounded_N p :
  53 < digits p →
  let sh := (N.size (N.pos p) - 53)%N in
  Z.of_N (round_half_even (N.pos p / 2 ^ sh) (N.pos p mod 2 ^ sh)
            (2 ^ (sh - 1)) * 2 ^ sh)
  = rounded p * 2 ^ (digits p - 53).
Proof.
  intros Hd sh. pose proof (digits_size p) as Hs.
  assert (Z.of_N sh = digits p - 53) as Hsh
    by (unfold sh; rewrite N2Z.inj_sub by lia; lia).
  rewrite N2Z.inj_mul, round_half_even_Z, N2Z.inj_div, N2Z.inj_mod,
    !N2Z.inj_pow.
  by rewrite !Hsh, N2Z.inj_sub, Hsh by lia.
Qed.

(** [Number_of_N] on the digits of a positive integer. *)
Lemma Number_of_N_pos p :
  Number_of_N (N.pos p) =
    if decide (digits p ≤ 53) then Num (N.pos p)
    else if decide (rounded p * 2 ^ (digits p - 53) < 2 ^ 1024)
         then Num (Z.to_N (rounded p * 2 ^ (digits p - 53)))
         else Infinity.
Proof.
  destruct (below_digits p) as [Hb1 Hb2]. case_decide as Hk.
  { by apply Number_of_N_exact, Hb2. }
  unfold Number_of_N. rewrite decide_False by (intros ?%Hb1; lia). cbv zeta.
  pose proof (rounded_N p ltac:(lia)) as Hq. cbv zeta in Hq.
  case_decide; case_decide; try lia; [|done]. f_equal. lia.
Qed.

Lemma round_to_Number p : round_to p 0 = SF_of (Number_of_N (N.pos p)).
Proof.
  rewrite Number_of_N_pos. unfold round_to. cbv zeta.
  pose proof (low_digits p) as Hlow.
  destruct (decide (digits p - 53 ≤ 0)); case_decide; try lia.
  - replace (- (digits p - 53)) with (53 - digits p) by lia.
    unfold pack. rewrite !decide_True by lia. unfold SF_of, mant, expo.
    rewrite Z.shiftl_mul_pow2 by lia. f_equal.
  - pose proof (rounded_bounds p ltac:(lia)).
    rewrite Z.add_0_l. apply pack_SF_of; lia.
Qed.

(** The conversion of an integer to a Number is the rounding of binary64. *)
Theorem Number_of_N_binary64 (n : N) :
  SF_of (Number_of_N n) = binary_normalize 53 1024 (Z.of_N n) 0 false.
Proof.
  destruct n as [|p]; [done|]. cbn [Z.of_N binary_normalize].
  by rewrite binary_round_closed, round_to_Number.
Qed.

(** ** Scaling *)

(** The float of [p * 2 ^ e] does not depend on how the number is split
    into [p] and [e]. *)
Lemma round_to_scale p j p' e :
  0 ≤ j → Z.pos p' = Z.pos p * 2 ^ j → round_to p' (e - j) = round_to p e.
Proof.
  intros Hj Hp'. unfold round_to. cbv zeta.
  rewrite (digits_scale p j p') by done.
  replace (e - j + (digits p + j - 53)) with (e + (digits p - 53)) by lia.
  pose proof (low_digits p) as Hlow.
  destruct (decide (digits p - 53 ≤ 0)) as [Hk|Hk]; case_decide as Hkj;
    try lia; f_equal.
  - rewrite Hp', <-Z.mul_assoc, <-Z.pow_add_r by lia. do 2 f_equal. lia.
  - replace (- (digits p - 53)) with (53 - digits p) by lia.
    apply (rounded_mantissa _ (digits p + j - 53)); [lia..|].
    rewrite Hp', <-Z.mul_assoc, <-Z.pow_add_r by lia. do 2 f_equal. lia.
  - apply (rounded_scale p j); (done || lia).
Qed.

(** ** Addition *)

Lemma SF_of_pos p : SF_of (Num (N.pos p)) = S754_finite false (mant p) (expo p).
Proof. done. Qed.

Lemma expo_bound p : -52 ≤ expo p.
Proof. unfold expo. pose proof (digits_pos p). lia. Qed.

Lemma shl_align_fst m e z :
  z ≤ e → Z.pos (fst (shl_align m e z)) = Z.pos m * 2 ^ (e - z).
Proof.
  intros Hz. unfold shl_align. destruct (z - e) as [|d|d] eqn:Hd; [|lia|].
  - replace (e - z) with 0 by lia. simpl. lia.
  - replace (e - z) with (Z.pos d) by lia. apply iter_xO.
Qed.

(** The mantissa and exponent of a double stand for its value. *)
Lemma double_mant p :
  double (N.pos p) →
  if decide (expo p ≤ 0) then Z.pos (mant p) = Z.pos p * 2 ^ (- expo p)
  else Z.pos p = Z.pos (mant p) * 2 ^ expo p.
Proof.
  unfold double, mant, expo. rewrite Number_of_N_pos.
  pose proof (pow2_pos (digits p - 53)).
  destruct (decide (digits p - 53 ≤ 0)); case_decide; try lia; intros Hd.
  - rewrite Z.shiftl_mul_pow2 by lia. pose proof (low_digits p).
    replace (- (digits p - 53)) with (53 - digits p) by lia. lia.
  - case_decide; [|done]. simplify_eq.
    pose proof (rounded_bounds p ltac:(lia)).
    assert (Z.pos p = rounded p * 2 ^ (digits p - 53)) as Hp by lia.
    replace (53 - digits p) with (- (digits p - 53)) by lia.
    rewrite Z.shiftl_opp_r, Z.shiftr_div_pow2 by lia.
    assert (Z.pos p / 2 ^ (digits p - 53) = rounded p) as ->
      by (rewrite Hp at 1; apply Z.div_mul; lia).
    by rewrite Z2Pos.id by lia.
Qed.

Lemma double_aligned p z :
  double (N.pos p) → z ≤ expo p →
  Z.pos (mant p) * 2 ^ (expo p - z) * 2 ^ Z.max z 0
  = Z.pos p * 2 ^ Z.max (- z) 0.
Proof.
  intros Hd Hz. pose proof (double_mant p Hd) as Hm.
  case_decide as He.
  - rewrite Hm, Z.max_r, Z.max_l, Z.pow_0_r, Z.mul_1_r, <-Z.mul_assoc,
      <-Z.pow_add_r by lia. do 2 f_equal. lia.
  - rewrite Hm. rewrite <-!Z.mul_assoc, <-!Z.pow_add_r by lia.
    do 2 f_equal. lia.
Qed.

Lemma SFadd_pos a b :
  double (N.pos a) → double (N.pos b) →
  SFadd 53 1024 (SF_of (Num (N.pos a))) (SF_of (Num (N.pos b)))
  = round_to (a + b) 0.
Proof.
  intros Ha Hb. rewrite !SF_of_pos. cbn [SFadd cond_Zopp]. cbv zeta.
  set (z := Z.min (expo a) (expo b)).
  pose proof (expo_bound a). pose proof (expo_bound b).
  pose proof (double_aligned a z Ha ltac:(lia)) as HA.
  pose proof (double_aligned b z Hb ltac:(lia)) as HB.
  rewrite <-shl_align_fst in HA, HB by lia.
  destruct (Z.pos (fst (shl_align (mant a) (expo a) z))
            + Z.pos (fst (shl_align (mant b) (expo b) z))) as [|M|M] eqn:HM;
    [lia| |lia].
  cbn [binary_normalize]. rewrite binary_round_closed by lia.
  destruct (decide (0 ≤ z)) as [Hz|Hz].
  - rewrite Z.max_l, Z.max_r, Z.pow_0_r, Z.mul_1_r in HA, HB by lia.
    rewrite <-(round_to_scale M z (a + b) z) by lia. by rewrite Z.sub_diag.
  - rewrite Z.max_r, Z.max_l, Z.pow_0_r, Z.mul_1_r in HA, HB by lia.
    rewrite <-(round_to_scale (a + b) (- z) M 0) by lia. f_equal. lia.
Qed.

(** ** The integers that occur are doubles *)

Lemma double_mantissa q e :
  2 ^ 52 ≤ q < 2 ^ 53 → 0 ≤ e → q * 2 ^ e < 2 ^ 1024 →
  double (Z.to_N (q * 2 ^ e)).
Proof.
  intros Hq He Hlt. pose proof (pow2_pos e He).
  destruct (Z.to_N (q * 2 ^ e)) as [|p] eqn:Hp; [done|].
  assert (Z.pos p = q * 2 ^ e) as Hv by lia. clear Hp.
  unfold double. rewrite Number_of_N_pos, (digits_mantissa q e p) by done.
  case_decide as He0; [done|].
  rewrite (rounded_mantissa q e p) by (done || lia).
  replace (53 + e - 53) with e by lia.
  rewrite decide_True by done. f_equal. lia.
Qed.

Lemma Number_of_N_representable n : representable (Number_of_N n).
Proof.
  destruct n as [|p]; [done|]. rewrite Number_of_N_pos.
  case_decide as Hk; [apply Number_of_N_exact, below_digits; lia|].
  pose proof (rounded_bounds p ltac:(lia)) as Hr. revert Hr.
  generalize (rounded p). intros q Hr. case_decide as Hlt; [|done]. simpl.
  destruct (decide (q < 2 ^ 53)); [apply double_mantissa; lia|].
  assert (q = 2 ^ 53) as -> by lia. rewrite pow2_carry in * by lia.
  apply double_mantissa; lia.
Qed.

Lemma num_add_representable x y : representable (num_add x y).
Proof. destruct x, y; try done. apply Number_of_N_representable. Qed.

(** The addition of Numbers is the addition of binary64. *)
Theorem num_add_binary64 x y :
  representable x → representable y →
  SF_of (num_add x y) = SFadd 53 1024 (SF_of x) (SF_of y).
Proof.
  destruct x as [[|a]| |], y as [[|b]| |]; intros Hx Hy; try done.
  - cbn [num_add representable] in *. rewrite N.add_0_l. by rewrite Hy.
  - cbn [num_add representable] in *. rewrite N.add_0_r. by rewrite Hx.
  - rewrite SFadd_pos by done. cbn [num_add]. by rewrite round_to_Number.
Qed.

(** Distinct Numbers are distinct floats. *)
Lemma SF_of_inj x y :
  representable x → representable y → SF_of x = SF_of y → x = y.
Proof.
  destruct x as [[|a]| |], y as [[|b]| |]; intros Hx Hy Heq; try done.
  rewrite !SF_of_pos in Heq. injection Heq as Hm He.
  pose proof (double_mant a Hx) as Ha. pose proof (double_mant b Hy) as Hb.
  rewrite He, Hm in Ha. pose proof (pow2_pos (- expo b)).
  do 2 f_equal. case_decide; [nia | lia].
Qed.

End Ieee.
