(* ===== verification/Bits.v ===== *)
(** * Binary strings and the integers they denote

    The program keeps every 32-bit word as a string of thirty-two '0' and
    '1' characters, most significant bit first.  This file is the codec
    between such strings and integers: [bits n s] says that [s] is a binary
    string of [n] characters, [val s] is the integer it denotes and [enc n z]
    the [n]-character string of [z] modulo 2^n.  The two are inverse on
    [bits n] ([enc_val], [val_enc]); [val_testbit] and [enc_lookup] relate
    characters to [Z.testbit], which is how the bitwise operations of [Utils]
    are proved; [enc_fixed_digits] relates [enc] to the numerals the runtime
    prints and reads.  [hex] is the fixed-width lower-case hexadecimal
    numeral and [hex_width] the width of the shortest one, which is what
    [toString(16)] prints ([toString16_hex]).  [read] and [lval] say what the loops of [Utils] see of a
    string that is not binary or is shorter than the other argument;
    [same_reading] is the equivalence of strings these loops cannot tell
    apart, with [val] a morphism of it. *)

From S2P Require Import Prelude JsRuntime.

(** ** Definitions *)

Definition is_bit (c : char) : Prop := c = ch0 ∨ c = ch1.

#[global] Instance is_bit_dec c : Decision (is_bit c).
Proof. unfold is_bit. apply _. Defined.

Definition is_bin (s : jsstr) : Prop := Forall is_bit s.

Definition bits (n : nat) (s : jsstr) : Prop := length s = n ∧ is_bin s.

#[global] Instance bits_dec n s : Decision (bits n s).
Proof. unfold bits, is_bin. apply _. Defined.

(** A character read as a bit, the way the code tests it: [c === '1']. *)
Definition bit_of (c : char) : bool := bool_decide (c = ch1).

Definition char_of (b : bool) : char := if b then ch1 else ch0.

Definition val (s : jsstr) : Z :=
  foldl (λ acc c, 2 * acc + Z.b2z (bit_of c))%Z 0%Z s.

Definition enc (n : nat) (z : Z) : jsstr :=
  (λ i, char_of (Z.testbit z (Z.of_nat (n - 1 - i)))) <$> seq 0 n.

Definition hex (w : nat) (z : Z) : jsstr :=
  fixed_digits w 16 (Z.to_N (z mod 2 ^ (4 * Z.of_nat w))).

(** The number of digits of the shortest hexadecimal numeral of [z]: one
    for 0 to 15, two for 16 to 255, and so on. *)
Definition hex_width (z : Z) : nat := S (Z.to_nat (Z.log2 z / 4)).

Arguments val : simpl never.
Arguments enc : simpl never.
Arguments hex : simpl never.

(** ** Characters *)

Lemma bit_of_char_of b : bit_of (char_of b) = b.
Proof. by destruct b. Qed.

Lemma char_of_bit_of c : is_bit c → char_of (bit_of c) = c.
Proof. by intros [-> | ->]. Qed.

Lemma is_bit_char_of b : is_bit (char_of b).
Proof. destruct b; [by right | by left]. Qed.

Lemma is_bit_ch0 : is_bit ch0.
Proof. by left. Qed.

Lemma is_bit_ch1 : is_bit ch1.
Proof. by right. Qed.

Lemma char_of_inj b1 b2 : char_of b1 = char_of b2 → b1 = b2.
Proof. by destruct b1, b2. Qed.

#[export] Hint Resolve is_bit_char_of is_bit_ch0 is_bit_ch1 : bits.
#[export] Hint Rewrite bit_of_char_of : len.

(** ** Well-formed binary strings *)

Lemma bits_length n s : bits n s → length s = n.
Proof. by intros [? _]. Qed.

Lemma bits_is_bin n s : bits n s → is_bin s.
Proof. by intros [_ ?]. Qed.

Lemma bits_lookup n s i :
  bits n s → i < n → ∃ c, s !! i = Some c ∧ is_bit c.
Proof.
  intros [Hlen Hbin] Hi.
  destruct (lookup_lt_is_Some_2 s i) as [c Hc]; [lia|].
  exists c. split; [done|]. by eapply Forall_lookup_1.
Qed.

Lemma bits_app n m s t : bits n s → bits m t → bits (n + m) (s ++ t).
Proof.
  intros [? ?] [? ?]. split; [len | by apply Forall_app].
Qed.

Lemma bits_app_inv n s t :
  bits n (s ++ t) → bits (length s) s ∧ bits (length t) t.
Proof.
  intros [_ [? ?]%Forall_app]. by repeat split.
Qed.

Lemma bits_take n k s : bits n s → k ≤ n → bits k (take k s).
Proof.
  intros [? ?] ?. split; [len | by apply Forall_take].
Qed.

Lemma bits_drop n k s : bits n s → bits (n - k) (drop k s).
Proof.
  intros [? ?]. split; [len | by apply Forall_drop].
Qed.

Lemma bits_replicate n b : bits n (replicate n (char_of b)).
Proof.
  split; [len|]. apply Forall_replicate. auto with bits.
Qed.

Lemma bits_zeros n : bits n (replicate n ch0).
Proof. apply (bits_replicate n false). Qed.

Lemma bits_concat n (l : list jsstr) :
  Forall (bits n) l → bits (length l * n) (concat l).
Proof.
  induction 1 as [|s l Hs _ IH]; simpl; [by split; [|constructor]|].
  by apply bits_app.
Qed.

Lemma enc_length n z : length (enc n z) = n.
Proof. unfold enc. len. Qed.

#[export] Hint Rewrite enc_length : len.

Lemma enc_lookup n z i :
  i < n → enc n z !! i = Some (char_of (Z.testbit z (Z.of_nat (n - 1 - i)))).
Proof. intros. unfold enc. by rewrite fmap_seq_lookup. Qed.

Lemma enc_bits n z : bits n (enc n z).
Proof.
  split; [len|]. apply Forall_fmap, Forall_forall. intros i _. simpl.
  auto with bits.
Qed.

#[export] Hint Resolve enc_bits bits_zeros bits_app bits_take bits_drop : bits.

(** ** The value of a string *)

Local Open Scope Z_scope.

Lemma val_nil : val [] = 0.
Proof. done. Qed.

Lemma val_snoc s c : val (s ++ [c]) = 2 * val s + Z.b2z (bit_of c).
Proof. unfold val. by rewrite foldl_app. Qed.

Lemma val_bound s : 0 ≤ val s < 2 ^ Z.of_nat (length s).
Proof.
  induction s as [|c s IH] using rev_ind; [done|].
  rewrite val_snoc, length_app, Nat2Z.inj_add, Z.pow_add_r by lia.
  simpl length. change (2 ^ Z.of_nat 1) with 2.
  destruct (bit_of c); simpl; lia.
Qed.

Lemma val_bits_bound n s : bits n s → 0 ≤ val s < 2 ^ Z.of_nat n.
Proof. intros [<- _]. apply val_bound. Qed.

(** The character at position [i] from the left is bit [n - 1 - i]. *)
Lemma val_testbit s (i : nat) c :
  s !! i = Some c →
  Z.testbit (val s) (Z.of_nat (length s - 1 - i)) = bit_of c.
Proof.
  revert i. induction s as [|d s IH] using rev_ind; intros i Hi; [done|].
  rewrite val_snoc, length_app. simpl length.
  destruct (decide (i = length s)) as [->|Hne].
  - rewrite lookup_app_r, Nat.sub_diag in Hi by done. simplify_eq/=.
    replace (Z.of_nat (length s + 1 - 1 - length s)) with 0 by lia.
    apply Z.testbit_0_r.
  - assert (i < length s)%nat.
    { apply lookup_lt_Some in Hi. rewrite length_app in Hi. simpl in Hi. lia. }
    rewrite lookup_app_l in Hi by done.
    replace (Z.of_nat (length s + 1 - 1 - i))
      with (Z.succ (Z.of_nat (length s - 1 - i))) by lia.
    rewrite Z.testbit_succ_r by lia. by apply IH.
Qed.

Lemma enc_val n s : bits n s → enc n (val s) = s.
Proof.
  intros [Hlen Hbin]. subst n. symmetry. apply fmap_seq_ext.
  intros i Hi. destruct (lookup_lt_is_Some_2 s i Hi) as [c Hc].
  rewrite (val_testbit s i c Hc), Hc. f_equal. symmetry.
  apply char_of_bit_of. by eapply Forall_lookup_1.
Qed.

Lemma val_enc n z : val (enc n z) = z mod 2 ^ Z.of_nat n.
Proof.
  pose proof (val_bound (enc n z)) as Hb. rewrite enc_length in Hb.
  apply Z.bits_inj'. intros i Hi. rewrite testbit_mod_pow2 by lia.
  case_bool_decide as Hlt; simpl; [|by apply Z_bounded_testbit with (Z.of_nat n); lia].
  pose proof (val_testbit (enc n z) (n - 1 - Z.to_nat i)) as Ht.
  rewrite enc_lookup, enc_length in Ht by lia.
  replace (Z.of_nat (n - 1 - (n - 1 - Z.to_nat i))) with i in Ht by lia.
  rewrite (Ht _ eq_refl). apply bit_of_char_of.
Qed.

Lemma enc_mod n z : enc n (z mod 2 ^ Z.of_nat n) = enc n z.
Proof.
  unfold enc. apply list_fmap_ext. intros j i Hi%lookup_seq. simpl in Hi.
  rewrite testbit_mod_pow2 by lia. by rewrite bool_decide_eq_true_2 by lia.
Qed.

Lemma enc_ext n z1 z2 :
  z1 mod 2 ^ Z.of_nat n = z2 mod 2 ^ Z.of_nat n → enc n z1 = enc n z2.
Proof. intros H. by rewrite <-(enc_mod n z1), H, enc_mod. Qed.

Lemma enc_testbit_ext n z1 z2 :
  (∀ i, 0 ≤ i < Z.of_nat n → Z.testbit z1 i = Z.testbit z2 i) →
  enc n z1 = enc n z2.
Proof. intros. apply enc_ext, Z_mod_pow2_eq; [lia|done]. Qed.

Lemma val_inj n s t : bits n s → bits n t → val s = val t → s = t.
Proof. intros Hs Ht Hv. by rewrite <-(enc_val n s), <-(enc_val n t), Hv. Qed.

Lemma enc_small n z : 0 ≤ z < 2 ^ Z.of_nat n → val (enc n z) = z.
Proof. intros. rewrite val_enc. by apply Z.mod_small. Qed.

Lemma val_zeros n : val (replicate n ch0) = 0.
Proof.
  induction n as [|n IH]; [done|].
  rewrite replicate_S_end, val_snoc, IH. done.
Qed.

Lemma val_app s t : val (s ++ t) = val s * 2 ^ Z.of_nat (length t) + val t.
Proof.
  induction t as [|c t IH] using rev_ind.
  - rewrite app_nil_r. simpl. rewrite val_nil. lia.
  - rewrite app_assoc, !val_snoc, IH, length_app, Nat2Z.inj_add,
      Z.pow_add_r by lia.
    simpl length. change (2 ^ Z.of_nat 1) with 2. lia.
Qed.

Lemma enc_snoc n z : enc (S n) z = enc n (z / 2) ++ [char_of (Z.odd z)].
Proof.
  apply list_eq_same_length with (S n); [by len; simpl; lia | by len |].
  intros i x y Hi Hx Hy. rewrite enc_lookup in Hx by done.
  destruct (decide (i = n)) as [->|Hne].
  - rewrite lookup_app_r, enc_length, Nat.sub_diag in Hy by (by len).
    replace (Z.of_nat (S n - 1 - n)) with 0 in Hx by lia.
    rewrite Z.bit0_odd in Hx. by simplify_eq/=.
  - rewrite lookup_app_l, enc_lookup in Hy by (len || lia).
    replace (Z.of_nat (S n - 1 - i))
      with (Z.succ (Z.of_nat (n - 1 - i))) in Hx by lia.
    rewrite <-Z.div2_div, Z.div2_spec, Z.shiftr_spec in Hy by lia.
    replace (Z.of_nat (n - 1 - i) + 1)
      with (Z.succ (Z.of_nat (n - 1 - i))) in Hy by lia.
    congruence.
Qed.

Lemma enc_app n m z :
  enc (n + m) z = enc n (z / 2 ^ Z.of_nat m) ++ enc m z.
Proof.
  revert z. induction m as [|m IH]; intros z.
  - rewrite Nat.add_0_r, Z.pow_0_r, Z.div_1_r. by rewrite app_nil_r.
  - replace (n + S m)%nat with (S (n + m)) by lia.
    rewrite !enc_snoc, IH, app_assoc. do 3 f_equal.
    rewrite Nat2Z.inj_succ, Z.pow_succ_r, Z.div_div by lia. done.
Qed.

(** ** Numerals *)

Lemma digit_char_bit (n : N) :
  digit_char (n mod 2) = char_of (Z.odd (Z.of_N n)).
Proof.
  pose proof (Zmod_odd (Z.of_N n)) as Hodd.
  change 2 with (Z.of_N 2) in Hodd. rewrite <-N2Z.inj_mod in Hodd.
  destruct (Z.odd (Z.of_N n)).
  - by replace (n mod 2)%N with 1%N by lia.
  - by replace (n mod 2)%N with 0%N by lia.
Qed.

(** The binary numeral of width [w] is [enc w]. *)
Lemma enc_fixed_digits w (n : N) : fixed_digits w 2 n = enc w (Z.of_N n).
Proof.
  revert n. induction w as [|w IH]; intros n; [done|].
  rewrite enc_snoc. simpl. rewrite IH, digit_char_bit.
  by rewrite N2Z.inj_div.
Qed.

Lemma bits_fixed_digits w s :
  bits w s → s = fixed_digits w 2 (Z.to_N (val s)).
Proof.
  intros Hs. rewrite enc_fixed_digits, Z2N.id by apply val_bound.
  by rewrite enc_val.
Qed.

(** [parseInt(s, 2)] of a non-empty binary string is the double nearest
    to its value: the value itself up to 53 characters. *)
Lemma parseInt_bits_round w s :
  bits w s → (0 < w)%nat → parseInt s 2 = Number_of_N (Z.to_N (val s)).
Proof.
  intros Hs Hw. pose proof (val_bits_bound w s Hs) as Hb.
  rewrite (bits_fixed_digits w s Hs) at 1. unfold parseInt.
  rewrite parse_digits_fixed; [by rewrite N.mul_0_l| lia | lia | | by left].
  apply N2Z.inj_lt. rewrite Z2N.id, N2Z.inj_pow by lia.
  rewrite nat_N_Z. apply Hb.
Qed.

Lemma parseInt_bits w s :
  bits w s → (0 < w ≤ 53)%nat → parseInt s 2 = Num (Z.to_N (val s)).
Proof.
  intros Hs Hw. rewrite (parseInt_bits_round w) by (done || lia).
  apply Number_of_N_exact. pose proof (val_bits_bound w s Hs) as Hb.
  pose proof (Z.pow_le_mono_r 2 (Z.of_nat w) 53). lia.
Qed.

(** [n.toString(2)] of a number below [2 ^ k] has at most [k] characters,
    and zeros in front of it up to [k] give [enc k]. *)
Lemma toString2_enc (k : nat) (n : N) :
  (0 < k)%nat → (n < 2 ^ N.of_nat k)%N →
  (length (Number_toString (Num n) 2) ≤ k)%nat ∧
  replicate (k - length (Number_toString (Num n) 2)) ch0
    ++ Number_toString (Num n) 2 = enc k (Z.of_N n).
Proof.
  intros Hk Hn.
  destruct (Number_toString_fixed 2 n) as (w & -> & Hup & Hlow); [done|].
  rewrite fixed_digits_length.
  assert (S w ≤ k)%nat as Hw.
  { destruct Hlow as [->|Hlow]; [lia|]. destruct (decide (S w ≤ k)%nat); [done|].
    pose proof (N.pow_le_mono_r 2 (N.of_nat k) (N.of_nat w)). lia. }
  split; [done|]. rewrite fixed_digits_pad, enc_fixed_digits by done.
  f_equal. lia.
Qed.

(** [n.toString(2)] is a string of '0' and '1'. *)
Lemma toString2_bin (n : N) : is_bin (Number_toString (Num n) 2).
Proof.
  destruct (Number_toString_fixed 2 n) as (w & -> & _); [done|].
  rewrite enc_fixed_digits. apply enc_bits.
Qed.

(** A number from [2 ^ k] on has more than [k] binary digits. *)
Lemma toString2_long (k : nat) (n : N) :
  (2 ^ N.of_nat k ≤ n)%N → (k < length (Number_toString (Num n) 2))%nat.
Proof.
  intros Hn.
  destruct (Number_toString_fixed 2 n) as (w & -> & Hup & _); [done|].
  rewrite fixed_digits_length. destruct (decide (k < S w)%nat); [done|].
  pose proof (N.pow_le_mono_r 2 (N.of_nat (S w)) (N.of_nat k)). lia.
Qed.

Lemma hex_length w z : length (hex w z) = w.
Proof. unfold hex. len. Qed.

#[export] Hint Rewrite hex_length : len.

(** The characters of a hexadecimal numeral: '0'-'9' and 'a'-'f'. *)
Definition is_hex_char (c : char) : Prop :=
  (48 ≤ c < 58)%N ∨ (97 ≤ c < 103)%N.

#[global] Instance is_hex_char_dec c : Decision (is_hex_char c).
Proof. unfold is_hex_char. apply _. Defined.

Lemma hex_chars w z : Forall is_hex_char (hex w z).
Proof.
  unfold hex. generalize (Z.to_N (z mod 2 ^ (4 * Z.of_nat w))).
  induction w as [|w IH]; intros n; [constructor|].
  cbn [fixed_digits]. apply Forall_app. split; [apply IH|].
  apply Forall_singleton.
  pose proof (N.mod_lt n 16 ltac:(done)) as Hd. revert Hd.
  generalize (n mod 16)%N. intros d Hd. unfold is_hex_char, digit_char.
  case_decide; lia.
Qed.

Lemma hex_mod w z : hex w (z mod 2 ^ (4 * Z.of_nat w)) = hex w z.
Proof. unfold hex. by rewrite Zmod_mod. Qed.

Lemma pow16_pow2 (b : nat) : Z.of_N (16 ^ N.of_nat b) = 2 ^ (4 * Z.of_nat b).
Proof.
  rewrite N2Z.inj_pow, nat_N_Z. change (Z.of_N 16) with (2 ^ 4).
  by rewrite <-Z.pow_mul_r by lia.
Qed.

(** Round trip: [parseInt(s, 16)] reads a hexadecimal numeral of at most
    thirteen digits back. *)
Lemma parseInt_hex (w : nat) z :
  (0 < w ≤ 13)%nat →
  parseInt (hex w z) 16 = Num (Z.to_N (z mod 2 ^ (4 * Z.of_nat w))).
Proof.
  intros Hw. unfold parseInt, hex.
  pose proof (Z.mod_pos_bound z (2 ^ (4 * Z.of_nat w)) ltac:(apply pow2_pos; lia)).
  pose proof (Z.pow_le_mono_r 2 (4 * Z.of_nat w) 53).
  rewrite parse_digits_fixed; [|lia|lia| |left; lia].
  - rewrite N.mul_0_l. apply Number_of_N_exact. lia.
  - apply N2Z.inj_lt. rewrite pow16_pow2, Z2N.id; lia.
Qed.

(** The numeral of [a + b] hexadecimal digits is the numeral of the [a]
    leading digits followed by that of the [b] trailing ones. *)
Lemma hex_app a b z :
  hex (a + b) z = hex a (z / 2 ^ (4 * Z.of_nat b)) ++ hex b z.
Proof.
  assert (0 < 2 ^ (4 * Z.of_nat a)) by (apply pow2_pos; lia).
  assert (0 < 2 ^ (4 * Z.of_nat b)) by (apply pow2_pos; lia).
  assert (2 ^ (4 * Z.of_nat (a + b))
          = 2 ^ (4 * Z.of_nat b) * 2 ^ (4 * Z.of_nat a)) as Hsplit.
  { rewrite <-Z.pow_add_r by lia. f_equal. lia. }
  unfold hex. rewrite fixed_digits_app, Hsplit by done. f_equal.
  - f_equal. apply N2Z.inj.
    rewrite N2Z.inj_div, pow16_pow2, !Z2N.id by (apply Z.mod_pos_bound; lia).
    by apply Z_mod_mul_div.
  - rewrite <-fixed_digits_mod by done. f_equal. apply N2Z.inj.
    rewrite N2Z.inj_mod, pow16_pow2, !Z2N.id by (apply Z.mod_pos_bound; lia).
    by apply Z_mod_mul_mod.
Qed.

(** Zeros in front of a numeral that holds its number widen it. *)
Lemma hex_pad (j k : nat) z :
  0 ≤ z < 2 ^ (4 * Z.of_nat k) →
  replicate j ch0 ++ hex k z = hex (j + k) z.
Proof.
  intros Hz. unfold hex.
  pose proof (Z.pow_le_mono_r 2 (4 * Z.of_nat k) (4 * Z.of_nat (j + k))).
  rewrite !Z.mod_small by lia. apply fixed_digits_pad; [done|].
  apply N2Z.inj_lt. rewrite pow16_pow2, Z2N.id; lia.
Qed.

(** ** The shortest hexadecimal numeral *)

(** The width of a numeral that holds the number and has no leading zero
    is [hex_width]. *)
Lemma hex_width_unique (k : nat) z :
  0 ≤ z < 2 ^ (4 * Z.of_nat (S k)) →
  k = 0%nat ∨ 2 ^ (4 * Z.of_nat k) ≤ z →
  hex_width z = S k.
Proof.
  intros [H0 Hup] Hlow. unfold hex_width. f_equal.
  destruct (decide (z = 0)) as [->|Hz].
  { destruct Hlow as [->|Hlow]; [done|].
    pose proof (pow2_pos (4 * Z.of_nat k)). lia. }
  assert (Z.log2 z < 4 * Z.of_nat (S k)) by (apply Z.log2_lt_pow2; lia).
  assert (4 * Z.of_nat k ≤ Z.log2 z).
  { destruct Hlow as [->|Hlow]; [apply Z.log2_nonneg|].
    apply Z.log2_le_pow2; lia. }
  apply Nat2Z.inj. rewrite Z2Nat.id by (apply Z.div_pos; lia).
  symmetry. apply Z.div_unique with (Z.log2 z - 4 * Z.of_nat k); lia.
Qed.

(** [n.toString(16)] is the numeral of [hex_width n] digits, which holds
    [n]. *)
Lemma toString16_hex (n : N) :
  Number_toString (Num n) 16 = hex (hex_width (Z.of_N n)) (Z.of_N n)
  ∧ Z.of_N n < 2 ^ (4 * Z.of_nat (hex_width (Z.of_N n))).
Proof.
  destruct (Number_toString_fixed 16 n) as (k & -> & Hup & Hlow); [done|].
  apply N2Z.inj_lt in Hup. rewrite pow16_pow2 in Hup.
  rewrite (hex_width_unique k); [|lia|].
  - split; [|done]. unfold hex. by rewrite Z.mod_small, N2Z.id by lia.
  - destruct Hlow as [->|Hlow]; [by left|right].
    apply N2Z.inj_le in Hlow. by rewrite pow16_pow2 in Hlow.
Qed.

(** A number below 16^k has at most [k] hexadecimal digits. *)
Lemma hex_width_le (k : nat) z :
  0 ≤ z < 2 ^ (4 * Z.of_nat k) → (0 < k)%nat → (hex_width z ≤ k)%nat.
Proof.
  intros [H0 Hup] Hk. unfold hex_width.
  destruct (decide (z = 0)) as [->|Hz];
    [change (S (Z.to_nat (Z.log2 0 / 4))) with 1%nat; lia|].
  assert (Z.log2 z < 4 * Z.of_nat k) by (apply Z.log2_lt_pow2; lia).
  pose proof (Z.log2_nonneg z).
  assert (Z.log2 z / 4 < Z.of_nat k) by (apply Z.div_lt_upper_bound; lia).
  pose proof (Z.div_pos (Z.log2 z) 4). lia.
Qed.

(** ** Rotation

    [rotl w k z] rotates the [w]-bit word [z] left by [k] positions; on
    strings this is [rotate k] of stdpp (the first [k] characters move to
    the end). *)

Definition rotl (w k : nat) (z : Z) : Z :=
  let k' := Z.of_nat (k mod w) in
  Z.lor (Z.shiftl z k') (Z.shiftr z (Z.of_nat w - k')) mod 2 ^ Z.of_nat w.

Lemma rotl_bound w k z : 0 ≤ rotl w k z < 2 ^ Z.of_nat w.
Proof. apply Z.mod_pos_bound, pow2_pos. lia. Qed.

Lemma rotl_testbit w k z j :
  0 ≤ z < 2 ^ Z.of_nat w → 0 ≤ j < Z.of_nat w →
  Z.testbit (rotl w k z) j = Z.testbit z ((j - Z.of_nat k) mod Z.of_nat w).
Proof.
  intros Hz Hj. unfold rotl. cbv zeta.
  assert (0 < w)%nat as Hw by lia.
  pose proof (Nat.mod_upper_bound k w ltac:(lia)) as Hk.
  rewrite Z.mod_pow2_bits_low, Z.lor_spec, Z.shiftl_spec, Z.shiftr_spec by lia.
  replace ((j - Z.of_nat k) mod Z.of_nat w)
    with ((j - Z.of_nat (k mod w)) mod Z.of_nat w).
  2:{ rewrite Nat2Z.inj_mod, Zminus_mod_idemp_r. done. }
  destruct (decide (Z.of_nat (k mod w) ≤ j)).
  - rewrite (Z_bounded_testbit z (Z.of_nat w) (j + _)), orb_false_r by lia.
    by rewrite Z.mod_small by lia.
  - rewrite (Z.testbit_neg_r z (j - _)) by lia. simpl. f_equal.
    apply Z.mod_unique_pos with (-1); lia.
Qed.

Lemma enc_rotl w k s : bits w s → enc w (rotl w k (val s)) = rotate k s.
Proof.
  intros Hs. pose proof (val_bits_bound w s Hs) as Hv.
  destruct Hs as [Hlen Hbin]. subst w.
  apply list_eq_same_length with (length s); [by rewrite length_rotate|by len|].
  intros i x y Hi Hx Hy. rewrite enc_lookup in Hx by done.
  rewrite lookup_rotate_r in Hy by done.
  rewrite rotl_testbit in Hx by lia.
  pose proof (rotate_nat_add_lt k i (length s) ltac:(lia)) as Hm.
  pose proof (val_testbit s _ y Hy) as Ht.
  replace ((Z.of_nat (length s - 1 - i) - Z.of_nat k) mod Z.of_nat (length s))
    with (Z.of_nat (length s - 1 - rotate_nat_add k i (length s))) in Hx.
  - rewrite Ht in Hx. simplify_eq. apply char_of_bit_of.
    by eapply Forall_lookup_1.
  - unfold rotate_nat_add in *.
    pose proof (Z.mod_pos_bound (Z.of_nat k + Z.of_nat i) (Z.of_nat (length s))
                  ltac:(lia)).
    apply Z.mod_unique_pos
      with (- ((Z.of_nat k + Z.of_nat i) / Z.of_nat (length s)) ); [lia|].
    pose proof (Z.div_mod (Z.of_nat k + Z.of_nat i) (Z.of_nat (length s))
                  ltac:(lia)).
    lia.
Qed.

Lemma bits_rotate w k s : bits w s → bits w (rotate k s).
Proof. intros Hs. rewrite <-(enc_rotl w k s Hs). apply enc_bits. Qed.

#[export] Hint Resolve bits_rotate : bits.

(** ** Words

    [word w z]: [z] is a [w]-bit unsigned integer.  The values of binary
    strings are words, and the bitwise operations keep words words, which
    is what lets [val (enc w z) = z] chain through a computation. *)

Definition word (w : nat) (z : Z) : Prop := 0 ≤ z < 2 ^ Z.of_nat w.

#[global] Instance word_dec w z : Decision (word w z).
Proof. unfold word. apply _. Defined.

Lemma word_of_testbit w z :
  (∀ i, Z.of_nat w ≤ i → Z.testbit z i = false) → word w z.
Proof.
  intros Hhigh. unfold word.
  assert (z mod 2 ^ Z.of_nat w = z) as <-.
  { apply Z.bits_inj'. intros i Hi. rewrite testbit_mod_pow2 by lia.
    case_bool_decide; [done|]. symmetry. apply Hhigh. lia. }
  apply Z.mod_pos_bound, pow2_pos. lia.
Qed.

Lemma word_testbit w z i : word w z → Z.of_nat w ≤ i → Z.testbit z i = false.
Proof. intros. by apply Z_bounded_testbit with (Z.of_nat w). Qed.

Lemma word_val w s : bits w s → word w (val s).
Proof. apply val_bits_bound. Qed.

Lemma word_mod w z : word w (z mod 2 ^ Z.of_nat w).
Proof. apply Z.mod_pos_bound, pow2_pos. lia. Qed.

Lemma word_rotl w k z : word w (rotl w k z).
Proof. apply rotl_bound. Qed.

Lemma word_lxor w a b : word w a → word w b → word w (Z.lxor a b).
Proof.
  intros Ha Hb. apply word_of_testbit. intros i Hi.
  by rewrite Z.lxor_spec, (word_testbit w a), (word_testbit w b).
Qed.

Lemma word_lor w a b : word w a → word w b → word w (Z.lor a b).
Proof.
  intros Ha Hb. apply word_of_testbit. intros i Hi.
  by rewrite Z.lor_spec, (word_testbit w a), (word_testbit w b).
Qed.

Lemma word_land w a b : word w a → word w b → word w (Z.land a b).
Proof.
  intros Ha Hb. apply word_of_testbit. intros i Hi.
  by rewrite Z.land_spec, (word_testbit w a).
Qed.

(** The complement needs no truncation under a conjunction with a word. *)
Lemma word_land_lnot w a b : word w b → word w (Z.land (Z.lnot a) b).
Proof.
  intros Hb. apply word_of_testbit. intros i Hi.
  by rewrite Z.land_spec, (word_testbit w b), andb_false_r.
Qed.

Lemma land_lnot_mod w a b :
  word w b → Z.land (Z.lnot a mod 2 ^ Z.of_nat w) b = Z.land (Z.lnot a) b.
Proof.
  intros Hb. apply Z.bits_inj'. intros i Hi.
  rewrite !Z.land_spec, testbit_mod_pow2 by lia.
  case_bool_decide; [done|]. simpl.
  by rewrite (word_testbit w b), andb_false_r by (done || lia).
Qed.

Lemma val_enc_word w z : word w z → val (enc w z) = z.
Proof. apply enc_small. Qed.

#[export] Hint Resolve word_val word_mod word_rotl word_lxor word_lor
  word_land word_land_lnot : bits.

(** Lists of words and of strings of width [w] correspond through [val]
    and [enc]. *)
Lemma enc_val_list w (ss : list jsstr) :
  Forall (bits w) ss → enc w <$> (val <$> ss) = ss.
Proof. apply fmap_cancel. intros s. apply enc_val. Qed.

Lemma val_enc_list w (zs : list Z) :
  Forall (word w) zs → val <$> (enc w <$> zs) = zs.
Proof. apply fmap_cancel. intros z. apply val_enc_word. Qed.

Lemma enc_list_bits_length w (zs : list Z) :
  Forall (λ s, length s = w) (enc w <$> zs).
Proof. apply Forall_fmap, Forall_forall. intros z _. apply enc_length. Qed.

Lemma enc_list_bits w (zs : list Z) : Forall (bits w) (enc w <$> zs).
Proof. apply Forall_fmap, Forall_forall. intros z _. apply enc_bits. Qed.

Lemma val_list_word w (ss : list jsstr) :
  Forall (bits w) ss → Forall (word w) (val <$> ss).
Proof.
  intros Hss. apply Forall_fmap. eapply Forall_impl; [done|].
  intros s. apply word_val.
Qed.

#[export] Hint Resolve enc_list_bits val_list_word : bits.

(** ** Strings of any characters and lengths

    What the loops of [Utils] see of a string: the test [bits[i] === '1']
    holds of the character '1' and of nothing else, [undefined] past the
    end included.  A string shorter than [n] thus reads as if it had zeros
    on its right: its value is aligned on the left of [n] characters. *)
Definition read (x : option char) : bool := bool_decide (x = Some ch1).

Definition lval (n : nat) (s : jsstr) : Z :=
  val s * 2 ^ Z.of_nat (n - length s).

Lemma read_Some c : read (Some c) = bit_of c.
Proof. unfold read, bit_of. repeat case_bool_decide; congruence. Qed.

Lemma lval_full s : lval (length s) s = val s.
Proof. unfold lval. rewrite Nat.sub_diag. simpl. lia. Qed.

Lemma lval_testbit (n : nat) (s : jsstr) (i : nat) :
  (length s ≤ n)%nat → (i < n)%nat →
  Z.testbit (lval n s) (Z.of_nat (n - 1 - i)) = read (s !! i).
Proof.
  intros Hn Hi. unfold lval. rewrite Z.mul_pow2_bits by lia.
  destruct (s !! i) as [c|] eqn:Hc.
  - apply lookup_lt_Some in Hc as Hlt.
    rewrite read_Some, <-(val_testbit s i c Hc). f_equal. lia.
  - apply lookup_ge_None in Hc. by rewrite Z.testbit_neg_r by lia.
Qed.

(** ** Strings the loops cannot tell apart

    Two strings read the same when they have one length and the character
    '1' at the same indices.  This is coarser than equality, "2" reads as
    "0", and it is all the loops of [xor], [or] and [and] depend on
    ([UtilsImpl.xor_proper] and the like); every string reads as the
    binary string of its value. *)
Definition same_reading (a b : jsstr) : Prop :=
  length a = length b ∧ ∀ i : nat, read (a !! i) = read (b !! i).

#[global] Instance same_reading_equivalence : Equivalence same_reading.
Proof.
  split.
  - by intros a.
  - intros a b [Hl H]. split; [done|]. intros i. by rewrite H.
  - intros a b c [Hl1 H1] [Hl2 H2]. split; [congruence|].
    intros i. by rewrite H1.
Qed.

#[global] Instance val_proper : Proper (same_reading ==> (=)) val.
Proof.
  intros a b [Hl H]. apply Z.bits_inj'. intros j Hj.
  destruct (decide (j < Z.of_nat (length a))) as [Hlt|Hge].
  - assert (∃ i : nat, j = Z.of_nat (length a - 1 - i) ∧ (i < length a)%nat)
      as (i & -> & Hi)
      by (exists (Z.to_nat (Z.of_nat (length a) - 1 - j)); split; lia).
    rewrite <-(lval_full a), <-(lval_full b), <-Hl, !lval_testbit by lia.
    apply H.
  - by rewrite !(Z_bounded_testbit _ (Z.of_nat (length a)))
      by (lia || apply val_bound || (rewrite Hl; apply val_bound)).
Qed.

Lemma reading_enc_val (a : jsstr) : same_reading a (enc (length a) (val a)).
Proof.
  split; [by rewrite enc_length|]. intros i. rewrite <-(lval_full a).
  destruct (decide (i < length a)%nat).
  - rewrite enc_lookup by done. rewrite lval_testbit by lia.
    by destruct (read _).
  - by rewrite !lookup_ge_None_2 by (rewrite ?enc_length; lia).
Qed.
