(* ===== verification/Utils.v ===== *)
(** * The [Utils] object of src/javascript/main.js

    [Utils] is built by an immediately-invoked function (lines 5-184) that
    defines eight functions and returns them as the properties of one
    object (lines 174-183); [Main] reaches them only through that object.

    - [Utils.Ops] is the shape of the object: one field per property.
    - [Utils.Laws] is the contract [Main] relies on: on binary strings the
      operations are the word operations of the same name, through the
      codec of [Bits].
    - [UtilsImpl] holds the function bodies, under the names the source gives
      them, and [UtilsImpl.exports] the object built from them.
    - The lemmas of [UtilsImpl] prove the behaviour of each body, and
      [UtilsImpl.exports_laws] that the object meets the contract.

    Loops: each [for (i = 0; i < w1.length || i < w2.length; i++)] that
    pushes one character per index is the image of the index list
    [seq 0 (max (length w1) (length w2))]; [bits1[i]] is the lookup
    [bits1 !! i], [undefined] being [None].  [rotate] recurses on its count,
    as the source does; the count is a natural number (the source does not
    terminate on others).  [binToHex] is the one function that calls a
    helper through the global variable [Utils]: [binToHex_via] takes that
    helper as an argument. *)

From S2P Require Import Prelude JsRuntime Ieee Bits.

(** ** Interface *)

Module Utils.

Class Ops : Type := {
  getStringXTime : jsstr → Z → result jsstr;
  or : jsstr → jsstr → jsstr;
  and : jsstr → jsstr → jsstr;
  not : jsstr → jsstr;
  xor : jsstr → jsstr → jsstr;
  add : jsstr → jsstr → Z → result jsstr;
  rotate : jsstr → nat → jsstr;
  binToHex : jsstr → Z → result jsstr;
}.

(** What the object promises.  [w] is the width of the words; the count of
    [getStringXTime] ranges over the lengths [new Array] accepts.  [add]
    promises the sum up to 52 characters only: it adds doubles, and the
    sum of two words of 53 characters need not be one. *)
Class Laws (U : Ops) : Prop := {
  getStringXTime_spec s n :
    (-1 ≤ n < 2 ^ 32 - 1)%Z →
    getStringXTime s n = Ok (concat (replicate (Z.to_nat n) s));
  getStringXTime_range s n :
    (n < -1 ∨ 2 ^ 32 - 1 ≤ n)%Z → getStringXTime s n = Err RangeError;
  or_spec w a b :
    bits w a → bits w b → or a b = enc w (Z.lor (val a) (val b));
  and_spec w a b :
    bits w a → bits w b → and a b = enc w (Z.land (val a) (val b));
  not_spec w a : bits w a → not a = enc w (Z.lnot (val a));
  xor_spec w a b :
    bits w a → bits w b → xor a b = enc w (Z.lxor (val a) (val b));
  add_spec w a b :
    bits w a → bits w b → 0 < w ≤ 52 →
    add a b (Z.of_nat w) = Ok (enc w (val a + val b));
  rotate_spec w a k : bits w a → rotate a k = enc w (rotl w k (val a));
  binToHex_spec a : bits 32 a → binToHex a 8 = Ok (hex 8 (val a));
}.

End Utils.

(** ** Consequences of the contract

    On encoded integers the operations are homomorphisms: the form in
    which the steps of [Main] use the contract.  The bitwise operations
    and the addition need no bound on the integers, since [enc] reads
    their [w] low bits only. *)

Module UtilsFacts.

Section facts.
Context {U : Utils.Ops} {L : Utils.Laws U}.
Local Open Scope Z_scope.

(** The low bits of a bitwise operation depend on the low bits only. *)
Local Ltac low_bits :=
  apply enc_testbit_ext; intros i Hi;
  rewrite ?val_enc, ?Z.lxor_spec, ?Z.lor_spec, ?Z.land_spec, ?Z.lnot_spec,
    ?testbit_mod_pow2 by lia;
  by rewrite ?bool_decide_eq_true_2 by lia.

Lemma xor_hom w x y : Utils.xor (enc w x) (enc w y) = enc w (Z.lxor x y).
Proof. rewrite (Utils.xor_spec w) by auto with bits. low_bits. Qed.

Lemma or_hom w x y : Utils.or (enc w x) (enc w y) = enc w (Z.lor x y).
Proof. rewrite (Utils.or_spec w) by auto with bits. low_bits. Qed.

Lemma and_hom w x y : Utils.and (enc w x) (enc w y) = enc w (Z.land x y).
Proof. rewrite (Utils.and_spec w) by auto with bits. low_bits. Qed.

Lemma not_hom w x : Utils.not (enc w x) = enc w (Z.lnot x).
Proof. rewrite (Utils.not_spec w) by auto with bits. low_bits. Qed.

Lemma add_hom (w : nat) x y :
  (0 < w ≤ 52)%nat →
  Utils.add (enc w x) (enc w y) (Z.of_nat w) = Ok (enc w (x + y)).
Proof.
  intros Hw. rewrite (Utils.add_spec w) by auto with bits. f_equal.
  apply enc_ext. by rewrite !val_enc, <-Zplus_mod.
Qed.

Lemma rotate_hom w k x :
  word w x → Utils.rotate (enc w x) k = enc w (rotl w k x).
Proof.
  intros Hx. rewrite (Utils.rotate_spec w) by auto with bits.
  by rewrite val_enc_word.
Qed.

Lemma binToHex_hom x : Utils.binToHex (enc 32 x) 8 = Ok (hex 8 x).
Proof.
  rewrite Utils.binToHex_spec by auto with bits. f_equal.
  rewrite val_enc. unfold hex. by rewrite Zmod_mod.
Qed.

(** The instances at the width of the program. *)
Lemma add32 x y : Utils.add (enc 32 x) (enc 32 y) 32 = Ok (enc 32 (x + y)).
Proof. apply (add_hom 32). lia. Qed.

Lemma getStringXTime_zeros_spec n :
  -1 ≤ n < 2 ^ 32 - 1 →
  Utils.getStringXTime [ch0] n = Ok (replicate (Z.to_nat n) ch0).
Proof.
  intros Hn. rewrite Utils.getStringXTime_spec by done. f_equal.
  induction (Z.to_nat n) as [|k IH]; simpl; by f_equal.
Qed.

End facts.

End UtilsFacts.

#[export] Hint Rewrite @UtilsFacts.xor_hom @UtilsFacts.or_hom
  @UtilsFacts.and_hom @UtilsFacts.not_hom : enc.

(** Push the bitwise operations of [Utils] through [enc]; the contract is
    found by instance resolution. *)
Ltac enc_hom := autorewrite with enc; try exact _.

(** ** Implementation *)

Module UtilsImpl.

Definition getStringXTime (str : jsstr) (count : Z) : result jsstr :=
  arr ← new_Array (count + 1); Ok (Array_join str arr).

Definition xor (w1 w2 : jsstr) : jsstr :=
  let bits1 := w1 in
  let bits2 := w2 in
  (λ i, if bool_decide (bits1 !! i ≠ bits2 !! i)
           && (bool_decide (bits1 !! i = Some ch1)
               || bool_decide (bits2 !! i = Some ch1))
        then ch1 else ch0)
  <$> seq 0 (length w1 `max` length w2).

Definition or (w1 w2 : jsstr) : jsstr :=
  let bits1 := w1 in
  let bits2 := w2 in
  (λ i, if bool_decide (bits1 !! i = Some ch1)
           || bool_decide (bits2 !! i = Some ch1)
        then ch1 else ch0)
  <$> seq 0 (length w1 `max` length w2).

Definition and (w1 w2 : jsstr) : jsstr :=
  let bits1 := w1 in
  let bits2 := w2 in
  (λ i, if bool_decide (bits1 !! i = Some ch1)
           && bool_decide (bits2 !! i = Some ch1)
        then ch1 else ch0)
  <$> seq 0 (length w1 `max` length w2).

Definition add (w1 w2 : jsstr) (length : Z) : result jsstr :=
  let decimalResult := num_add (parseInt w1 2) (parseInt w2 2) in
  let binaryResult := Number_toString decimalResult 2 in
  let binaryResult_length := Z.of_nat (List.length binaryResult) in
  if decide (binaryResult_length < length)%Z then
    zeros ← getStringXTime [ch0] (length - binaryResult_length);
    Ok (zeros ++ binaryResult)
  else if decide (length < binaryResult_length)%Z then
    Ok (substr binaryResult (binaryResult_length - length) None)
  else Ok binaryResult.

Definition not (w1 : jsstr) : jsstr :=
  let bits1 := w1 in
  (λ i, if bool_decide (bits1 !! i = Some ch0) then ch1 else ch0)
  <$> seq 0 (length w1).

(** [arr.push(arr.splice(0, 1)[0])] moves the first character to the end;
    on the empty array it pushes [undefined], which [join] prints as the
    empty string. *)
Fixpoint rotate (str : jsstr) (count : nat) : jsstr :=
  match count with
  | O => str
  | S count' =>
      let arr := match str with [] => [] | c :: arr => arr ++ [c] end in
      rotate arr count'
  end.

(** [binToHex] does not call the [getStringXTime] of its closure: line 169
    reads the property of the global variable [Utils], whatever that
    variable holds when [binToHex] is called.  [binToHex_via] is the
    function, with that property as its first argument. *)
Definition binToHex_via (Utils_getStringXTime : jsstr → Z → result jsstr)
    (str : jsstr) (length : Z) : result jsstr :=
  let str := Number_toString (parseInt str 2) 16 in
  if decide (List.length str < 8) then
    zeros ← Utils_getStringXTime [ch0]
               (length - Z.of_nat (List.length str))%Z;
    Ok (zeros ++ str)
  else Ok str.

(** The property of the object the closure returns: the script assigns
    that object to [Utils] before anything calls [binToHex]
    ([Script.good_reachable]), so the global property is the
    [getStringXTime] above. *)
Definition binToHex : jsstr → Z → result jsstr :=
  binToHex_via getStringXTime.

#[global] Instance exports : Utils.Ops := {|
  Utils.getStringXTime := getStringXTime;
  Utils.or := or;
  Utils.and := and;
  Utils.not := not;
  Utils.xor := xor;
  Utils.add := add;
  Utils.rotate := rotate;
  Utils.binToHex := binToHex;
|}.

(** ** [getStringXTime] *)

Lemma getStringXTime_Ok s n :
  (-1 ≤ n < 2 ^ 32 - 1)%Z →
  getStringXTime s n = Ok (concat (replicate (Z.to_nat n) s)).
Proof.
  intros Hn. unfold getStringXTime. rewrite new_Array_Ok by lia. simpl.
  f_equal. destruct (decide (n = -1)%Z) as [->|]; [done|].
  replace (Z.to_nat (n + 1)) with (S (Z.to_nat n)) by lia.
  apply Array_join_holes.
Qed.

Lemma getStringXTime_Err s n :
  (n < -1 ∨ 2 ^ 32 - 1 ≤ n)%Z → getStringXTime s n = Err RangeError.
Proof.
  intros Hn. unfold getStringXTime. by rewrite new_Array_Err by lia.
Qed.

Lemma getStringXTime_zeros n :
  (-1 ≤ n < 2 ^ 32 - 1)%Z →
  getStringXTime [ch0] n = Ok (replicate (Z.to_nat n) ch0).
Proof.
  intros Hn. rewrite getStringXTime_Ok by done. f_equal.
  induction (Z.to_nat n) as [|k IH]; simpl; by f_equal.
Qed.

(** ** The bitwise operations *)

Section bitwise.
Context (cond : option char → option char → bool).
Context (f : bool → bool → bool) (op : Z → Z → Z).
Context (Hop : ∀ x y i, (0 ≤ i)%Z →
  Z.testbit (op x y) i = f (Z.testbit x i) (Z.testbit y i)).
Context (Hcond : ∀ x y, cond x y = f (read x) (read y)).

(** A loop that writes '1' where [cond] holds of the two characters at an
    index computes [op] on the values of the two strings, aligned on the
    left, when [cond] is [f] on what is read of the characters and [f] is
    [op] bit by bit.  The strings need not be binary nor of one length. *)
Lemma bitwise_read (a b : jsstr) :
  let n := length a `max` length b in
  (λ i, if cond (a !! i) (b !! i) then ch1 else ch0) <$> seq 0 n
  = enc n (op (lval n a) (lval n b)).
Proof.
  intros n. unfold enc. apply list_fmap_ext.
  intros j i Hi%lookup_seq. simpl in Hi.
  by rewrite Hcond, Hop, !lval_testbit by lia.
Qed.

(** On two strings of [w] characters the values are those of the
    strings. *)
Lemma bitwise_enc w a b :
  length a = w → length b = w →
  (λ i, if cond (a !! i) (b !! i) then ch1 else ch0)
    <$> seq 0 (length a `max` length b)
  = enc w (op (val a) (val b)).
Proof.
  intros Ha Hb. rewrite bitwise_read. cbv zeta. unfold lval.
  by rewrite Ha, Hb, Nat.max_id, Nat.sub_diag, !Z.mul_1_r.
Qed.

(** Whatever the strings, the loop yields a binary string as long as the
    longer of the two. *)
Lemma bitwise_bits (a b : jsstr) :
  bits (length a `max` length b)
    ((λ i, if cond (a !! i) (b !! i) then ch1 else ch0)
       <$> seq 0 (length a `max` length b)).
Proof.
  split; [by len|]. apply Forall_fmap, Forall_forall. intros i _. simpl.
  destruct (cond _ _); auto with bits.
Qed.

(** The loop depends on its arguments through what is read of them. *)
Lemma bitwise_same_reading (a a' b b' : jsstr) :
  same_reading a a' → same_reading b b' →
  (λ i, if cond (a !! i) (b !! i) then ch1 else ch0)
    <$> seq 0 (length a `max` length b)
  = (λ i, if cond (a' !! i) (b' !! i) then ch1 else ch0)
    <$> seq 0 (length a' `max` length b').
Proof.
  intros [Hla Ha] [Hlb Hb]. rewrite Hla, Hlb. apply list_fmap_ext.
  intros j i _. by rewrite !Hcond, Ha, Hb.
Qed.

End bitwise.

(** The tests of the three loops, and what they are on the characters
    read. *)
Definition xor_test (x y : option char) : bool :=
  bool_decide (x ≠ y)
  && (bool_decide (x = Some ch1) || bool_decide (y = Some ch1)).

Definition or_test (x y : option char) : bool :=
  bool_decide (x = Some ch1) || bool_decide (y = Some ch1).

Definition and_test (x y : option char) : bool :=
  bool_decide (x = Some ch1) && bool_decide (y = Some ch1).

Lemma xor_test_read x y : xor_test x y = xorb (read x) (read y).
Proof. unfold xor_test, read. by repeat case_bool_decide; simplify_eq/=. Qed.

Lemma or_test_read x y : or_test x y = orb (read x) (read y).
Proof. done. Qed.

Lemma and_test_read x y : and_test x y = andb (read x) (read y).
Proof. done. Qed.

Lemma xor_read (a b : jsstr) :
  let n := length a `max` length b in
  xor a b = enc n (Z.lxor (lval n a) (lval n b)).
Proof.
  apply (bitwise_read xor_test xorb Z.lxor); [|apply xor_test_read].
  intros. apply Z.lxor_spec.
Qed.

Lemma or_read (a b : jsstr) :
  let n := length a `max` length b in
  or a b = enc n (Z.lor (lval n a) (lval n b)).
Proof.
  apply (bitwise_read or_test orb Z.lor); [|apply or_test_read].
  intros. apply Z.lor_spec.
Qed.

Lemma and_read (a b : jsstr) :
  let n := length a `max` length b in
  and a b = enc n (Z.land (lval n a) (lval n b)).
Proof.
  apply (bitwise_read and_test andb Z.land); [|apply and_test_read].
  intros. apply Z.land_spec.
Qed.

Lemma xor_enc w a b :
  bits w a → bits w b → xor a b = enc w (Z.lxor (val a) (val b)).
Proof.
  intros [Ha _] [Hb _].
  apply (bitwise_enc xor_test xorb Z.lxor); [|apply xor_test_read|done..].
  intros. apply Z.lxor_spec.
Qed.

Lemma or_enc w a b :
  bits w a → bits w b → or a b = enc w (Z.lor (val a) (val b)).
Proof.
  intros [Ha _] [Hb _].
  apply (bitwise_enc or_test orb Z.lor); [|apply or_test_read|done..].
  intros. apply Z.lor_spec.
Qed.

Lemma and_enc w a b :
  bits w a → bits w b → and a b = enc w (Z.land (val a) (val b)).
Proof.
  intros [Ha _] [Hb _].
  apply (bitwise_enc and_test andb Z.land); [|apply and_test_read|done..].
  intros. apply Z.land_spec.
Qed.

Lemma not_enc w a : bits w a → not a = enc w (Z.lnot (val a)).
Proof.
  intros [Ha Hbin]. unfold not, enc. rewrite Ha.
  apply list_fmap_ext. intros j i Hi%lookup_seq. simpl in Hi.
  destruct (lookup_lt_is_Some_2 a i) as [c Hc]; [lia|].
  rewrite Hc, Z.lnot_spec by lia. rewrite <-Ha, (val_testbit a i c) by done.
  destruct (Forall_lookup_1 _ _ _ _ Hbin Hc) as [-> | ->]; done.
Qed.

Lemma xor_bits (a b : jsstr) : bits (length a `max` length b) (xor a b).
Proof.
  exact (bitwise_bits xor_test a b).
Qed.

Lemma or_bits (a b : jsstr) : bits (length a `max` length b) (or a b).
Proof.
  exact (bitwise_bits or_test a b).
Qed.

Lemma and_bits (a b : jsstr) : bits (length a `max` length b) (and a b).
Proof.
  exact (bitwise_bits and_test a b).
Qed.

Lemma not_bits (a : jsstr) : bits (length a) (not a).
Proof.
  split; [unfold not; by len|]. apply Forall_fmap, Forall_forall.
  intros i _. simpl. case_bool_decide; auto with bits.
Qed.

(** [xor], [or] and [and] respect [same_reading], so a string may be
    replaced under them by any string that reads the same, in particular
    by the binary string of its value. *)
#[global] Instance xor_proper :
  Proper (same_reading ==> same_reading ==> (=)) xor.
Proof.
  intros a a' Ha b b' Hb.
  by apply (bitwise_same_reading xor_test xorb xor_test_read).
Qed.

#[global] Instance or_proper :
  Proper (same_reading ==> same_reading ==> (=)) or.
Proof.
  intros a a' Ha b b' Hb.
  by apply (bitwise_same_reading or_test orb or_test_read).
Qed.

#[global] Instance and_proper :
  Proper (same_reading ==> same_reading ==> (=)) and.
Proof.
  intros a a' Ha b b' Hb.
  by apply (bitwise_same_reading and_test andb and_test_read).
Qed.

Lemma xor_normal (a b : jsstr) :
  xor a b = xor (enc (length a) (val a)) (enc (length b) (val b)).
Proof. by rewrite <-!reading_enc_val. Qed.

(** [not] tests for '0' where the three others test for '1': it tells
    apart strings that read the same. *)
Example not_improper :
  same_reading (str "2") (str "0") ∧ not (str "2") ≠ not (str "0").
Proof. split; [|done]. split; [done|]. by intros [|[|i]]. Qed.

(** ** [add] *)

(** Lines 105 to 112: whatever integer the addition of line 102 yields,
    its binary numeral is padded with zeros or cut on the left to the
    [w] low bits of that integer. *)
Lemma add_of_sum (w : nat) (w1 w2 : jsstr) (n : N) :
  num_add (parseInt w1 2) (parseInt w2 2) = Num n → (Z.of_nat w < 2 ^ 32)%Z →
  add w1 w2 (Z.of_nat w) = Ok (enc w (Z.of_N n)).
Proof.
  intros Hsum Hw. unfold add. rewrite Hsum.
  destruct (Number_toString_fixed 2 n) as (k & -> & Hup & _); [done|].
  cbv zeta. rewrite fixed_digits_length. repeat case_decide.
  - rewrite getStringXTime_zeros by lia. cbn [mbind result_bind]. f_equal.
    rewrite fixed_digits_pad, enc_fixed_digits by done. f_equal. lia.
  - f_equal. replace (Z.of_nat (S k) - Z.of_nat w)%Z
      with (Z.of_nat (S k - w)) by lia.
    rewrite substr_suffix.
    replace (fixed_digits (S k) 2 n)
      with (fixed_digits ((S k - w) + w) 2 n) by (f_equal; lia).
    rewrite fixed_digits_drop, enc_fixed_digits by done.
    rewrite N2Z.inj_mod, N2Z.inj_pow, nat_N_Z. apply enc_mod.
  - f_equal. rewrite enc_fixed_digits. f_equal. lia.
Qed.

(** Line 102 on two binary strings: the double nearest to the sum of the
    doubles nearest to the two values. *)
Lemma add_sum_round wa wb (a b : jsstr) :
  bits wa a → bits wb b → 0 < wa → 0 < wb →
  num_add (parseInt a 2) (parseInt b 2)
  = num_add (Number_of_N (Z.to_N (val a))) (Number_of_N (Z.to_N (val b))).
Proof.
  intros Ha Hb Hwa Hwb.
  by rewrite (parseInt_bits_round wa a), (parseInt_bits_round wb b).
Qed.

(** Up to 52 characters the values and their sum are doubles. *)
Lemma add_enc w a b wa wb :
  bits wa a → bits wb b → 0 < wa ≤ 52 → 0 < wb ≤ 52 →
  (Z.of_nat w < 2 ^ 32)%Z →
  add a b (Z.of_nat w) = Ok (enc w (val a + val b)).
Proof.
  intros Ha Hb Hwa Hwb Hw.
  pose proof (val_bits_bound wa a Ha). pose proof (val_bits_bound wb b Hb).
  pose proof (Z.pow_le_mono_r 2 (Z.of_nat wa) 52).
  pose proof (Z.pow_le_mono_r 2 (Z.of_nat wb) 52).
  rewrite (add_of_sum w a b (Z.to_N (val a) + Z.to_N (val b)));
    [do 2 f_equal; lia | | done].
  rewrite (add_sum_round wa wb), !Number_of_N_exact by (done || lia).
  apply Number_of_N_exact. lia.
Qed.

(** On binary strings of any length: the low bits of the rounded sum. *)
Lemma add_bits_round (w wa wb : nat) (a b : jsstr) (n : N) :
  bits wa a → bits wb b → 0 < wa → 0 < wb → (Z.of_nat w < 2 ^ 32)%Z →
  num_add (Number_of_N (Z.to_N (val a))) (Number_of_N (Z.to_N (val b)))
  = Num n →
  add a b (Z.of_nat w) = Ok (enc w (Z.of_N n)).
Proof.
  intros Ha Hb Hwa Hwb Hw Hn. apply add_of_sum; [|done].
  by rewrite (add_sum_round wa wb).
Qed.

(** A second argument that does not start with a binary digit makes the
    sum NaN, whose numeral "NaN" is padded like any other. *)
Lemma add_NaN (w1 w2 : jsstr) :
  parseInt w2 2 = NaN →
  @Utils.add exports w1 w2 32 = Ok (replicate 29 ch0 ++ str "NaN").
Proof.
  intros Hw2. cbn [Utils.add exports]. unfold add. rewrite Hw2.
  destruct (parseInt w1 2); vm_compute; reflexivity.
Qed.

(** Lines 105 to 112 bring any numeral, "NaN" and "Infinity" included, to
    the requested length: zeros in front, or the last characters only. *)
Lemma add_length (w1 w2 : jsstr) (w : nat) :
  (Z.of_nat w < 2 ^ 32)%Z →
  ∃ s, add w1 w2 (Z.of_nat w) = Ok s ∧ length s = w.
Proof.
  intros Hw. unfold add. cbv zeta.
  pose proof (Number_toString_nonempty
                (num_add (parseInt w1 2) (parseInt w2 2)) 2 ltac:(done)) as Hr.
  revert Hr.
  generalize (Number_toString (num_add (parseInt w1 2) (parseInt w2 2)) 2).
  intros r Hr. repeat case_decide.
  - rewrite getStringXTime_zeros by lia. cbn [mbind result_bind].
    eexists. split; [done|]. len.
  - eexists. split; [done|].
    replace (Z.of_nat (length r) - Z.of_nat w)%Z
      with (Z.of_nat (length r - w)) by lia.
    rewrite substr_suffix. len.
  - eexists. split; [done|]. lia.
Qed.

(** ** [rotate] *)

Lemma rotate_step_lookup c (s : jsstr) i :
  i < S (length s) →
  (s ++ [c]) !! i = (c :: s) !! ((i + 1) mod S (length s)).
Proof.
  intros Hi. destruct (decide (i = length s)) as [->|].
  - replace (length s + 1) with (S (length s)) by lia.
    rewrite Nat.Div0.mod_same. simpl.
    rewrite lookup_app_r, Nat.sub_diag by done. done.
  - rewrite Nat.mod_small, lookup_app_l by lia.
    by replace (i + 1) with (S i) by lia.
Qed.

(** The recursion of the source is the rotation of the character list. *)
Lemma rotate_list s k : rotate s k = list.rotate k s.
Proof.
  revert s. induction k as [|k IH]; intros s.
  - simpl. unfold list.rotate. by rewrite Nat.Div0.mod_0_l, drop_0, app_nil_r.
  - simpl. rewrite IH. destruct s as [|c s].
    { unfold list.rotate. by rewrite !drop_nil, !take_nil. }
    apply list_eq_same_length with (S (length s));
      [by rewrite length_rotate|by rewrite length_rotate; len; simpl; lia|].
    intros i x y Hi Hx Hy.
    rewrite lookup_rotate_r in Hx by (len; simpl; lia).
    rewrite lookup_rotate_r in Hy by (simpl; lia).
    rewrite length_app in Hx. simpl length in *.
    replace (length s + 1) with (S (length s)) in Hx by lia.
    rewrite rotate_step_lookup in Hx by (apply rotate_nat_add_lt; lia).
    replace ((rotate_nat_add k i (S (length s)) + 1) mod S (length s))
      with (rotate_nat_add (S k) i (S (length s))) in Hx; [congruence|].
    unfold rotate_nat_add. apply Nat2Z.inj.
    rewrite Nat2Z.inj_mod, Nat2Z.inj_add, !Z2Nat.id
      by (apply Z.mod_pos_bound; lia).
    rewrite Zplus_mod_idemp_l. f_equal. lia.
Qed.

Lemma rotate_enc w a k :
  bits w a → rotate a k = enc w (rotl w k (val a)).
Proof. intros Ha. by rewrite rotate_list, enc_rotl. Qed.

(** ** [binToHex] *)

(** [binToHex] on a binary string of at most 53 characters, for every
    requested length.  The guard of line 168 compares the width of the
    numeral with 8: a numeral of eight digits or more is returned as it
    is, a shorter one is padded to the requested length, if
    [getStringXTime] accepts the difference. *)
Lemma binToHex_any (w : nat) a (len : Z) :
  bits w a → 0 < w ≤ 53 →
  binToHex a len
  = if decide (8 ≤ hex_width (val a))
    then Ok (hex (hex_width (val a)) (val a))
    else if decide (Z.of_nat (hex_width (val a)) - 1 ≤ len
                    < Z.of_nat (hex_width (val a)) + 2 ^ 32 - 1)%Z
    then Ok (hex (hex_width (val a) `max` Z.to_nat len) (val a))
    else Err RangeError.
Proof.
  intros Ha Hw. pose proof (val_bits_bound w a Ha) as [Hv _].
  unfold binToHex, binToHex_via. cbv zeta.
  rewrite (parseInt_bits w a) by done.
  destruct (toString16_hex (Z.to_N (val a))) as [-> Hup].
  rewrite Z2N.id, hex_length in * by done.
  revert Hup. generalize (hex_width (val a)). intros k Hup.
  repeat case_decide; try lia;
    [|by rewrite getStringXTime_Err by lia|done].
  rewrite getStringXTime_zeros by lia. cbn [mbind result_bind].
  rewrite hex_pad by lia. do 2 f_equal. lia.
Qed.

Lemma binToHex_hex a : bits 32 a → binToHex a 8 = Ok (hex 8 (val a)).
Proof.
  intros Ha. rewrite (binToHex_any 32) by (done || lia).
  pose proof (hex_width_le 8 (val a) (val_bits_bound 32 a Ha)).
  repeat case_decide; try lia; do 2 f_equal; lia.
Qed.

(** ** The object meets the contract *)

#[global] Instance exports_laws : Utils.Laws exports.
Proof.
  split; simpl.
  - apply getStringXTime_Ok.
  - apply getStringXTime_Err.
  - apply or_enc.
  - apply and_enc.
  - apply not_enc.
  - apply xor_enc.
  - intros w a b Ha Hb Hw. apply add_enc with w w; (done || lia).
  - apply rotate_enc.
  - apply binToHex_hex.
Qed.

(** ** What the functions compute *)

Local Open Scope Z_scope.

(** C9: [add] on two binary strings of [w] characters, [w] from 1 to 52,
    returns a binary string of [w] characters whose value is the sum of
    the two values modulo 2^w: the carry out of the word is dropped, never
    an error.  Up to 52 characters the two values and their sum are below
    2^53, where the Numbers of JavaScript are exact. *)
Theorem add_wraps (w : nat) a b :
  bits w a → bits w b → (0 < w ≤ 52)%nat →
  ∃ s, add a b (Z.of_nat w) = Ok s ∧ bits w s
       ∧ val s = (val a + val b) mod 2 ^ Z.of_nat w.
Proof.
  intros Ha Hb Hw. eexists. split; [apply add_enc with w w; (done || lia)|].
  split; [apply enc_bits | apply val_enc].
Qed.

Lemma add_wraps_witness :
  ∃ s, add (str "1010") (str "1001") (Z.of_nat 4) = Ok s ∧ bits 4 s
       ∧ val s = (val (str "1010") + val (str "1001")) mod 2 ^ Z.of_nat 4.
Proof. apply add_wraps; [vm_decide | vm_decide | lia]. Defined.

(** C10: [rotate] by [k] on a binary string of [w] characters is the
    left rotation by [k] bits of the [w]-bit word it stands for. *)
Theorem rotate_rotl (w k : nat) a :
  bits w a → bits w (rotate a k) ∧ val (rotate a k) = rotl w k (val a).
Proof.
  intros Ha. rewrite (rotate_enc w) by done.
  split; [apply enc_bits | apply val_enc_word, word_rotl].
Qed.

Lemma rotate_rotl_witness :
  bits 4 (rotate (str "1001") 1)
  ∧ val (rotate (str "1001") 1) = rotl 4 1 (val (str "1001")).
Proof. apply rotate_rotl. vm_decide. Defined.

(** What [not] computes on a word. *)
Lemma not_val (w : nat) a :
  bits w a → val (not a) = 2 ^ Z.of_nat w - 1 - val a.
Proof.
  intros Ha. pose proof (val_bits_bound w a Ha).
  rewrite (not_enc w), val_enc by done.
  pose proof (Z.add_lnot_diag (val a)).
  symmetry. apply Z.mod_unique with (-1); lia.
Qed.

(** C14: on binary strings of [w] characters the four bitwise functions
    return binary strings of [w] characters, whose values are the bitwise
    exclusive or, inclusive or and conjunction of the values of the
    arguments and, for [not], the one's complement 2^w - 1 - x. *)
Theorem bitwise_correct (w : nat) a b :
  bits w a → bits w b →
  (bits w (xor a b) ∧ val (xor a b) = Z.lxor (val a) (val b))
  ∧ (bits w (or a b) ∧ val (or a b) = Z.lor (val a) (val b))
  ∧ (bits w (and a b) ∧ val (and a b) = Z.land (val a) (val b))
  ∧ (bits w (not a) ∧ val (not a) = 2 ^ Z.of_nat w - 1 - val a).
Proof.
  intros Ha Hb. rewrite (xor_enc w), (or_enc w), (and_enc w) by done.
  pose proof (not_bits a) as Hn. rewrite (bits_length w a) in Hn by done.
  split_and!; try apply enc_bits; try (apply val_enc_word; auto with bits);
    [done | by apply not_val].
Qed.

Lemma bitwise_correct_witness :
  (bits 4 (xor (str "0101") (str "0011"))
   ∧ val (xor (str "0101") (str "0011"))
     = Z.lxor (val (str "0101")) (val (str "0011")))
  ∧ (bits 4 (or (str "0101") (str "0011"))
     ∧ val (or (str "0101") (str "0011"))
       = Z.lor (val (str "0101")) (val (str "0011")))
  ∧ (bits 4 (and (str "0101") (str "0011"))
     ∧ val (and (str "0101") (str "0011"))
       = Z.land (val (str "0101")) (val (str "0011")))
  ∧ (bits 4 (not (str "0101"))
     ∧ val (not (str "0101")) = 2 ^ Z.of_nat 4 - 1 - val (str "0101")).
Proof. apply bitwise_correct; vm_decide. Defined.

(** C15: the loops of [xor], [or] and [and] do not check their
    arguments.  On any two strings, of any characters and lengths, the
    result is binary and as long as the longer argument; a character other
    than '1' is read as 0, and the shorter string as if it had zeros on
    its right, so that its value is aligned on the left ([lval]). *)
Theorem bitwise_any_strings (a b : jsstr) :
  let n := (length a `max` length b)%nat in
  xor a b = enc n (Z.lxor (lval n a) (lval n b))
  ∧ or a b = enc n (Z.lor (lval n a) (lval n b))
  ∧ and a b = enc n (Z.land (lval n a) (lval n b)).
Proof. split; [apply xor_read | split; [apply or_read | apply and_read]]. Qed.

(** C18: [binToHex] of a word of 32 binary characters, asked for eight
    characters, returns exactly eight hexadecimal characters, and reading
    them back with [parseInt(s, 16)] gives the value of the word. *)
Theorem binToHex_word a :
  bits 32 a →
  ∃ s, binToHex a 8 = Ok s ∧ length s = 8%nat ∧ Forall is_hex_char s
       ∧ parseInt s 16 = Num (Z.to_N (val a)).
Proof.
  intros Ha. pose proof (val_bits_bound 32 a Ha).
  eexists. split; [by apply binToHex_hex|]. split; [by len|].
  split; [apply hex_chars|]. rewrite parseInt_hex by lia.
  by rewrite Z.mod_small.
Qed.

Lemma binToHex_word_witness :
  ∃ s, binToHex (enc 32 0x98BADCFE) 8 = Ok s ∧ length s = 8%nat
       ∧ Forall is_hex_char s
       ∧ parseInt s 16 = Num (Z.to_N (val (enc 32 0x98BADCFE))).
Proof. apply binToHex_word. vm_decide. Defined.

(** C19: [getStringXTime] returns the string repeated [count] times for
    every count from 0 to 2^32 - 2, the empty string for -1, and throws a
    RangeError exactly when the count is below -1 or from 2^32 - 1 on:
    then [count + 1] is no array length. *)
Theorem getStringXTime_total s n :
  (getStringXTime s n = Err RangeError ↔ n < -1 ∨ 2 ^ 32 - 1 ≤ n)
  ∧ (getStringXTime s n = Ok (concat (replicate (Z.to_nat n) s))
     ↔ -1 ≤ n < 2 ^ 32 - 1).
Proof.
  destruct (decide (-1 ≤ n < 2 ^ 32 - 1)) as [Hn|Hn].
  - rewrite getStringXTime_Ok by done. split; split; intros; (done || lia).
  - rewrite getStringXTime_Err by lia. split; split; intros; (done || lia).
Qed.

(** C20: 52 is the largest width at which [add] is the addition modulo
    2^w.  From 53 characters on the sum of two words need not be a double:
    2^52 + 1 plus 2^52 is 2^53 + 1, which the addition of line 102 rounds
    to 2^53, so that [add] returns the word of 2^53 and not that of the
    sum. *)
Theorem add_rounds (w : nat) :
  (53 ≤ w)%nat → Z.of_nat w < 2 ^ 32 →
  ∃ s, add (enc w (2 ^ 52 + 1)) (enc w (2 ^ 52)) (Z.of_nat w) = Ok s
       ∧ val s = 2 ^ 53 mod 2 ^ Z.of_nat w
       ∧ val s ≠ (val (enc w (2 ^ 52 + 1)) + val (enc w (2 ^ 52)))
                 mod 2 ^ Z.of_nat w.
Proof.
  intros Hw Hr. pose proof (Z.pow_le_mono_r 2 53 (Z.of_nat w)) as Hp.
  assert (val (enc w (2 ^ 52 + 1)) = 2 ^ 52 + 1) as Ha
    by (apply val_enc_word; split; lia).
  assert (val (enc w (2 ^ 52)) = 2 ^ 52) as Hb
    by (apply val_enc_word; split; lia).
  exists (enc w (Z.of_N (2 ^ 53))). split.
  - apply add_bits_round with w w; auto with bits; try lia.
    by rewrite Ha, Hb.
  - rewrite val_enc, Ha, Hb. split; [done|].
    change (Z.of_N (2 ^ 53)) with (2 ^ 53).
    destruct (decide (w = 53%nat)) as [->|]; [done|].
    pose proof (Z.pow_le_mono_r 2 54 (Z.of_nat w)).
    rewrite !Z.mod_small; lia.
Qed.

Lemma add_rounds_witness :
  ∃ s, add (enc 64 (2 ^ 52 + 1)) (enc 64 (2 ^ 52)) (Z.of_nat 64) = Ok s
       ∧ val s = 2 ^ 53 mod 2 ^ Z.of_nat 64
       ∧ val s ≠ (val (enc 64 (2 ^ 52 + 1)) + val (enc 64 (2 ^ 52)))
                 mod 2 ^ Z.of_nat 64.
Proof. apply add_rounds; [lia | reflexivity]. Defined.

(** C33: what [binToHex] returns for every requested length, on every
    binary string of at most 53 characters (the strings [parseInt] reads
    exactly).  Let k be the number of digits of the shortest hexadecimal
    numeral of the value.  The guard of line 168 compares k with the
    constant 8, not with the requested length: when k is 8 or more the
    numeral is returned as it is whatever the length asked for, so that a
    request for 16 characters gets 8 to 14; when k is below 8 the numeral
    is padded with zeros to the requested length, it is returned as it is
    when it has one character more than requested, and a shorter request,
    or one past the array lengths, throws a RangeError. *)
Theorem binToHex_guard (w : nat) (a : jsstr) (len : Z) :
  bits w a → (0 < w ≤ 53)%nat →
  binToHex a len
  = if decide (8 ≤ hex_width (val a))%nat
    then Ok (hex (hex_width (val a)) (val a))
    else if decide (Z.of_nat (hex_width (val a)) - 1 ≤ len
                    < Z.of_nat (hex_width (val a)) + 2 ^ 32 - 1)
    then Ok (hex (hex_width (val a) `max` Z.to_nat len) (val a))
    else Err RangeError.
Proof. apply binToHex_any. Qed.

(** Asked for 16 characters, a numeral of nine is returned as it is;
    asked for 4, a numeral of six makes the count of [getStringXTime] -2
    and the call throws. *)
Lemma binToHex_guard_witness :
  binToHex (ch1 :: replicate 32 ch0) 16 = Ok (str "100000000")
  ∧ binToHex (replicate 24 ch1) 4 = Err RangeError.
Proof.
  split; [rewrite (binToHex_guard 33) | rewrite (binToHex_guard 24)];
    first [vm_decide | lia].
Defined.

(** C29: [add] cannot throw and returns exactly the requested number of
    characters, whatever the two strings, for every length from 0 to
    2^32 - 1: the numeral of the sum, "NaN" and "Infinity" included, is
    padded with zeros or cut on the left.  When the sum is a number the
    result is the binary string of its low bits. *)
Theorem add_total (w1 w2 : jsstr) (w : nat) :
  Z.of_nat w < 2 ^ 32 →
  ∃ s, add w1 w2 (Z.of_nat w) = Ok s ∧ length s = w
       ∧ ∀ n, num_add (parseInt w1 2) (parseInt w2 2) = Num n →
              s = enc w (Z.of_N n).
Proof.
  intros Hw. destruct (add_length w1 w2 w Hw) as (s & Hs & Hlen).
  exists s. split_and!; [done..|]. intros n Hn.
  rewrite (add_of_sum w w1 w2 n Hn Hw) in Hs. by injection Hs.
Qed.

Lemma add_total_witness :
  ∃ s, add (str "101") (str "zz") (Z.of_nat 5) = Ok s ∧ length s = 5%nat
       ∧ ∀ n, num_add (parseInt (str "101") 2) (parseInt (str "zz") 2)
              = Num n → s = enc 5 (Z.of_N n).
Proof. apply add_total. reflexivity. Defined.

(** C16: what [add] returns on binary strings of any lengths is fixed by
    IEEE 754: when the binary64 sum of the binary64 numbers nearest to the
    two values is the integer [n], [add] returns the [w] low bits of [n].
    The conversion and the sum are those of the Standard Library's
    specification of floating-point arithmetic. *)
Theorem add_binary64 (w wa wb : nat) (a b : jsstr) (n : N) :
  bits wa a → bits wb b → (0 < wa)%nat → (0 < wb)%nat →
  Z.of_nat w < 2 ^ 32 → double n →
  Ieee.binary64_add (Ieee.binary64_of_Z (val a)) (Ieee.binary64_of_Z (val b))
  = Ieee.SF_of (Num n) →
  add a b (Z.of_nat w) = Ok (enc w (Z.of_N n)).
Proof.
  intros Ha Hb Hwa Hwb Hw Hn Hsum. apply add_bits_round with wa wb; try done.
  apply Ieee.SF_of_inj; [apply Ieee.num_add_representable | done |].
  rewrite Ieee.num_add_binary64 by apply Ieee.Number_of_N_representable.
  by rewrite !Ieee.Number_of_N_binary64, !Z2N.id by apply val_bound.
Qed.

Lemma add_binary64_witness :
  add (enc 64 (2 ^ 52 + 1)) (enc 64 (2 ^ 52)) (Z.of_nat 64)
  = Ok (enc 64 (Z.of_N (2 ^ 53))).
Proof.
  apply (add_binary64 64 64 64); [vm_decide | vm_decide | lia | lia | done
                                 | vm_decide | vm_compute; reflexivity].
Defined.

(** Every [@example] of the comments of [Utils] evaluates as documented;
    the example of [add] is documented under the name [and]. *)
Example utils_examples :
  getStringXTime (str "0") 3 = Ok (str "000")
  ∧ xor (str "0101") (str "0011") = str "0110"
  ∧ or (str "0101") (str "0011") = str "0111"
  ∧ and (str "0101") (str "0011") = str "0001"
  ∧ add (str "1010") (str "1001") 4 = Ok (str "0011")
  ∧ not (str "0101") = str "1010"
  ∧ rotate (str "abc") 1 = str "bca"
  ∧ rotate (str "abc") 2 = str "cab".
Proof. repeat split; vm_compute; reflexivity. Qed.

End UtilsImpl.
