(* ===== verification/Main.v ===== *)
(** * [Main.sha1] of src/javascript/main.js

    The function [sha1] (lines 199-378) is fourteen numbered steps, each
    bound to a variable named after the step; every step is one definition
    here, under the name of its variable, and [sha1] composes them in the
    order of the source.  The definitions are parametric in the [Utils]
    object ([Utils.Ops]): the source reaches [Utils] through a global
    variable.

    - The input is a string, a list of code units; [step1_split] gives its
      characters and [step2_to_ascii_code] their codes.
    - A [while (str.length > 0)] loop that consumes [str] by [substr] is
      [substr_loop], with fuel; [S (length str)] is enough because every
      iteration on a non-empty string removes a character.
    - The loop [for (j = 16; words.length < 80; j++)] of step 11 is
      [expand_loop], with fuel 81: every iteration pushes one word.  The
      step mutates the arrays of step 10 in place; nothing reads them
      afterwards, so the model returns the new arrays.
    - [words[j]] is a lookup; passing [undefined] to [Utils.xor] throws a
      TypeError ([undefined.split]), passing it to [Utils.add] does not
      ([parseInt] converts it to the string "undefined").
    - The five variables [h0] to [h4] that the callback of [forEach]
      updates are the record [hstate], threaded through [foldlM]; the
      working variables [a] to [e] of a block are an [hstate] too. *)

From S2P Require Import Prelude JsRuntime Bits Utils.

Module Main.

Record hstate : Type := HState {
  h0 : jsstr;
  h1 : jsstr;
  h2 : jsstr;
  h3 : jsstr;
  h4 : jsstr;
}.

Section sha1.
Context {U : Utils.Ops}.

(** Step 1: [str.split("")]. *)
Definition step1_split (str : jsstr) : list char := str.

(** Step 2: [c.charCodeAt(0)] of every character. *)
Definition step2_to_ascii_code (step1_split : list char) : list jsnum :=
  (λ c, Num c) <$> step1_split.

(** Step 3: [c.toString(2)]. *)
Definition step3_ascii_binary (step2_to_ascii_code : list jsnum)
    : list jsstr :=
  (λ c, Number_toString c 2) <$> step2_to_ascii_code.

(** Step 4: zeros in front of the numerals shorter than 8. *)
Definition step4_ascii_binary_8_length (step3_ascii_binary : list jsstr)
    : result (list jsstr) :=
  mapM (λ c : jsstr,
    if decide (length c < 8) then
      zeros ← Utils.getStringXTime [ch0] (8 - Z.of_nat (length c));
      Ok (zeros ++ c)
    else Ok c) step3_ascii_binary.

(** Step 5: [join("")]. *)
Definition step5_combine_str (step4_ascii_binary_8_length : list jsstr)
    : jsstr :=
  concat step4_ascii_binary_8_length.

(** Step 6: a '1' at the end. *)
Definition step6_append_1 (step5_combine_str : jsstr) : jsstr :=
  step5_combine_str ++ [ch1].

(** Step 7: zeros until the length is 448 modulo 512. *)
Definition step7_modulo_512_is_448 (str : jsstr) : result jsstr :=
  let currentModulo := length str mod 512 in
  if decide (currentModulo < 448) then
    zeros ← Utils.getStringXTime [ch0] (448 - Z.of_nat currentModulo);
    Ok (str ++ zeros)
  else if decide (448 < currentModulo) then
    zeros ← Utils.getStringXTime [ch0] (512 - Z.of_nat currentModulo + 448);
    Ok (str ++ zeros)
  else Ok str.

(** The variable [step5BinaryLength] of step 8, as a function of
    [step5.length]: the length in binary, with zeros in front up to 64
    characters. *)
Definition step5BinaryLength (step5_length : N) : result jsstr :=
  let step5BinaryLength := Number_toString (Num step5_length) 2 in
  zeros ← Utils.getStringXTime [ch0]
             (64 - Z.of_nat (length step5BinaryLength));
  Ok (zeros ++ step5BinaryLength).

(** Step 8: the length of step 5 in binary, on 64 characters. *)
Definition step8_append_step5_length (str step5 : jsstr) : result jsstr :=
  step5BinaryLength ← step5BinaryLength (N.of_nat (length step5));
  Ok (str ++ step5BinaryLength).

(** [while (str.length > 0) { chunks.push(str.substr(0, size));
    str = str.substr(size); }] *)
Fixpoint substr_loop (fuel : nat) (size : nat) (str : jsstr)
    (chunks : list jsstr) : result (list jsstr) :=
  match fuel with
  | O => Err OutOfFuel
  | S fuel' =>
      if decide (0 < length str) then
        substr_loop fuel' size (substr str (Z.of_nat size) None)
          (chunks ++ [substr str 0 (Some (Z.of_nat size))])
      else Ok chunks
  end.

(** Step 9: chunks of 512 characters. *)
Definition step9_split_512b_chunks (str : jsstr) : result (list jsstr) :=
  substr_loop (S (length str)) 512 str [].

(** Step 10: every chunk as words of 32 characters. *)
Definition step10_split_32b_words (step9_split_512b_chunks : list jsstr)
    : result (list (list jsstr)) :=
  mapM (λ chunk, substr_loop (S (length chunk)) 32 chunk [])
       step9_split_512b_chunks.

(** An argument of [Utils.xor] read from [words]. *)
Definition word_at (words : list jsstr) (j : nat) : result jsstr :=
  match words !! j with
  | Some w => Ok w
  | None => Err TypeError
  end.

(** [for (var j = 16; words.length < 80; j++) { ...; words.push(tmp); }] *)
Fixpoint expand_loop (fuel : nat) (j : nat) (words : list jsstr)
    : result (list jsstr) :=
  match fuel with
  | O => Err OutOfFuel
  | S fuel' =>
      if decide (length words < 80) then
        w3 ← word_at words (j - 3);
        w8 ← word_at words (j - 8);
        let tmp := Utils.xor w3 w8 in
        w14 ← word_at words (j - 14);
        let tmp := Utils.xor tmp w14 in
        w16 ← word_at words (j - 16);
        let tmp := Utils.xor tmp w16 in
        let tmp := Utils.rotate tmp 1 in
        expand_loop fuel' (S j) (words ++ [tmp])
      else Ok words
  end.

(** Step 11: 80 words per chunk. *)
Definition step11_80_words_per_chunk (chunks : list (list jsstr))
    : result (list (list jsstr)) :=
  mapM (expand_loop 81 16) chunks.

(** Step 12: the initial value of [h0] to [h4]. *)
Definition step12_init : hstate := {|
  h0 := str "01100111010001010010001100000001";
  h1 := str "11101111110011011010101110001001";
  h2 := str "10011000101110101101110011111110";
  h3 := str "00010000001100100101010001110110";
  h4 := str "11000011110100101110000111110000";
|}.

(** The function [f] and the constant [k] of round [i]. *)
Definition round_f_k (i : nat) (b c d : jsstr) : jsstr * jsstr :=
  if decide (i < 20) then
    (Utils.or (Utils.and b c) (Utils.and (Utils.not b) d),
     str "01011010100000100111100110011001")
  else if decide (i < 40) then
    (Utils.xor (Utils.xor b c) d,
     str "01101110110110011110101110100001")
  else if decide (i < 60) then
    (Utils.xor (Utils.xor (Utils.and b c) (Utils.and b d)) (Utils.and c d),
     str "10001111000110111011110011011100")
  else
    (Utils.xor (Utils.xor b c) d,
     str "11001010011000101100000111010110").

(** The body of [for (var i = 0; i < 80; i++)]. *)
Definition round (words : list jsstr) (r : hstate) (i : nat)
    : result hstate :=
  let '(HState a b c d e) := r in
  let '(f, k) := round_f_k i b c d in
  let tmp := Utils.rotate a 5 in
  tmp ← Utils.add tmp f 32;
  tmp ← Utils.add tmp e 32;
  tmp ← Utils.add tmp k 32;
  tmp ← Utils.add tmp (ToString (words !! i)) 32;
  let e := d in
  let d := c in
  let c := Utils.rotate b 30 in
  let b := a in
  let a := tmp in
  Ok (HState a b c d e).

(** The callback of [forEach]: one chunk folded into [h0] to [h4]. *)
Definition process_chunk (h : hstate) (words : list jsstr) : result hstate :=
  r ← foldlM (round words) h (seq 0 80);
  let '(HState a b c d e) := r in
  h0' ← Utils.add (h0 h) a 32;
  h1' ← Utils.add (h1 h) b 32;
  h2' ← Utils.add (h2 h) c 32;
  h3' ← Utils.add (h3 h) d 32;
  h4' ← Utils.add (h4 h) e 32;
  Ok (HState h0' h1' h2' h3' h4').

(** Step 13: every chunk in order. *)
Definition step13_process (chunks : list (list jsstr)) : result hstate :=
  foldlM process_chunk step12_init chunks.

(** Step 14: the five words in hexadecimal. *)
Definition step14_finalize (h : hstate) : result jsstr :=
  x0 ← Utils.binToHex (h0 h) 8;
  x1 ← Utils.binToHex (h1 h) 8;
  x2 ← Utils.binToHex (h2 h) 8;
  x3 ← Utils.binToHex (h3 h) 8;
  x4 ← Utils.binToHex (h4 h) 8;
  Ok (x0 ++ x1 ++ x2 ++ x3 ++ x4).

Definition sha1 (str : jsstr) : result jsstr :=
  let step1 := step1_split str in
  let step2 := step2_to_ascii_code step1 in
  let step3 := step3_ascii_binary step2 in
  step4 ← step4_ascii_binary_8_length step3;
  let step5 := step5_combine_str step4 in
  let step6 := step6_append_1 step5 in
  step7 ← step7_modulo_512_is_448 step6;
  step8 ← step8_append_step5_length step7 step5;
  step9 ← step9_split_512b_chunks step8;
  step10 ← step10_split_32b_words step9;
  step11 ← step11_80_words_per_chunk step10;
  h ← step13_process step11;
  step14_finalize h.

(** The prefixes of [sha1] the theorems speak of: the bit string of the
    message (steps 1 to 5), the padded message (steps 1 to 8), the words of
    every chunk (steps 1 to 11). *)
Definition message_bits (str : jsstr) : result jsstr :=
  step4 ← step4_ascii_binary_8_length
             (step3_ascii_binary (step2_to_ascii_code (step1_split str)));
  Ok (step5_combine_str step4).

Definition padded (str : jsstr) : result jsstr :=
  step5 ← message_bits str;
  step7 ← step7_modulo_512_is_448 (step6_append_1 step5);
  step8_append_step5_length step7 step5.

Definition schedules (str : jsstr) : result (list (list jsstr)) :=
  step8 ← padded str;
  step9 ← step9_split_512b_chunks step8;
  step10 ← step10_split_32b_words step9;
  step11_80_words_per_chunk step10.

End sha1.

End Main.
