(* ===== verification/Padder.v ===== *)
(** * Steps 1 to 8 of [Main.sha1]: the padded message

    The steps turn the input string into a string of '0' and '1': eight
    characters per code unit (steps 1 to 5), a '1' (step 6), zeros up to
    448 modulo 512 (step 7) and the length of step 5 on 64 characters
    (step 8).  Against the contract of [Utils]:

    - step 4 pads every numeral of step 3 to eight characters and cannot
      fail; a code unit below 256 becomes its eight bits, a larger one keeps
      its longer numeral;
    - step 7 appends [zero_count] zeros and cannot fail;
    - step 8 appends the length on 64 characters and cannot fail: the
      length of a string is below 2^53, and the lemmas hold up to 2^64;
    - the padded message of a string of code units ([is_code_unit], at
      most 16 characters each in [unit_bits]) is binary and its length is a
      positive multiple of 512; on bytes ([is_byte]) the bit string is
      [byte_bits], eight characters each. *)

From S2P Require Import Prelude JsRuntime Bits Utils Main.

Module Padder.

(** A code unit that is a byte. *)
Definition is_byte (c : char) : Prop := (c < 256)%N.

#[global] Instance is_byte_dec c : Decision (is_byte c).
Proof. unfold is_byte. apply _. Defined.

(** A UTF-16 code unit: what [charCodeAt] returns. *)
Definition is_code_unit (c : char) : Prop := (c < 65536)%N.

#[global] Instance is_code_unit_dec c : Decision (is_code_unit c).
Proof. unfold is_code_unit. apply _. Defined.

(** What step 4 does to one numeral of step 3. *)
Definition pad8 (s : jsstr) : jsstr := replicate (8 - length s) ch0 ++ s.

(** The bit string steps 1 to 5 build. *)
Definition unit_bits (msg : jsstr) : jsstr :=
  concat ((λ c, pad8 (Number_toString (Num c) 2)) <$> msg).

(** The bit string of a message of bytes. *)
Definition byte_bits (msg : jsstr) : jsstr :=
  concat ((λ c, enc 8 (Z.of_N c)) <$> msg).

(** The number of zeros step 7 appends to a string of [len] characters. *)
Definition zero_count (len : nat) : nat :=
  let m := len mod 512 in
  if decide (m < 448) then 448 - m
  else if decide (448 < m) then 512 - m + 448
  else 0.

Lemma byte_bits_length msg : length (byte_bits msg) = 8 * length msg.
Proof.
  unfold byte_bits. induction msg as [|c msg IH]; [done|].
  rewrite fmap_cons. cbn [concat]. len.
Qed.

Lemma byte_bits_bin msg : is_bin (byte_bits msg).
Proof.
  unfold byte_bits. apply Forall_concat, Forall_fmap, Forall_forall.
  intros c _. apply enc_bits.
Qed.

Lemma zero_count_spec len : (len + zero_count len) mod 512 = 448.
Proof.
  unfold zero_count. pose proof (Nat.mod_upper_bound len 512 ltac:(done)).
  pose proof (Nat.div_mod_eq len 512) as Hlen. revert Hlen.
  generalize dependent (len mod 512). generalize (len / 512).
  intros q m Hm ->. repeat case_decide.
  - replace (512 * q + m + (448 - m)) with (448 + q * 512) by lia.
    by rewrite Nat.Div0.mod_add.
  - replace (512 * q + m + (512 - m + 448)) with (448 + (q + 1) * 512) by lia.
    by rewrite Nat.Div0.mod_add.
  - replace (512 * q + m + 0) with (448 + q * 512) by lia.
    by rewrite Nat.Div0.mod_add.
Qed.

(** The eight characters of a byte. *)
Lemma pad8_byte (c : char) :
  is_byte c → pad8 (Number_toString (Num c) 2) = enc 8 (Z.of_N c).
Proof. intros Hc. apply (toString2_enc 8 c); [lia | exact Hc]. Qed.

(** A code unit from 256 on keeps its numeral, longer than eight. *)
Lemma pad8_wide (c : char) :
  ¬ is_byte c →
  pad8 (Number_toString (Num c) 2) = Number_toString (Num c) 2
  ∧ 8 < length (Number_toString (Num c) 2).
Proof.
  intros Hc. assert (8 < length (Number_toString (Num c) 2)) as Hlen.
  { apply toString2_long. unfold is_byte in Hc. simpl. lia. }
  split; [|done]. unfold pad8. by replace (8 - _) with 0 by lia.
Qed.

(** A code unit from 2^15 on has sixteen digits, which are those of its
    two bytes. *)
Lemma pad8_two_bytes (hi lo : char) :
  (128 ≤ hi < 256)%N → (lo < 256)%N →
  pad8 (Number_toString (Num (hi * 256 + lo)) 2)
  = enc 8 (Z.of_N hi) ++ enc 8 (Z.of_N lo).
Proof.
  intros Hhi Hlo. set (c := (hi * 256 + lo)%N).
  destruct (toString2_enc 16 c) as [Hle Henc]; [lia|simpl; lia|].
  pose proof (toString2_long 15 c ltac:(simpl; lia)) as Hlong.
  unfold pad8. revert Henc.
  replace (length (Number_toString (Num c) 2)) with 16 by lia.
  simpl replicate. simpl app at 1 2. intros ->.
  rewrite (enc_app 8 8). f_equal.
  - f_equal. subst c. rewrite N2Z.inj_add, N2Z.inj_mul.
    change (2 ^ Z.of_nat 8)%Z with 256%Z.
    rewrite Z.div_add_l, Z.div_small by lia. lia.
  - apply enc_ext. subst c. rewrite N2Z.inj_add, N2Z.inj_mul.
    change (2 ^ Z.of_nat 8)%Z with 256%Z.
    by rewrite Z.add_comm, Z.mod_add by lia.
Qed.

(** The one code unit and the two bytes give the same bit string. *)
Lemma unit_bits_two_bytes (hi lo : char) :
  (128 ≤ hi < 256)%N → (lo < 256)%N →
  unit_bits [(hi * 256 + lo)%N] = unit_bits [hi; lo].
Proof.
  intros Hhi Hlo. unfold unit_bits. cbn [fmap list_fmap concat].
  rewrite pad8_two_bytes, !pad8_byte by (done || unfold is_byte; lia).
  by rewrite <-app_assoc.
Qed.

(** Whatever the code units, the bit string is binary, with at most 16
    characters per code unit. *)
Lemma unit_bits_bin msg : is_bin (unit_bits msg).
Proof.
  apply Forall_concat, Forall_fmap, Forall_forall. intros c _.
  apply Forall_app. split; [apply Forall_replicate; by left|].
  apply toString2_bin.
Qed.

Lemma unit_bits_length msg :
  Forall is_code_unit msg → length (unit_bits msg) ≤ 16 * length msg.
Proof.
  unfold unit_bits. induction 1 as [|c msg Hc _ IH]; [done|].
  rewrite fmap_cons. cbn [concat]. rewrite length_app. unfold pad8 at 1.
  destruct (toString2_enc 16 c) as [Hle _]; [lia|exact Hc|].
  rewrite length_app, length_replicate, length_cons. lia.
Qed.

Lemma unit_bits_bytes msg : Forall is_byte msg → unit_bits msg = byte_bits msg.
Proof.
  intros Hmsg. unfold unit_bits, byte_bits. f_equal.
  apply Forall_fmap_ext_1. eapply Forall_impl; [done|]. apply pad8_byte.
Qed.

Lemma zero_count_lt len : zero_count len < 512.
Proof.
  unfold zero_count. cbv zeta.
  pose proof (Nat.mod_upper_bound len 512 ltac:(done)).
  repeat case_decide; lia.
Qed.

(** The number of chunks of a message of [len] bits: the least number of
    times 512 that holds the message, its '1' and its length field. *)
Definition chunk_total (len : nat) : nat := (len + 64) / 512 + 1.

(** The length of a bit string with its '1', its zeros and its length
    field is that number of chunks. *)
Lemma padded_length (len : nat) :
  len + 1 + zero_count (len + 1) + 64 = chunk_total len * 512.
Proof.
  pose proof (zero_count_spec (len + 1)) as Hz.
  pose proof (zero_count_lt (len + 1)) as Hlt.
  pose proof (Nat.div_mod_eq (len + 1 + zero_count (len + 1)) 512) as Hd.
  rewrite Hz in Hd. revert Hd Hlt. generalize (zero_count (len + 1)).
  intros z. generalize ((len + 1 + z) / 512). intros q Hd Hlt.
  unfold chunk_total.
  rewrite <-(Nat.div_unique (len + 64) 512 q (511 - z)) by lia. lia.
Qed.

Section padder.
Context {U : Utils.Ops} {L : Utils.Laws U}.

Lemma step4_pad8 (numerals : list jsstr) :
  Main.step4_ascii_binary_8_length numerals = Ok (pad8 <$> numerals).
Proof.
  apply mapM_Ok_ext, Forall_forall. intros s _. unfold pad8. case_decide.
  - rewrite UtilsFacts.getStringXTime_zeros_spec by lia.
    cbn [mbind result_bind]. do 3 f_equal. lia.
  - by replace (8 - length s) with 0 by lia.
Qed.

(** Steps 1 to 5 cannot fail. *)
Lemma message_bits_pad8 (msg : jsstr) :
  Main.message_bits msg = Ok (unit_bits msg).
Proof.
  unfold Main.message_bits, Main.step5_combine_str, Main.step3_ascii_binary,
    Main.step2_to_ascii_code, Main.step1_split, unit_bits.
  rewrite step4_pad8. cbn [mbind result_bind].
  by rewrite <-!list_fmap_compose.
Qed.

Lemma message_bits_bytes (msg : jsstr) :
  Forall is_byte msg → Main.message_bits msg = Ok (byte_bits msg).
Proof. intros Hmsg. by rewrite message_bits_pad8, unit_bits_bytes. Qed.

Lemma step7_zeros (str : jsstr) :
  Main.step7_modulo_512_is_448 str
  = Ok (str ++ replicate (zero_count (length str)) ch0).
Proof.
  unfold Main.step7_modulo_512_is_448, zero_count. cbv zeta.
  pose proof (Nat.mod_upper_bound (length str) 512 ltac:(done)).
  repeat case_decide;
    rewrite ?UtilsFacts.getStringXTime_zeros_spec by lia;
    cbn [mbind result_bind]; [| |by rewrite app_nil_r];
    do 3 f_equal; lia.
Qed.

(** The length field of a length that fits 64 bits: its binary numeral
    behind zeros, 64 characters. *)
Lemma step5BinaryLength_enc (n : N) :
  (n < 2 ^ 64)%N → Main.step5BinaryLength n = Ok (enc 64 (Z.of_N n)).
Proof.
  intros Hn. unfold Main.step5BinaryLength. cbv zeta.
  destruct (toString2_enc 64 n) as [Hle Henc]; [lia|done|].
  rewrite UtilsFacts.getStringXTime_zeros_spec by lia.
  cbn [mbind result_bind]. rewrite <-Henc. do 3 f_equal. lia.
Qed.

(** Step 8 on a length that fits 64 bits. *)
Lemma step8_length (str step5 : jsstr) :
  (Z.of_nat (length step5) < 2 ^ 64)%Z →
  Main.step8_append_step5_length str step5
  = Ok (str ++ enc 64 (Z.of_nat (length step5))).
Proof.
  intros Hlen. unfold Main.step8_append_step5_length.
  rewrite step5BinaryLength_enc by lia.
  cbn [mbind result_bind]. by rewrite nat_N_Z.
Qed.

(** Steps 1 to 8 on any string whose bit string has a length that fits 64
    bits. *)
Lemma padded_bits (msg : jsstr) :
  (Z.of_nat (length (unit_bits msg)) < 2 ^ 64)%Z →
  Main.padded msg
  = Ok (unit_bits msg ++ [ch1]
          ++ replicate (zero_count (length (unit_bits msg) + 1)) ch0
          ++ enc 64 (Z.of_nat (length (unit_bits msg)))).
Proof.
  intros Hlen. unfold Main.padded, Main.step6_append_1.
  rewrite message_bits_pad8. cbn [mbind result_bind].
  rewrite step7_zeros. cbn [mbind result_bind].
  rewrite step8_length by done.
  by rewrite length_app, <-!app_assoc.
Qed.

(** The padded message is binary, and has [chunk_total] times 512
    characters. *)
Lemma padded_bits_count (msg : jsstr) :
  (Z.of_nat (length (unit_bits msg)) < 2 ^ 64)%Z →
  ∃ str, Main.padded msg = Ok str
         ∧ bits (chunk_total (length (unit_bits msg)) * 512) str.
Proof.
  intros Hlen. pose proof (padded_length (length (unit_bits msg))) as Hk.
  eexists. split; [by apply padded_bits|]. split.
  - len.
  - unfold is_bin. rewrite !Forall_app. split; [apply unit_bits_bin|].
    split; [by apply Forall_singleton; right|].
    split; [apply Forall_replicate; by left | apply enc_bits].
Qed.

Lemma padded_bits_shape (msg : jsstr) :
  (Z.of_nat (length (unit_bits msg)) < 2 ^ 64)%Z →
  ∃ str k, Main.padded msg = Ok str ∧ bits (k * 512) str ∧ 0 < k.
Proof.
  intros Hlen. destruct (padded_bits_count msg Hlen) as (p & Hp & Hk).
  exists p, (chunk_total (length (unit_bits msg))).
  unfold chunk_total in *. split; [done|]. split; [done|lia].
Qed.

(** Steps 1 to 8 on a message of bytes. *)
Lemma padded_bytes (msg : jsstr) :
  Forall is_byte msg → (Z.of_nat (length msg) < 2 ^ 61)%Z →
  Main.padded msg
  = Ok (byte_bits msg ++ [ch1]
          ++ replicate (zero_count (8 * length msg + 1)) ch0
          ++ enc 64 (8 * Z.of_nat (length msg))).
Proof.
  intros Hmsg Hlen. rewrite padded_bits;
    rewrite unit_bits_bytes, byte_bits_length by done; [|lia].
  do 5 f_equal. lia.
Qed.

(** On code units, at most 16 bits each. *)
Lemma padded_units_shape (msg : jsstr) :
  Forall is_code_unit msg → (Z.of_nat (length msg) < 2 ^ 60)%Z →
  ∃ str k, Main.padded msg = Ok str ∧ bits (k * 512) str ∧ 0 < k.
Proof.
  intros Hmsg Hlen. apply padded_bits_shape.
  pose proof (unit_bits_length msg Hmsg). lia.
Qed.

(** On bytes the number of chunks follows from the number of bytes: one
    chunk up to 55 bytes, two from 56 to 119, and so on. *)
Lemma padded_bytes_count (msg : jsstr) :
  Forall is_byte msg → (Z.of_nat (length msg) < 2 ^ 61)%Z →
  ∃ str, Main.padded msg = Ok str
         ∧ bits (((length msg + 8) / 64 + 1) * 512) str.
Proof.
  intros Hmsg Hlen. destruct (padded_bits_count msg) as (p & Hp & Hk).
  { rewrite unit_bits_bytes, byte_bits_length by done. lia. }
  exists p. split; [done|]. revert Hk. unfold chunk_total.
  rewrite unit_bits_bytes, byte_bits_length by done.
  replace (8 * length msg + 64) with ((length msg + 8) * 8) by lia.
  by rewrite (Nat.Div0.div_mul_cancel_r _ 64 8) by done.
Qed.

End padder.

(** ** The program

    From here on the [Utils] object is the one the file builds,
    [UtilsImpl.exports]. *)

(** C13: steps 1 to 8 cannot fail on a string of UTF-16 code units
    shorter than 2^60 characters, and the padded message is a string of
    '0' and '1' whose length is a positive multiple of 512, so that step 9
    cuts it into whole chunks. *)
Theorem padded_multiple_512 (msg : jsstr) :
  Forall is_code_unit msg → (Z.of_nat (length msg) < 2 ^ 60)%Z →
  ∃ str k, Main.padded (U := UtilsImpl.exports) msg = Ok str
           ∧ bits (k * 512) str ∧ 0 < k.
Proof. apply padded_units_shape. Qed.

Lemma padded_multiple_512_witness :
  ∃ s k, Main.padded (U := UtilsImpl.exports) (str "abc") = Ok s
         ∧ bits (k * 512) s ∧ 0 < k.
Proof. apply padded_multiple_512; [vm_decide | reflexivity]. Defined.

(** C27: the padding boundary.  The padded message of a string of [n]
    bytes has exactly (n + 8) / 64 + 1 chunks of 512 characters: one
    chunk up to 55 bytes, two from 56 bytes on, when the '1' and the
    length field no longer fit the chunk of the last byte. *)
Theorem padded_chunk_count (msg : jsstr) :
  Forall is_byte msg → (Z.of_nat (length msg) < 2 ^ 61)%Z →
  ∃ str, Main.padded (U := UtilsImpl.exports) msg = Ok str
         ∧ bits (((length msg + 8) / 64 + 1) * 512) str.
Proof. apply padded_bytes_count. Qed.

Lemma padded_chunk_count_witness :
  ∃ s, Main.padded (U := UtilsImpl.exports) (replicate 56 97%N) = Ok s
       ∧ bits (((length (replicate 56 97%N) + 8) / 64 + 1) * 512) s.
Proof. apply padded_chunk_count; [vm_decide | reflexivity]. Defined.

(** Step 7 on its own cannot fail, whatever the string: it returns the
    string followed by zeros only, and the length of the result is 448
    modulo 512. *)
Lemma step7_length_448 (s : jsstr) :
  ∃ out, Main.step7_modulo_512_is_448 (U := UtilsImpl.exports) s = Ok out
         ∧ length out mod 512 = 448
         ∧ take (length s) out = s
         ∧ Forall (λ c, c = ch0) (drop (length s) out).
Proof.
  eexists. split; [apply step7_zeros|]. split; [|split].
  - rewrite length_app, length_replicate. apply zero_count_spec.
  - by rewrite take_app_length.
  - rewrite drop_app_length. by apply Forall_replicate.
Qed.

(** A code unit from 256 on is not reduced to a byte: steps 1 to 5 give
    it more than eight characters, and the bit string is no longer the
    concatenation of bytes. *)
Lemma wide_code_unit (c : char) :
  ¬ is_byte c →
  ∃ s, Main.message_bits (U := UtilsImpl.exports) [c] = Ok s ∧ 8 < length s.
Proof.
  intros Hc. eexists. split; [apply message_bits_pad8|].
  destruct (pad8_wide c Hc) as [Heq Hlen].
  change (8 < length (pad8 (Number_toString (Num c) 2) ++ [])).
  by rewrite Heq, app_nil_r.
Qed.

End Padder.
