(* ===== verification/Sha1Spec.v ===== *)
(** * The specification: SHA-1 on bytes and 32-bit words

    What spec.md asks of an implementation (sections 4.1 to 4.5 and 6),
    written on integers: bytes and words are [Z] within their width, the
    bitwise operations are those of [Z], additions are reduced modulo 2^32.
    Nothing here is translated from the source; the program is proved
    against these definitions.

    - [Spec.pad]: the byte 0x80, zero bytes up to 56 modulo 64 and the bit
      length as eight big-endian bytes; a length beyond 2^64 wraps.
    - [Spec.split]: blocks of sixteen big-endian words; [None] when the
      length is not a multiple of 64.
    - [Spec.expand]: the 80-word schedule of a block.
    - [Spec.compress]: the 80 rounds and the final addition.
    - [Spec.finalize]: the twenty bytes of the five words.
    - [Spec.sha1]: their composition from [Spec.initial_state].
    - [Spec.bit_sha1]: the digest of a message of bits, as FIPS 180
      defines it, of which [Spec.sha1] is the case of whole bytes.

    The definitions evaluate to the published digests of "abc" and of the
    five bits 1 0 0 1 1 ([Spec.sha1_abc], [Spec.bit_sha1_five_bits]). *)

From S2P Require Import Prelude JsRuntime Bits.

Module Spec.

Local Open Scope Z_scope.

Definition wrap (z : Z) : Z := z mod 2 ^ 32.

Definition rotate_left (n : nat) (x : Z) : Z := rotl 32 n x.

(** The [n] big-endian bytes of [z], and the number of a byte list. *)
Definition be_bytes (n : nat) (z : Z) : list Z :=
  (λ i, (z / 256 ^ Z.of_nat (n - 1 - i)) mod 256) <$> seq 0 n.

Definition be_word (bytes : list Z) : Z :=
  foldl (λ acc b, acc * 256 + b) 0 bytes.

(** 4.1 Padder *)
Definition pad (message : list Z) : list Z :=
  let len := Z.of_nat (length message) in
  message ++ [128] ++ replicate (Z.to_nat ((55 - len) mod 64)) 0
          ++ be_bytes 8 ((8 * len) mod 2 ^ 64).

(** 4.2 Block Splitter *)
Definition split (padded : list Z) : option (list (list Z)) :=
  if decide (length padded mod 64 = 0)%nat then
    Some ((λ block, be_word <$> chunks 4 block) <$> chunks 64 padded)
  else None.

(** 4.3 Schedule Expander *)
Definition next_word (w : list Z) : Z :=
  let t := length w in
  rotate_left 1
    (Z.lxor (Z.lxor (Z.lxor (w !!! (t - 3)%nat) (w !!! (t - 8)%nat))
                    (w !!! (t - 14)%nat))
            (w !!! (t - 16)%nat)).

Definition extend (n : nat) (w : list Z) : list Z :=
  extend_with next_word n w.

Definition expand (block_words : list Z) : list Z := extend 64 block_words.

(** 4.4 Compressor *)
Definition f (t : nat) (b c d : Z) : Z :=
  if decide (t < 20)%nat then Z.lor (Z.land b c) (Z.land (Z.lnot b) d)
  else if decide (t < 40)%nat then Z.lxor (Z.lxor b c) d
  else if decide (t < 60)%nat then
    Z.lor (Z.lor (Z.land b c) (Z.land b d)) (Z.land c d)
  else Z.lxor (Z.lxor b c) d.

Definition k (t : nat) : Z :=
  if decide (t < 20)%nat then 0x5A827999
  else if decide (t < 40)%nat then 0x6ED9EBA1
  else if decide (t < 60)%nat then 0x8F1BBCDC
  else 0xCA62C1D6.

Record state : Type := State { H0 : Z; H1 : Z; H2 : Z; H3 : Z; H4 : Z }.

Definition round (schedule : list Z) (s : state) (t : nat) : state :=
  let '(State a b c d e) := s in
  let temp :=
    wrap (rotate_left 5 a + f t b c d + e + k t + schedule !!! t) in
  State temp a (rotate_left 30 b) c d.

Definition compress (st : state) (schedule : list Z) : state :=
  let '(State a b c d e) := foldl (round schedule) st (seq 0 80) in
  State (wrap (H0 st + a)) (wrap (H1 st + b)) (wrap (H2 st + c))
        (wrap (H3 st + d)) (wrap (H4 st + e)).

Definition initial_state : state :=
  State 0x67452301 0xEFCDAB89 0x98BADCFE 0x10325476 0xC3D2E1F0.

(** 4.5 Finalizer *)
Definition finalize (st : state) : list Z :=
  be_bytes 4 (H0 st) ++ be_bytes 4 (H1 st) ++ be_bytes 4 (H2 st)
    ++ be_bytes 4 (H3 st) ++ be_bytes 4 (H4 st).

(** 6 The entry point *)
Definition digest_of_blocks (blocks : list (list Z)) : list Z :=
  finalize (foldl (λ st block, compress st (expand block))
                  initial_state blocks).

Definition sha1 (input : list Z) : option (list Z) :=
  blocks ← split (pad input); Some (digest_of_blocks blocks).

(** ** SHA-1 of a string of bits

    FIPS 180 defines the digest of a message of any number of bits: the
    message, a 1 bit, zero bits up to 448 modulo 512 and the number of bits
    of the message on 64 bits; the words are read off the bits 32 at a
    time.  On the bits of a list of bytes this is [sha1]
    ([BitString.bit_sha1_bytes]). *)
Definition be_bits (n : nat) (z : Z) : list bool :=
  (λ i, Z.testbit z (Z.of_nat (n - 1 - i))) <$> seq 0 n.

Definition bits_word (bs : list bool) : Z :=
  foldl (λ acc b, 2 * acc + Z.b2z b) 0 bs.

Definition bit_pad (message : list bool) : list bool :=
  let len := Z.of_nat (length message) in
  message ++ [true] ++ replicate (Z.to_nat ((447 - len) mod 512)) false
          ++ be_bits 64 len.

Definition bit_split (padded : list bool) : list (list Z) :=
  (λ block, bits_word <$> chunks 32 block) <$> chunks 512 padded.

Definition bit_sha1 (message : list bool) : list Z :=
  digest_of_blocks (bit_split (bit_pad message)).

(** The digest as the program prints it: two lower-case hexadecimal
    characters per byte. *)
Definition hex_of_bytes (bytes : list Z) : jsstr :=
  concat (hex 2 <$> bytes).

(** ** Well-formed states *)

Definition word_state (st : state) : Prop :=
  word 32 (H0 st) ∧ word 32 (H1 st) ∧ word 32 (H2 st) ∧ word 32 (H3 st)
  ∧ word 32 (H4 st).

#[global] Instance word_state_dec st : Decision (word_state st).
Proof. unfold word_state. apply _. Defined.

Lemma word_wrap z : word 32 (wrap z).
Proof. apply word_mod. Qed.

Lemma word_rotate_left n x : word 32 (rotate_left n x).
Proof. apply word_rotl. Qed.

#[export] Hint Resolve word_wrap word_rotate_left : bits.

Lemma initial_state_word : word_state initial_state.
Proof. vm_decide. Qed.

(** Split a [word_state] goal into its five words, leaving [word] folded. *)
Ltac split_state := split; [|split; [|split; [|split]]].

Lemma round_word schedule s t : word_state s → word_state (round schedule s t).
Proof.
  destruct s as [a b c d e]. intros (Ha & Hb & Hc & Hd & He).
  split_state; simpl in *; auto with bits.
Qed.

Lemma rounds_word schedule s ts :
  word_state s → word_state (foldl (round schedule) s ts).
Proof.
  revert s. induction ts as [|t ts IH]; intros s Hs; [done|].
  simpl. apply IH. by apply round_word.
Qed.

Lemma compress_word st schedule : word_state (compress st schedule).
Proof.
  unfold compress. destruct (foldl _ _ _).
  split_state; simpl; apply word_wrap.
Qed.

(** ** The schedule *)

Lemma extend_S n w : extend (S n) w = extend n (w ++ [next_word w]).
Proof. done. Qed.

Lemma extend_length n w : length (extend n w) = (length w + n)%nat.
Proof. apply extend_with_length. Qed.

Lemma extend_prefix n w : take (length w) (extend n w) = w.
Proof. apply extend_with_prefix. Qed.

Lemma expand_length w : length w = 16%nat → length (expand w) = 80%nat.
Proof. intros Hw. unfold expand. rewrite extend_length. lia. Qed.

Lemma extend_word n w : Forall (word 32) w → Forall (word 32) (extend n w).
Proof.
  apply extend_with_Forall. intros w' _. apply word_rotate_left.
Qed.

(** The recurrence, read off a schedule: every word from the sixteenth on
    is the rotated exclusive-or of the words 3, 8, 14 and 16 places
    before it. *)
Lemma expand_recurrence w (t : nat) :
  length w = 16%nat → (16 ≤ t < 80)%nat →
  expand w !!! t
  = rotate_left 1
      (Z.lxor (Z.lxor (Z.lxor (expand w !!! (t - 3)%nat)
                              (expand w !!! (t - 8)%nat))
                      (expand w !!! (t - 14)%nat))
              (expand w !!! (t - 16)%nat)).
Proof.
  intros Hlen Ht. unfold expand, extend.
  pose proof (extend_with_length next_word 64 w) as Hl.
  rewrite (list_lookup_total_correct (extend_with next_word 64 w) t _
             (extend_with_lookup next_word 64 w t ltac:(lia))).
  unfold next_word at 1. cbv zeta. rewrite length_take.
  replace (t `min` length (extend_with next_word 64 w))%nat with t by lia.
  by rewrite !lookup_total_take_lt by lia.
Qed.

(** ** Bytes *)

Lemma be_bytes_length n z : length (be_bytes n z) = n.
Proof. unfold be_bytes. by len. Qed.

Lemma finalize_length st : length (finalize st) = 20%nat.
Proof. unfold finalize. rewrite !length_app, !be_bytes_length. done. Qed.

Lemma hex_of_bytes_app l1 l2 :
  hex_of_bytes (l1 ++ l2) = hex_of_bytes l1 ++ hex_of_bytes l2.
Proof. unfold hex_of_bytes. by rewrite fmap_app, concat_app. Qed.

Lemma hex_of_bytes_length bytes :
  length (hex_of_bytes bytes) = (2 * length bytes)%nat.
Proof.
  unfold hex_of_bytes. induction bytes as [|b bs IH]; [done|].
  rewrite fmap_cons. cbn [concat].
  rewrite length_app, hex_length, IH. simpl length. lia.
Qed.

(** ** The published examples

    The definitions give the digests that FIPS 180 prints for "abc" and
    that the NIST examples for messages of bits print for the five bits
    1 0 0 1 1. *)
Example sha1_abc :
  hex_of_bytes <$> sha1 [97; 98; 99]
  = Some (str "a9993e364706816aba3e25717850c26c9cd0d89d").
Proof. vm_compute. reflexivity. Qed.

Example bit_sha1_five_bits :
  hex_of_bytes (bit_sha1 [true; false; false; true; true])
  = str "29826b003b906e660eff4027ce98af3531ac75ba".
Proof. vm_compute. reflexivity. Qed.

End Spec.

#[export] Hint Rewrite Spec.be_bytes_length Spec.extend_length : len.
