(* ===== verification/Bytes.v ===== *)
(** * Bytes and binary strings

    The program works on strings of '0' and '1', the specification on
    bytes and 32-bit words.  [bits_of_bytes] writes a list of bytes as a
    binary string, eight characters per byte; this file relates the two
    views of the padded message and of its blocks:

    - the big-endian bytes of a number are its binary numeral
      ([bits_of_be_bytes]) and the value of the bits of a byte list is its
      big-endian number ([val_bits_of_bytes]);
    - the bits of [Spec.pad] are the message bits, a '1', the zeros
      [Padder.zero_count] counts and the 64-bit length ([pad_bits]);
    - cutting the bits into chunks of 512 and words of 32 characters gives
      the words of [Spec.split] ([split_bits]). *)

From S2P Require Import Prelude JsRuntime Bits Padder Sha1Spec.

Module Bytes.

Local Open Scope Z_scope.

Definition bits_of_bytes (bs : list Z) : jsstr := concat (enc 8 <$> bs).

(** The bytes of a string of code units. *)
Definition bytes_of (msg : jsstr) : list Z := Z.of_N <$> msg.

(** The string of bytes a bit string stands for, eight characters per
    byte: the inverse of steps 1 to 5 on bytes. *)
Definition decode (s : jsstr) : jsstr := (λ w, Z.to_N (val w)) <$> chunks 8 s.

Lemma decode_byte_bits msg :
  Forall Padder.is_byte msg → decode (Padder.byte_bits msg) = msg.
Proof.
  intros Hmsg. unfold decode, Padder.byte_bits.
  rewrite chunks_concat
    by (lia || (apply Forall_fmap, Forall_true; intros c; apply enc_length)).
  apply (fmap_cancel Padder.is_byte); [|done]. intros c Hc.
  unfold Padder.is_byte in Hc. rewrite (enc_small 8) by (simpl; lia). lia.
Qed.

Lemma bytes_of_length msg : length (bytes_of msg) = length msg.
Proof. unfold bytes_of. by len. Qed.

Lemma bytes_of_word msg : Forall Padder.is_byte msg → Forall (word 8) (bytes_of msg).
Proof.
  intros Hmsg. apply Forall_fmap. eapply Forall_impl; [done|].
  intros c Hc. unfold Padder.is_byte in Hc. unfold word. simpl. lia.
Qed.

Lemma bits_of_bytes_of msg : bits_of_bytes (bytes_of msg) = Padder.byte_bits msg.
Proof.
  unfold bits_of_bytes, bytes_of, Padder.byte_bits.
  by rewrite <-list_fmap_compose.
Qed.

Lemma bits_of_bytes_app l1 l2 :
  bits_of_bytes (l1 ++ l2) = bits_of_bytes l1 ++ bits_of_bytes l2.
Proof. unfold bits_of_bytes. by rewrite fmap_app, concat_app. Qed.

Lemma bits_of_bytes_singleton b : bits_of_bytes [b] = enc 8 b.
Proof. unfold bits_of_bytes. cbn [fmap list_fmap concat]. apply app_nil_r. Qed.

Lemma bits_of_bytes_zeros k :
  bits_of_bytes (replicate k 0) = replicate (8 * k) ch0.
Proof.
  induction k as [|k IH]; [done|].
  replace (8 * S k)%nat with (8 + 8 * k)%nat by lia.
  rewrite replicate_add, <-IH. done.
Qed.

(** ** Big-endian numbers *)

Lemma be_bytes_S n z :
  Spec.be_bytes (S n) z = Spec.be_bytes n (z / 256) ++ [z mod 256].
Proof.
  unfold Spec.be_bytes. rewrite seq_S, fmap_app. simpl.
  replace (n - 0 - n)%nat with 0%nat by lia. rewrite Z.div_1_r. f_equal.
  apply list_fmap_ext. intros j i Hi%lookup_seq. simpl in Hi.
  rewrite Z.div_div by lia. rewrite <-Z.pow_succ_r by lia.
  do 3 f_equal. lia.
Qed.

Lemma bits_of_be_bytes n z :
  bits_of_bytes (Spec.be_bytes n z) = enc (8 * n) z.
Proof.
  revert z. induction n as [|n IH]; intros z; [done|].
  rewrite be_bytes_S, bits_of_bytes_app, IH.
  replace (8 * S n)%nat with (8 * n + 8)%nat by lia.
  rewrite enc_app, bits_of_bytes_singleton. f_equal. apply (enc_mod 8).
Qed.

Lemma be_bytes_word n z : Forall (word 8) (Spec.be_bytes n z).
Proof.
  apply Forall_fmap, Forall_forall. intros i _. apply (word_mod 8).
Qed.

Lemma val_bits_of_bytes bs :
  Forall (word 8) bs → val (bits_of_bytes bs) = Spec.be_word bs.
Proof.
  induction bs as [|b bs IH] using rev_ind; intros Hbs; [done|].
  apply Forall_app in Hbs as [Hbs Hb%Forall_inv].
  rewrite bits_of_bytes_app, val_app, IH, bits_of_bytes_singleton by done.
  rewrite enc_length, (val_enc_word 8) by done.
  unfold Spec.be_word. by rewrite foldl_app.
Qed.

(** ** The padded message *)

Lemma zero_count_bytes (len : nat) :
  Padder.zero_count (8 * len + 1)
  = (7 + 8 * Z.to_nat ((55 - Z.of_nat len) mod 64))%nat.
Proof.
  unfold Padder.zero_count. cbv zeta.
  assert ((8 * len + 1) mod 512 = 8 * (len mod 64) + 1)%nat as ->.
  { pose proof (Nat.div_mod_eq len 64).
    pose proof (Nat.mod_upper_bound len 64 ltac:(done)).
    symmetry. apply Nat.mod_unique with (len / 64)%nat; lia. }
  assert ((55 - Z.of_nat len) mod 64
          = (55 - Z.of_nat (len mod 64)%nat) mod 64) as ->.
  { rewrite Nat2Z.inj_mod. by rewrite Zminus_mod_idemp_r. }
  pose proof (Nat.mod_upper_bound len 64 ltac:(done)) as Hr. revert Hr.
  generalize (len mod 64)%nat. intros r Hr.
  destruct (decide (r ≤ 55)%nat).
  - rewrite Z.mod_small by lia. case_cond.
  - replace (55 - Z.of_nat r) with (119 - Z.of_nat r + (-1) * 64) by lia.
    rewrite Z.mod_add, Z.mod_small by lia. case_cond.
Qed.

Lemma pad_bits bs :
  bits_of_bytes (Spec.pad bs)
  = bits_of_bytes bs ++ [ch1]
      ++ replicate (Padder.zero_count (8 * length bs + 1)) ch0
      ++ enc 64 (8 * Z.of_nat (length bs)).
Proof.
  unfold Spec.pad. cbv zeta.
  rewrite !bits_of_bytes_app, bits_of_bytes_zeros, (bits_of_be_bytes 8).
  rewrite zero_count_bytes, replicate_add. rewrite (enc_mod 64).
  by rewrite <-!app_assoc.
Qed.

Lemma pad_word bs : Forall (word 8) bs → Forall (word 8) (Spec.pad bs).
Proof.
  intros Hbs. unfold Spec.pad. cbv zeta. rewrite !Forall_app.
  split; [done|]. split; [by apply Forall_singleton|].
  split; [by apply Forall_replicate | apply be_bytes_word].
Qed.

(** The padded message is a positive number of blocks of 64 bytes. *)
Lemma pad_length bs : ∃ k, length (Spec.pad bs) = (S k * 64)%nat.
Proof.
  pose proof (Padder.zero_count_spec (8 * length bs + 1)) as Hz.
  rewrite zero_count_bytes in Hz. revert Hz.
  set (z := Z.to_nat ((55 - Z.of_nat (length bs)) mod 64)). intros Hz.
  pose proof (Nat.div_mod_eq (8 * length bs + 1 + (7 + 8 * z)) 512) as Hd.
  rewrite Hz in Hd.
  exists ((8 * length bs + 1 + (7 + 8 * z)) / 512)%nat.
  unfold Spec.pad. cbv zeta. fold z. len.
Qed.

Lemma split_pad bs :
  Spec.split (Spec.pad bs)
  = Some ((λ block, Spec.be_word <$> chunks 4 block)
            <$> chunks 64 (Spec.pad bs)).
Proof.
  unfold Spec.split. destruct (pad_length bs) as [k Hk].
  rewrite decide_True; [done|]. rewrite Hk. apply Nat.Div0.mod_mul.
Qed.

(** ** Blocks and words *)

Lemma chunks_bits_of_bytes (k : nat) bs :
  (0 < k)%nat →
  chunks (k * 8) (bits_of_bytes bs) = bits_of_bytes <$> chunks k bs.
Proof.
  intros Hk. unfold bits_of_bytes.
  rewrite chunks_concat_mul by (done || lia || apply enc_list_bits_length).
  by rewrite chunks_fmap, <-list_fmap_compose.
Qed.

(** The words of the chunks of the bit string are the big-endian words of
    the blocks of the bytes. *)
Lemma split_bits bs :
  Forall (word 8) bs →
  fmap (M := list) val <$> (chunks 32 <$> chunks 512 (bits_of_bytes bs))
  = (λ block, Spec.be_word <$> chunks 4 block) <$> chunks 64 bs.
Proof.
  intros Hbs. rewrite (chunks_bits_of_bytes 64) by lia.
  rewrite <-!list_fmap_compose. apply Forall_fmap_ext_1.
  eapply Forall_impl; [by apply (chunks_Forall 64)|].
  intros block Hblock. simpl.
  rewrite (chunks_bits_of_bytes 4), <-list_fmap_compose by lia.
  apply Forall_fmap_ext_1.
  eapply Forall_impl; [by apply (chunks_Forall 4)|].
  intros w Hw. by apply val_bits_of_bytes.
Qed.

End Bytes.
