(* ===== verification/BitString.v ===== *)
(** * Bits and binary strings

    The program never leaves strings of '0' and '1'; FIPS 180 defines
    SHA-1 on messages of bits.  [text] writes a list of bits as such a
    string and [bools] reads one; this file relates the bit-level
    specification ([Spec.bit_sha1]) to the strings of the program and to
    the byte-level specification ([Spec.sha1]):

    - the value of a string is the number of its bits ([val_text]) and the
      binary numeral of a number is the text of its bits ([text_be_bits]);
    - the text of [Spec.bit_pad] is the message, a '1', the zeros
      [Padder.zero_count] counts and the 64-character length
      ([text_bit_pad]): the layout steps 6 to 8 build;
    - the words of the chunks of a text are the blocks of [Spec.bit_split]
      ([bit_split_text]);
    - on the bits of a list of bytes, [Spec.bit_sha1] is [Spec.sha1]
      ([bit_sha1_bytes]). *)

From S2P Require Import Prelude JsRuntime Bits Padder Sha1Spec Bytes.

Module BitString.

Definition text (bs : list bool) : jsstr := char_of <$> bs.

Definition bools (s : jsstr) : list bool := bit_of <$> s.

Lemma text_length bs : length (text bs) = length bs.
Proof. apply length_fmap. Qed.

Lemma bools_length s : length (bools s) = length s.
Proof. apply length_fmap. Qed.

#[export] Hint Rewrite text_length bools_length : len.

Lemma text_app l1 l2 : text (l1 ++ l2) = text l1 ++ text l2.
Proof. apply fmap_app. Qed.

Lemma text_replicate n b : text (replicate n b) = replicate n (char_of b).
Proof. apply fmap_replicate. Qed.

Lemma text_bools s : is_bin s → text (bools s) = s.
Proof. apply (fmap_cancel is_bit), char_of_bit_of. Qed.

Lemma bools_text bs : bools (text bs) = bs.
Proof.
  apply (fmap_cancel (λ _, True)); [intros b _; apply bit_of_char_of|].
  by apply Forall_true.
Qed.

Lemma text_bin bs : is_bin (text bs).
Proof. apply Forall_fmap, Forall_true. intros b. apply is_bit_char_of. Qed.

(** ** Numbers *)

Lemma val_text bs : val (text bs) = Spec.bits_word bs.
Proof.
  unfold val, text, Spec.bits_word. rewrite foldl_fmap.
  apply foldl_ext_Forall, Forall_true. intros b acc.
  by rewrite bit_of_char_of.
Qed.

Lemma text_be_bits n z : text (Spec.be_bits n z) = enc n z.
Proof. unfold text, Spec.be_bits, enc. by rewrite <-list_fmap_compose. Qed.

(** ** The padded message *)

(** The zeros of step 7 after the '1' of step 6 are those of FIPS 180. *)
Lemma zero_count_bits (len : nat) :
  Padder.zero_count (len + 1)
  = Z.to_nat ((447 - Z.of_nat len) mod 512).
Proof.
  pose proof (Padder.zero_count_spec (len + 1)) as Hz.
  pose proof (Padder.zero_count_lt (len + 1)) as Hlt.
  revert Hz Hlt. generalize (Padder.zero_count (len + 1)). intros z Hz Hlt.
  pose proof (Nat.div_mod_eq (len + 1 + z) 512) as Hd. rewrite Hz in Hd.
  apply Nat2Z.inj. rewrite Z2Nat.id by (apply Z.mod_pos; lia).
  apply Z.mod_unique_pos with (- Z.of_nat ((len + 1 + z) / 512))%Z; lia.
Qed.

Lemma text_bit_pad (m : list bool) :
  text (Spec.bit_pad m)
  = text m ++ [ch1]
      ++ replicate (Padder.zero_count (length m + 1)) ch0
      ++ enc 64 (Z.of_nat (length m)).
Proof.
  unfold Spec.bit_pad. cbv zeta.
  by rewrite !text_app, text_replicate, text_be_bits, zero_count_bits.
Qed.

(** ** Blocks and words *)

Lemma bit_split_text (p : list bool) :
  fmap (M := list) val <$> (chunks 32 <$> chunks 512 (text p))
  = Spec.bit_split p.
Proof.
  unfold Spec.bit_split, text. rewrite chunks_fmap, <-!list_fmap_compose.
  apply list_fmap_ext. intros _ block _. simpl.
  rewrite chunks_fmap, <-list_fmap_compose.
  apply list_fmap_ext. intros _ w _. apply val_text.
Qed.

(** ** Bytes

    The bit-level digest of the bits of a list of bytes is the byte-level
    digest: the two specifications agree. *)
Lemma bit_pad_bytes bs :
  text (Spec.bit_pad (bools (Bytes.bits_of_bytes bs)))
  = Bytes.bits_of_bytes (Spec.pad bs).
Proof.
  assert (is_bin (Bytes.bits_of_bytes bs)) as Hbin.
  { apply Forall_concat, Forall_fmap, Forall_true. intros b. apply enc_bits. }
  assert (length (Bytes.bits_of_bytes bs) = 8 * length bs) as Hlen.
  { unfold Bytes.bits_of_bytes.
    rewrite (length_concat_uniform 8) by apply enc_list_bits_length.
    rewrite length_fmap. lia. }
  rewrite text_bit_pad, text_bools, bools_length, Hlen, Bytes.pad_bits by done.
  do 5 f_equal. lia.
Qed.

Lemma bit_sha1_bytes bs :
  Forall (word 8) bs →
  Spec.sha1 bs = Some (Spec.bit_sha1 (bools (Bytes.bits_of_bytes bs))).
Proof.
  intros Hbs. unfold Spec.sha1, Spec.bit_sha1.
  rewrite Bytes.split_pad. cbn [mbind option_bind]. do 2 f_equal.
  rewrite <-bit_split_text, bit_pad_bytes.
  symmetry. by apply Bytes.split_bits, Bytes.pad_word.
Qed.

End BitString.
