(* ===== verification/Splitter.v ===== *)
(** * Steps 9 and 10 of [Main.sha1]: chunks and words

    Both steps run the loop [while (str.length > 0)] that pushes
    [str.substr(0, size)] and continues with [str.substr(size)]
    ([Main.substr_loop]).  The loop terminates within the fuel the steps
    give it and returns [chunks size str], the consecutive pieces of [size]
    characters: so the chunks of step 9 concatenate back to the padded
    message, and a chunk of 512 characters becomes sixteen words of 32. *)

From S2P Require Import Prelude JsRuntime Bits Utils Main.

Module Splitter.

(** A chunk as step 10 leaves it: sixteen words of 32 binary
    characters. *)
Definition chunk (ws : list jsstr) : Prop :=
  length ws = 16 ∧ Forall (bits 32) ws.

#[global] Instance chunk_dec ws : Decision (chunk ws).
Proof. unfold chunk. apply _. Defined.

Lemma substr_loop_chunks fuel size (str : jsstr) acc :
  0 < size → length str < fuel →
  Main.substr_loop fuel size str acc = Ok (acc ++ chunks size str).
Proof.
  intros Hsize. revert str acc.
  induction fuel as [|fuel IH]; intros str acc Hfuel; [lia|].
  simpl. case_decide as Hlen.
  - rewrite substr_suffix, substr_prefix, IH by (rewrite length_drop; lia).
    by rewrite (chunks_step size Hsize str), <-app_assoc.
  - apply Nat.nlt_ge, Nat.le_0_r, nil_length_inv in Hlen as ->.
    by rewrite app_nil_r.
Qed.

(** With no progress ([size = 0]) the source loops forever on a non-empty
    string; the model runs out of any fuel. *)
Lemma substr_loop_diverges fuel (str : jsstr) acc :
  0 < length str → Main.substr_loop fuel 0 str acc = Err OutOfFuel.
Proof.
  revert acc. induction fuel as [|fuel IH]; intros acc Hlen; [done|].
  simpl. case_decide; [|lia]. rewrite substr_suffix, drop_0. by apply IH.
Qed.

Lemma step9_chunks (str : jsstr) :
  Main.step9_split_512b_chunks str = Ok (chunks 512 str).
Proof.
  unfold Main.step9_split_512b_chunks.
  by rewrite substr_loop_chunks by lia.
Qed.

Lemma step10_words (cs : list jsstr) :
  Main.step10_split_32b_words cs = Ok (chunks 32 <$> cs).
Proof.
  unfold Main.step10_split_32b_words. apply mapM_Ok_ext, Forall_forall.
  intros c _. by rewrite substr_loop_chunks by lia.
Qed.

(** A padded message of [k] times 512 characters becomes [k] chunks of
    sixteen words of 32 characters, binary if the message is. *)
Lemma blocks_shape k (str : jsstr) :
  bits (k * 512) str →
  length (chunks 32 <$> chunks 512 str) = k ∧
  Forall chunk (chunks 32 <$> chunks 512 str).
Proof.
  intros [Hlen Hbin]. split.
  { rewrite length_fmap. apply chunks_length; [lia|done]. }
  apply Forall_fmap.
  apply Forall_impl with (λ c, length c = 16 * 32 ∧ is_bin c).
  { apply Forall_and. split; [by eapply chunks_Forall_length; [lia|]|].
    by apply chunks_Forall. }
  intros c [Hclen Hcbin]. split; [apply chunks_length; [lia|done]|].
  apply Forall_and. split; [by eapply chunks_Forall_length; [lia|]|].
  by apply chunks_Forall.
Qed.

(** ** The loops terminate and lose nothing *)

(** C23: the loop [while (str.length > 0)] that consumes [size]
    characters per iteration, [size] positive, returns within any fuel
    above the length of the string; the pieces it returns concatenate back
    to the string, and there is one piece per [size] characters, rounded
    up. *)
Theorem substr_loop_fuel fuel size (s : jsstr) :
  0 < size → length s < fuel →
  ∃ cs, Main.substr_loop fuel size s [] = Ok cs
        ∧ concat cs = s ∧ length cs = chunk_count size (length s).
Proof.
  intros Hsize Hfuel. eexists. split; [by apply substr_loop_chunks|].
  rewrite app_nil_l. split; [by apply concat_chunks|].
  unfold chunks. by rewrite length_reshape, length_replicate.
Qed.

Lemma substr_loop_fuel_witness :
  ∃ cs, Main.substr_loop 6 2 (str "abcde") [] = Ok cs
        ∧ concat cs = str "abcde"
        ∧ length cs = chunk_count 2 (length (str "abcde")).
Proof. apply substr_loop_fuel; vm_decide. Defined.

(** C25: step 9 always returns: whatever the string, its chunks joined
    as step 5 joins strings are the string again, and every chunk has
    between 1 and 512 characters. *)
Theorem step9_roundtrip (s : jsstr) :
  ∃ cs, Main.step9_split_512b_chunks s = Ok cs
        ∧ Main.step5_combine_str cs = s
        ∧ Forall (λ c, 0 < length c ≤ 512) cs.
Proof.
  eexists. split; [apply step9_chunks|].
  split; [apply concat_chunks | apply chunks_Forall_bound]; lia.
Qed.

End Splitter.
