(* ===== verification/Expander.v ===== *)
(** * Step 11 of [Main.sha1]: the 80 words of a chunk

    [Main.expand_loop] is the loop [for (j = 16; words.length < 80; j++)]
    that pushes the rotated exclusive-or of [words[j-3]], [words[j-8]],
    [words[j-14]] and [words[j-16]].  The lemmas are proved against the
    contract of [Utils] ([Utils.Laws]), not against its code.

    - On sixteen words of 32 binary characters the loop computes the
      schedule of the specification ([Spec.expand]) word for word, within
      the fuel step 11 gives it.
    - The result has 80 words and starts with the sixteen it was given;
      every later word is the rotated exclusive-or of the words 3, 8, 14
      and 16 places before it.
    - On a chunk of fewer than 14 words the first iteration reads
      [undefined] and [Utils.xor] throws a TypeError; a chunk that already
      has 80 words is left as it is. *)

From S2P Require Import Prelude JsRuntime Bits Utils Main Sha1Spec Splitter.

Module Expander.

Section expander.
Context {U : Utils.Ops} {L : Utils.Laws U}.

Lemma word_at_Some (ws : list jsstr) j w :
  ws !! j = Some w → Main.word_at ws j = Ok w.
Proof. unfold Main.word_at. by intros ->. Qed.

Lemma word_at_None (ws : list jsstr) j :
  length ws ≤ j → Main.word_at ws j = Err TypeError.
Proof. unfold Main.word_at. intros Hj. by rewrite lookup_ge_None_2. Qed.

(** The word one iteration pushes. *)
Lemma next_word_enc (ws : list jsstr) w3 w8 w14 w16 :
  Forall (bits 32) ws →
  ws !! (length ws - 3) = Some w3 → ws !! (length ws - 8) = Some w8 →
  ws !! (length ws - 14) = Some w14 → ws !! (length ws - 16) = Some w16 →
  Utils.rotate (Utils.xor (Utils.xor (Utils.xor w3 w8) w14) w16) 1
  = enc 32 (Spec.next_word (val <$> ws)).
Proof.
  intros Hws H3 H8 H14 H16.
  pose proof (Forall_lookup_1 _ _ _ _ Hws H3).
  pose proof (Forall_lookup_1 _ _ _ _ Hws H8).
  pose proof (Forall_lookup_1 _ _ _ _ Hws H14).
  pose proof (Forall_lookup_1 _ _ _ _ Hws H16).
  rewrite (Utils.xor_spec 32 w3 w8) by done.
  rewrite (Utils.xor_spec 32 _ w14) by auto with bits.
  rewrite (Utils.xor_spec 32 _ w16) by auto with bits.
  rewrite (Utils.rotate_spec 32) by auto with bits.
  rewrite !val_enc_word by auto 6 with bits.
  unfold Spec.next_word, Spec.rotate_left. rewrite length_fmap.
  by rewrite (fmap_lookup_total val ws _ w3), (fmap_lookup_total val ws _ w8),
    (fmap_lookup_total val ws _ w14), (fmap_lookup_total val ws _ w16).
Qed.

(** One iteration of the loop, when the index [j] is the length of
    [words]: the state of the source after the first sixteen words. *)
Lemma expand_loop_step fuel (ws : list jsstr) :
  Forall (bits 32) ws → 16 ≤ length ws < 80 →
  Main.expand_loop (S fuel) (length ws) ws
  = Main.expand_loop fuel (S (length ws))
      (ws ++ [enc 32 (Spec.next_word (val <$> ws))]).
Proof.
  intros Hws Hlen. simpl. case_decide; [|lia].
  destruct (lookup_lt_is_Some_2 ws (length ws - 3)) as [w3 H3]; [lia|].
  destruct (lookup_lt_is_Some_2 ws (length ws - 8)) as [w8 H8]; [lia|].
  destruct (lookup_lt_is_Some_2 ws (length ws - 14)) as [w14 H14]; [lia|].
  destruct (lookup_lt_is_Some_2 ws (length ws - 16)) as [w16 H16]; [lia|].
  rewrite (word_at_Some _ _ _ H3), (word_at_Some _ _ _ H8),
    (word_at_Some _ _ _ H14), (word_at_Some _ _ _ H16).
  cbn [mbind result_bind]. by rewrite (next_word_enc ws w3 w8 w14 w16).
Qed.

Lemma expand_loop_extend fuel (ws : list jsstr) :
  Forall (bits 32) ws → 16 ≤ length ws → 80 - length ws < fuel →
  Main.expand_loop fuel (length ws) ws
  = Ok (enc 32 <$> Spec.extend (80 - length ws) (val <$> ws)).
Proof.
  revert ws. induction fuel as [|fuel IH]; intros ws Hws Hlen Hfuel; [lia|].
  destruct (decide (length ws < 80)) as [Hlt|Hge].
  - rewrite expand_loop_step by (done || lia).
    replace (S (length ws)) with (length (ws ++ [enc 32 (Spec.next_word (val <$> ws))]))
      by (len; simpl; lia).
    rewrite IH.
    + rewrite length_app. simpl length.
      replace (80 - length ws) with (S (80 - (length ws + 1))) by lia.
      rewrite Spec.extend_S, fmap_app. simpl fmap.
      by rewrite val_enc_word by apply Spec.word_rotate_left.
    + apply Forall_app. split; [done|]. constructor; auto with bits.
    + len; simpl; lia.
    + len; simpl; lia.
  - simpl. case_decide; [lia|].
    replace (80 - length ws) with 0 by lia.
    change (Spec.extend 0 (val <$> ws)) with (val <$> ws).
    by rewrite enc_val_list.
Qed.

(** A chunk of sixteen words becomes its schedule. *)
Lemma expand_chunk (ws : list jsstr) :
  length ws = 16 → Forall (bits 32) ws →
  Main.expand_loop 81 16 ws = Ok (enc 32 <$> Spec.expand (val <$> ws)).
Proof.
  intros Hlen Hws. pose proof (expand_loop_extend 81 ws Hws) as H.
  rewrite Hlen in H. apply H; lia.
Qed.

(** A chunk of fewer than fourteen words has no [words[13]]. *)
Lemma expand_loop_short fuel (ws : list jsstr) :
  length ws ≤ 13 → Main.expand_loop (S fuel) 16 ws = Err TypeError.
Proof.
  intros Hlen. simpl. case_decide; [|lia].
  by rewrite (word_at_None ws 13).
Qed.

(** A chunk of 80 words or more is returned as it is. *)
Lemma expand_loop_full fuel j (ws : list jsstr) :
  80 ≤ length ws → Main.expand_loop (S fuel) j ws = Ok ws.
Proof. intros Hlen. simpl. case_decide; [lia|done]. Qed.

Lemma step11_expand (chunks : list (list jsstr)) :
  Forall Splitter.chunk chunks →
  Main.step11_80_words_per_chunk chunks
  = Ok ((λ ws, enc 32 <$> Spec.expand (val <$> ws)) <$> chunks).
Proof.
  intros Hcs. unfold Main.step11_80_words_per_chunk.
  apply mapM_Ok_ext. eapply Forall_impl; [done|].
  intros ws [Hlen Hws]. by apply expand_chunk.
Qed.

(** The schedule of a chunk: 80 words of 32 binary characters, the first
    sixteen the chunk itself. *)
Lemma expand_chunk_shape (ws : list jsstr) :
  length ws = 16 → Forall (bits 32) ws →
  ∃ ws', Main.expand_loop 81 16 ws = Ok ws' ∧ length ws' = 80
         ∧ Forall (bits 32) ws' ∧ take 16 ws' = ws.
Proof.
  intros Hlen Hws. eexists. split; [by apply expand_chunk|].
  split; [|split].
  - rewrite length_fmap. apply Spec.expand_length. by rewrite length_fmap.
  - apply enc_list_bits.
  - rewrite <-fmap_take. unfold Spec.expand.
    pose proof (Spec.extend_prefix 64 (val <$> ws)) as H.
    rewrite length_fmap, Hlen in H. rewrite H. by apply enc_val_list.
Qed.

(** The words of a schedule obey the recurrence of SHA-1. *)
Lemma expand_chunk_recurrence (ws : list jsstr) (t : nat) :
  length ws = 16 → Forall (bits 32) ws → 16 ≤ t < 80 →
  let ws' := enc 32 <$> Spec.expand (val <$> ws) in
  val (ws' !!! t)
  = rotl 32 1
      (Z.lxor (Z.lxor (Z.lxor (val (ws' !!! (t - 3))) (val (ws' !!! (t - 8))))
                      (val (ws' !!! (t - 14))))
              (val (ws' !!! (t - 16)))).
Proof.
  intros Hlen Hws Ht ws'.
  assert (length ws' = 80) as Hl.
  { unfold ws'. rewrite length_fmap. apply Spec.expand_length.
    by rewrite length_fmap. }
  assert (val <$> ws' = Spec.expand (val <$> ws)) as Hval.
  { apply val_enc_list, Spec.extend_word. auto with bits. }
  clearbody ws'.
  rewrite <-!(list_lookup_total_fmap val ws') by lia. rewrite Hval.
  rewrite (Spec.expand_recurrence (val <$> ws) t) by (by rewrite ?length_fmap).
  unfold Spec.rotate_left. f_equal.
Qed.

(** The loop cannot run out of the fuel step 11 gives it, whatever the
    [Utils] object and the chunk: every iteration that does not throw
    pushes a word. *)
Lemma expand_loop_terminated fuel j (ws : list jsstr) :
  80 - length ws < fuel → terminated (Main.expand_loop fuel j ws).
Proof.
  revert j ws. induction fuel as [|fuel IH]; intros j ws Hfuel; [lia|].
  simpl. case_decide; [|done].
  repeat (apply terminated_bind;
          [unfold Main.word_at; by case_match | intros ? _]).
  apply IH. rewrite length_app. simpl. lia.
Qed.

(** The words of the schedules step 11 returns are those of the
    specification. *)
Lemma step11_val (chunks : list (list jsstr)) :
  Forall Splitter.chunk chunks →
  fmap (M := list) val
    <$> ((λ ws, enc 32 <$> Spec.expand (val <$> ws)) <$> chunks)
  = Spec.expand <$> (fmap (M := list) val <$> chunks).
Proof.
  intros Hcs. rewrite <-!list_fmap_compose. apply Forall_fmap_ext_1.
  eapply Forall_impl; [done|]. intros ws [_ Hws]. cbv beta. unfold compose.
  apply val_enc_list, Spec.extend_word. auto with bits.
Qed.

End expander.

(** ** The program

    From here on the [Utils] object is the one the file builds,
    [UtilsImpl.exports]. *)

(** C5: on chunks of sixteen words of 32 binary characters, step 11
    returns without error, and the words of every chunk it returns are the
    80-word schedule the specification derives from the sixteen:
    W[t] = rotate_left_1 (W[t-3] xor W[t-8] xor W[t-14] xor W[t-16]). *)
Theorem expander_refines (chunks : list (list jsstr)) :
  Forall Splitter.chunk chunks →
  ∃ schedules,
    Main.step11_80_words_per_chunk (U := UtilsImpl.exports) chunks
    = Ok schedules
    ∧ fmap (M := list) val <$> schedules
      = Spec.expand <$> (fmap (M := list) val <$> chunks).
Proof.
  intros Hcs. eexists. split; [by apply step11_expand | by apply step11_val].
Qed.

Lemma expander_refines_witness :
  ∃ schedules,
    Main.step11_80_words_per_chunk (U := UtilsImpl.exports)
      [enc 32 <$> (Z.of_nat <$> seq 0 16)] = Ok schedules
    ∧ fmap (M := list) val <$> schedules
      = Spec.expand
          <$> (fmap (M := list) val <$> [enc 32 <$> (Z.of_nat <$> seq 0 16)]).
Proof. apply expander_refines. vm_decide. Defined.

(** C21: a chunk of fewer than fourteen words makes step 11 throw a
    TypeError in its first iteration: [words[13]] is undefined and
    [Utils.xor] calls [split] on it. *)
Theorem short_chunk_TypeError (ws : list jsstr) chunks :
  length ws ≤ 13 →
  Main.step11_80_words_per_chunk (U := UtilsImpl.exports) (ws :: chunks)
  = Err TypeError.
Proof.
  intros Hlen. unfold Main.step11_80_words_per_chunk.
  cbn [mapM]. by rewrite expand_loop_short.
Qed.

Lemma short_chunk_TypeError_witness :
  Main.step11_80_words_per_chunk (U := UtilsImpl.exports) [[]; []]
  = Err TypeError.
Proof. apply short_chunk_TypeError. vm_decide. Defined.

(** C22: the loop of step 11 terminates within its fuel of 81 on every
    chunk, well formed or not: it returns or throws, and never runs out
    of fuel. *)
Theorem expand_terminates (ws : list jsstr) :
  terminated (Main.expand_loop (U := UtilsImpl.exports) 81 16 ws).
Proof. apply expand_loop_terminated. lia. Qed.

(** The schedule of a chunk has 80 words of 32 binary characters, and its
    first sixteen words are the chunk itself: the loop only appends. *)
Theorem schedule_shape (ws : list jsstr) :
  Splitter.chunk ws →
  ∃ ws', Main.expand_loop (U := UtilsImpl.exports) 81 16 ws = Ok ws'
         ∧ length ws' = 80 ∧ Forall (bits 32) ws' ∧ take 16 ws' = ws.
Proof. intros [Hlen Hws]. by apply expand_chunk_shape. Qed.

Lemma schedule_shape_witness :
  ∃ ws', Main.expand_loop (U := UtilsImpl.exports) 81 16
           (enc 32 <$> (Z.of_nat <$> seq 0 16)) = Ok ws'
         ∧ length ws' = 80 ∧ Forall (bits 32) ws'
         ∧ take 16 ws' = enc 32 <$> (Z.of_nat <$> seq 0 16).
Proof. apply schedule_shape. vm_decide. Defined.

(** C17: in the schedule step 11 builds from a chunk, every word from
    index 16 to 79 is the exclusive-or of the words 3, 8, 14 and 16 places
    before it, rotated left by one bit: the recurrence of SHA-1, read off
    the words the loop returns. *)
Theorem schedule_recurrence (ws : list jsstr) (t : nat) :
  Splitter.chunk ws → 16 ≤ t < 80 →
  ∃ ws', Main.expand_loop (U := UtilsImpl.exports) 81 16 ws = Ok ws'
         ∧ val (ws' !!! t)
           = rotl 32 1
               (Z.lxor (Z.lxor (Z.lxor (val (ws' !!! (t - 3)))
                                       (val (ws' !!! (t - 8))))
                               (val (ws' !!! (t - 14))))
                       (val (ws' !!! (t - 16)))).
Proof.
  intros [Hlen Hws] Ht. eexists. split; [by apply expand_chunk|].
  by apply expand_chunk_recurrence.
Qed.

Lemma schedule_recurrence_witness :
  ∃ ws', Main.expand_loop (U := UtilsImpl.exports) 81 16
           (enc 32 <$> (Z.of_nat <$> seq 0 16)) = Ok ws'
         ∧ val (ws' !!! 79)
           = rotl 32 1
               (Z.lxor (Z.lxor (Z.lxor (val (ws' !!! (79 - 3)))
                                       (val (ws' !!! (79 - 8))))
                               (val (ws' !!! (79 - 14))))
                       (val (ws' !!! (79 - 16)))).
Proof. apply schedule_recurrence; [vm_decide | lia]. Defined.

End Expander.
