(* ===== verification/Compressor.v ===== *)
(** * Steps 12 and 13 of [Main.sha1]: the 80 rounds of every chunk

    The five strings [h0] to [h4] ([Main.hstate]) stand for the five words
    of the specification's state ([Spec.state]) through [enc_state]; the
    lemmas are proved against the contract of [Utils] ([Utils.Laws]).

    - [Main.round_f_k] computes the function and the constant of the
      specification; between rounds 40 and 59 the source combines the three
      conjunctions with exclusive-or where the specification (and the
      comment of the source) has the inclusive or: the two agree
      ([maj_xor_or]).
    - [Main.round] is [Spec.round], [Main.process_chunk] is
      [Spec.compress], [Main.step13_process] folds it over the chunks: each
      a simulation by [enc_state], none of them fails on a schedule of 80
      words of 32 binary characters.
    - Every state the program reaches holds five strings of 32 binary
      characters ([bits_state]).
    - Outside that contract the code does not throw: a round whose word is
      missing adds [undefined] and stores the numeral "NaN"
      ([round_missing_word]). *)

From S2P Require Import Prelude JsRuntime Bits Utils Main Sha1Spec.

Module Compressor.

Local Open Scope Z_scope.

(** The state of the program that stands for a state of the
    specification, and back. *)
Definition enc_state (s : Spec.state) : Main.hstate :=
  Main.HState (enc 32 (Spec.H0 s)) (enc 32 (Spec.H1 s)) (enc 32 (Spec.H2 s))
              (enc 32 (Spec.H3 s)) (enc 32 (Spec.H4 s)).

Definition val_state (h : Main.hstate) : Spec.state :=
  Spec.State (val (Main.h0 h)) (val (Main.h1 h)) (val (Main.h2 h))
             (val (Main.h3 h)) (val (Main.h4 h)).

Definition bits_state (h : Main.hstate) : Prop :=
  bits 32 (Main.h0 h) ∧ bits 32 (Main.h1 h) ∧ bits 32 (Main.h2 h)
  ∧ bits 32 (Main.h3 h) ∧ bits 32 (Main.h4 h).

#[global] Instance bits_state_dec h : Decision (bits_state h).
Proof. unfold bits_state. apply _. Defined.

(** The schedules step 13 accepts: 80 words of 32 binary characters. *)
Definition schedule (ws : list jsstr) : Prop :=
  length ws = 80%nat ∧ Forall (bits 32) ws.

#[global] Instance schedule_dec ws : Decision (schedule ws).
Proof. unfold schedule. apply _. Defined.

Lemma enc_state_bits s : bits_state (enc_state s).
Proof. repeat split; simpl; len; apply enc_bits. Qed.

Lemma val_state_word h : bits_state h → Spec.word_state (val_state h).
Proof.
  intros (? & ? & ? & ? & ?). Spec.split_state; simpl; by apply word_val.
Qed.

Lemma enc_val_state h : bits_state h → enc_state (val_state h) = h.
Proof.
  destruct h. intros (? & ? & ? & ? & ?). unfold enc_state. simpl in *.
  by rewrite !(enc_val 32).
Qed.

Lemma val_enc_state s : Spec.word_state s → val_state (enc_state s) = s.
Proof.
  destruct s. intros (? & ? & ? & ? & ?). unfold val_state. simpl in *.
  by rewrite !val_enc_word.
Qed.

(** Exclusive-or and inclusive or of the three conjunctions agree: of
    [b ∧ c], [b ∧ d] and [c ∧ d] either none, one or all three hold, never
    exactly two. *)
Lemma maj_xor_or b c d :
  Z.lxor (Z.lxor (Z.land b c) (Z.land b d)) (Z.land c d)
  = Z.lor (Z.lor (Z.land b c) (Z.land b d)) (Z.land c d).
Proof.
  apply Z.bits_inj'. intros i _.
  rewrite !Z.lxor_spec, !Z.lor_spec, !Z.land_spec.
  by destruct (Z.testbit b i), (Z.testbit c i), (Z.testbit d i).
Qed.

Lemma enc_wrap z : enc 32 (Spec.wrap z) = enc 32 z.
Proof. apply (enc_mod 32). Qed.

Lemma step12_init_enc : Main.step12_init = enc_state Spec.initial_state.
Proof. vm_compute. reflexivity. Qed.

Section compressor.
Context {U : Utils.Ops} {L : Utils.Laws U}.

Lemma round_f_k_enc i b c d :
  Main.round_f_k i (enc 32 b) (enc 32 c) (enc 32 d)
  = (enc 32 (Spec.f i b c d), enc 32 (Spec.k i)).
Proof.
  unfold Main.round_f_k, Spec.f, Spec.k.
  repeat case_decide; enc_hom; by rewrite ?maj_xor_or.
Qed.

(** One round, on a schedule that has a word at index [i]. *)
Lemma round_enc (ws : list jsstr) s i w :
  Spec.word_state s → ws !! i = Some w → bits 32 w →
  Main.round ws (enc_state s) i
  = Ok (enc_state (Spec.round (val <$> ws) s i)).
Proof.
  destruct s as [a b c d e]. intros (Ha & Hb & _) Hw Hbits.
  unfold Main.round, enc_state. simpl in Ha, Hb. cbn [Spec.H0 Spec.H1 Spec.H2 Spec.H3 Spec.H4].
  rewrite round_f_k_enc, Hw. cbn [ToString default id].
  rewrite <-(enc_val 32 w) by done.
  rewrite !UtilsFacts.rotate_hom by done.
  repeat (rewrite UtilsFacts.add32; cbn [mbind result_bind]).
  unfold Spec.round. cbn [Spec.H0 Spec.H1 Spec.H2 Spec.H3 Spec.H4].
  by rewrite enc_wrap, (fmap_lookup_total val ws i w).
Qed.

(** Any sequence of rounds whose indices the schedule has. *)
Lemma rounds_enc (ws : list jsstr) s (rounds : list nat) :
  Forall (bits 32) ws → Spec.word_state s →
  Forall (λ i, (i < length ws)%nat) rounds →
  foldlM (Main.round ws) (enc_state s) rounds
  = Ok (enc_state (foldl (Spec.round (val <$> ws)) s rounds)).
Proof.
  intros Hws Hs Hrounds.
  apply (foldlM_simulation enc_state Spec.word_state
           (λ i, (i < length ws)%nat)); [| |done..].
  - intros t i Ht Hi. destruct (lookup_lt_is_Some_2 ws i Hi) as [w Hw].
    apply round_enc with w; [done..|]. by eapply Forall_lookup_1.
  - intros. by apply Spec.round_word.
Qed.

Lemma process_chunk_enc (ws : list jsstr) s :
  Forall (bits 32) ws → (80 ≤ length ws)%nat → Spec.word_state s →
  Main.process_chunk (enc_state s) ws
  = Ok (enc_state (Spec.compress s (val <$> ws))).
Proof.
  intros Hws Hlen Hs. unfold Main.process_chunk, Spec.compress.
  rewrite rounds_enc; [|done..|].
  2: { apply Forall_forall. intros i Hi%elem_of_seq. lia. }
  cbn [mbind result_bind]. destruct (foldl _ _ _) as [a b c d e].
  unfold enc_state.
  cbn [Spec.H0 Spec.H1 Spec.H2 Spec.H3 Spec.H4
       Main.h0 Main.h1 Main.h2 Main.h3 Main.h4].
  repeat (rewrite UtilsFacts.add32; cbn [mbind result_bind]).
  by rewrite !enc_wrap.
Qed.

Lemma step13_enc (chunks : list (list jsstr)) :
  Forall schedule chunks →
  Main.step13_process chunks
  = Ok (enc_state (foldl (λ st ws, Spec.compress st (val <$> ws))
                         Spec.initial_state chunks)).
Proof.
  intros Hcs. unfold Main.step13_process. rewrite step12_init_enc.
  apply (foldlM_simulation enc_state Spec.word_state schedule);
    [| |apply Spec.initial_state_word|done].
  - intros t ws Ht [Hlen Hws]. apply process_chunk_enc; [done|lia|done].
  - intros. apply Spec.compress_word.
Qed.

(** The invariant of [h0] to [h4]: five strings of 32 binary characters
    after every chunk. *)
Lemma process_chunk_bits h (ws : list jsstr) h' :
  bits_state h → schedule ws →
  Main.process_chunk h ws = Ok h' → bits_state h'.
Proof.
  intros Hh [Hlen Hws]. rewrite <-(enc_val_state h) by done.
  rewrite process_chunk_enc by (done || lia || by apply val_state_word).
  intros [= <-]. apply enc_state_bits.
Qed.

Lemma step13_bits (chunks : list (list jsstr)) h :
  Forall schedule chunks → Main.step13_process chunks = Ok h → bits_state h.
Proof.
  intros Hcs. unfold Main.step13_process.
  apply (foldlM_invariant bits_state schedule); [|vm_decide|done].
  intros s ws s' Hs Hws. by apply process_chunk_bits.
Qed.

(** In rounds 40 to 59 the source computes the majority function with
    [Utils.xor]; on binary strings the result is the one [Utils.or] would
    give. *)
Lemma round_f_k_maj i (b c d : jsstr) :
  bits 32 b → bits 32 c → bits 32 d → (40 ≤ i < 60)%nat →
  (Main.round_f_k i b c d).1
  = Utils.or (Utils.or (Utils.and b c) (Utils.and b d)) (Utils.and c d).
Proof.
  intros Hb Hc Hd Hi.
  rewrite <-(enc_val 32 b), <-(enc_val 32 c), <-(enc_val 32 d) by done.
  unfold Main.round_f_k. repeat case_decide; try lia. cbn [fst].
  enc_hom. by rewrite maj_xor_or.
Qed.

Lemma step13_total (chunks : list (list jsstr)) :
  Forall schedule chunks →
  ∃ h, Main.step13_process chunks = Ok h ∧ bits_state h.
Proof.
  intros Hcs. eexists. split; [by apply step13_enc | apply enc_state_bits].
Qed.

End compressor.

(** ** The program

    From here on the [Utils] object is the one the file builds,
    [UtilsImpl.exports]. *)

(** C6: on a state of five words and a schedule of 80 words, all of 32
    binary characters, the callback of step 13 returns without error a
    state of five such words, whose values are those the compression
    function of the specification computes: 80 rounds and the addition of
    the working variables to the state, modulo 2^32. *)
Theorem compressor_refines h (ws : list jsstr) :
  bits_state h → schedule ws →
  ∃ h', Main.process_chunk (U := UtilsImpl.exports) h ws = Ok h'
        ∧ bits_state h'
        ∧ val_state h' = Spec.compress (val_state h) (val <$> ws).
Proof.
  intros Hh [Hlen Hws].
  pose proof (process_chunk_enc (U := UtilsImpl.exports) ws (val_state h)
                Hws ltac:(lia) (val_state_word h Hh)) as Hp.
  rewrite enc_val_state in Hp by done.
  eexists. split; [exact Hp|]. split; [apply enc_state_bits|].
  apply val_enc_state, Spec.compress_word.
Qed.

Lemma compressor_refines_witness :
  ∃ h', Main.process_chunk (U := UtilsImpl.exports) Main.step12_init
          (enc 32 <$> (Z.of_nat <$> seq 0 80)) = Ok h'
        ∧ bits_state h'
        ∧ val_state h'
          = Spec.compress (val_state Main.step12_init)
              (val <$> (enc 32 <$> (Z.of_nat <$> seq 0 80))).
Proof. apply compressor_refines; vm_decide. Defined.

(** C8: the invariant of [h0] to [h4]: after every chunk of step 13, on
    schedules of 80 words of 32 binary characters, the state holds five
    strings of 32 binary characters, and no chunk makes the step fail. *)
Theorem hstate_invariant (chunks : list (list jsstr)) (n : nat) :
  Forall schedule chunks →
  ∃ h, Main.step13_process (U := UtilsImpl.exports) (take n chunks) = Ok h
       ∧ bits_state h.
Proof. intros Hcs. by apply step13_total, Forall_take. Qed.

Lemma hstate_invariant_witness :
  ∃ h, Main.step13_process (U := UtilsImpl.exports)
         (take 1 [enc 32 <$> (Z.of_nat <$> seq 0 80);
                  enc 32 <$> (Z.of_nat <$> seq 80 80)]) = Ok h
       ∧ bits_state h.
Proof. apply hstate_invariant. vm_decide. Defined.

(** C11: in rounds 40 to 59 the source combines [b and c], [b and d] and
    [c and d] with [Utils.xor], where its comment and the specification
    have the inclusive or; on words of 32 binary characters the two give
    the same string. *)
Theorem majority_xor_is_or (i : nat) (b c d : jsstr) :
  bits 32 b → bits 32 c → bits 32 d → (40 ≤ i < 60)%nat →
  (Main.round_f_k (U := UtilsImpl.exports) i b c d).1
  = UtilsImpl.or (UtilsImpl.or (UtilsImpl.and b c) (UtilsImpl.and b d))
                 (UtilsImpl.and c d).
Proof. apply (round_f_k_maj (U := UtilsImpl.exports)). Qed.

Lemma majority_xor_is_or_witness :
  (Main.round_f_k (U := UtilsImpl.exports) 40
     (enc 32 0xEFCDAB89) (enc 32 0x98BADCFE) (enc 32 0x10325476)).1
  = UtilsImpl.or
      (UtilsImpl.or (UtilsImpl.and (enc 32 0xEFCDAB89) (enc 32 0x98BADCFE))
                    (UtilsImpl.and (enc 32 0xEFCDAB89) (enc 32 0x10325476)))
      (UtilsImpl.and (enc 32 0x98BADCFE) (enc 32 0x10325476)).
Proof. apply majority_xor_is_or; vm_decide. Defined.

(** C12: one round of the source on a state of five words and a schedule
    that has a word at the index of the round is one round of the
    specification: the new [a] is rotate_left_5(a) + f + e + k + W[i]
    modulo 2^32, [c] is [b] rotated by 30, the others shift. *)
Theorem round_refines h (ws : list jsstr) (i : nat) :
  bits_state h → Forall (bits 32) ws → (i < length ws)%nat →
  ∃ h', Main.round (U := UtilsImpl.exports) ws h i = Ok h'
        ∧ bits_state h'
        ∧ val_state h' = Spec.round (val <$> ws) (val_state h) i.
Proof.
  intros Hh Hws Hi. destruct (lookup_lt_is_Some_2 ws i Hi) as [w Hw].
  pose proof (round_enc (U := UtilsImpl.exports) ws (val_state h) i w
                (val_state_word h Hh) Hw (Forall_lookup_1 _ _ _ _ Hws Hw))
    as Hr.
  rewrite enc_val_state in Hr by done.
  eexists. split; [exact Hr|]. split; [apply enc_state_bits|].
  by apply val_enc_state, Spec.round_word, val_state_word.
Qed.

Lemma round_refines_witness :
  ∃ h', Main.round (U := UtilsImpl.exports)
          [enc 32 0x61626380] Main.step12_init 0 = Ok h'
        ∧ bits_state h'
        ∧ val_state h'
          = Spec.round (val <$> [enc 32 0x61626380])
              (val_state Main.step12_init) 0.
Proof. apply round_refines; vm_decide. Defined.

(** C32: a round whose index the schedule does not have does not throw.
    [words[i]] is undefined, [Utils.add] reads it as NaN, and the new [a]
    is the numeral "NaN" padded to 32 characters, which is no binary
    string; the four other variables shift as in any round. *)
Theorem round_missing_word h (ws : list jsstr) (i : nat) :
  bits_state h → (length ws ≤ i)%nat →
  Main.round (U := UtilsImpl.exports) ws h i
  = Ok (Main.HState (replicate 29 ch0 ++ str "NaN") (Main.h0 h)
          (enc 32 (rotl 32 30 (val (Main.h1 h)))) (Main.h2 h) (Main.h3 h)).
Proof.
  intros Hh Hi. pose proof (val_state_word h Hh) as (Ha & Hb & _).
  rewrite <-(enc_val_state h) at 1 by done.
  destruct h as [h0 h1 h2 h3 h4]. destruct Hh as (? & ? & ? & ? & ?).
  unfold Main.round, enc_state, val_state.
  cbn [Spec.H0 Spec.H1 Spec.H2 Spec.H3 Spec.H4
       Main.h0 Main.h1 Main.h2 Main.h3 Main.h4 val_state] in *.
  rewrite round_f_k_enc, lookup_ge_None_2 by done.
  rewrite !UtilsFacts.rotate_hom by done.
  repeat (rewrite UtilsFacts.add32; cbn [mbind result_bind]).
  rewrite UtilsImpl.add_NaN by reflexivity. cbn [mbind result_bind].
  by rewrite !(enc_val 32).
Qed.

Lemma round_missing_word_witness :
  Main.round (U := UtilsImpl.exports) [] Main.step12_init 0
  = Ok (Main.HState (replicate 29 ch0 ++ str "NaN")
          (Main.h0 Main.step12_init)
          (enc 32 (rotl 32 30 (val (Main.h1 Main.step12_init))))
          (Main.h2 Main.step12_init) (Main.h3 Main.step12_init)).
Proof. apply round_missing_word; vm_decide. Defined.

End Compressor.
