(* ===== verification/Finalizer.v ===== *)
(** * Step 14 of [Main.sha1]: the digest in hexadecimal

    [Main.step14_finalize] prints each of [h0] to [h4] with
    [Utils.binToHex] on eight characters and concatenates them.  Against
    the contract of [Utils]:

    - the result is the hexadecimal form of the twenty bytes the
      specification's finalizer produces ([Spec.finalize]), two characters
      per byte;
    - it has forty characters, each one of '0'-'9', 'a'-'f'. *)

From S2P Require Import Prelude JsRuntime Bits Utils Main Sha1Spec Compressor.

Module Finalizer.

Local Open Scope Z_scope.

(** A digest as the program returns it. *)
Definition is_digest (s : jsstr) : Prop :=
  length s = 40%nat ∧ Forall is_hex_char s.

#[global] Instance is_digest_dec s : Decision (is_digest s).
Proof. unfold is_digest. apply _. Defined.

(** The eight hexadecimal digits of a word are those of its four bytes. *)
Lemma hex_be_bytes z : Spec.hex_of_bytes (Spec.be_bytes 4 z) = hex 8 z.
Proof.
  change (Spec.hex_of_bytes (Spec.be_bytes 4 z)) with
    (hex 2 ((z / 2 ^ (4 * Z.of_nat 6)) mod 2 ^ (4 * Z.of_nat 2))
     ++ hex 2 ((z / 2 ^ (4 * Z.of_nat 4)) mod 2 ^ (4 * Z.of_nat 2))
     ++ hex 2 ((z / 2 ^ (4 * Z.of_nat 2)) mod 2 ^ (4 * Z.of_nat 2))
     ++ hex 2 ((z / 1) mod 2 ^ (4 * Z.of_nat 2)) ++ []).
  rewrite !hex_mod, Z.div_1_r, app_nil_r.
  by rewrite (hex_app 2 6), (hex_app 2 4), (hex_app 2 2).
Qed.

Lemma hex_finalize s :
  Spec.hex_of_bytes (Spec.finalize s)
  = hex 8 (Spec.H0 s) ++ hex 8 (Spec.H1 s) ++ hex 8 (Spec.H2 s)
      ++ hex 8 (Spec.H3 s) ++ hex 8 (Spec.H4 s).
Proof.
  unfold Spec.finalize. by rewrite !Spec.hex_of_bytes_app, !hex_be_bytes.
Qed.

Lemma hex_finalize_digest s : is_digest (Spec.hex_of_bytes (Spec.finalize s)).
Proof.
  rewrite hex_finalize. split; [by len|].
  rewrite !Forall_app. repeat split; apply hex_chars.
Qed.

Section finalizer.
Context {U : Utils.Ops} {L : Utils.Laws U}.

Lemma step14_enc s :
  Main.step14_finalize (Compressor.enc_state s)
  = Ok (Spec.hex_of_bytes (Spec.finalize s)).
Proof.
  unfold Main.step14_finalize, Compressor.enc_state.
  cbn [Main.h0 Main.h1 Main.h2 Main.h3 Main.h4].
  repeat (rewrite UtilsFacts.binToHex_hom; cbn [mbind result_bind]).
  by rewrite hex_finalize.
Qed.

(** On any state of five words of 32 binary characters the step returns a
    digest. *)
Lemma step14_digest h :
  Compressor.bits_state h →
  ∃ d, Main.step14_finalize h = Ok d ∧ is_digest d.
Proof.
  intros Hh. rewrite <-(Compressor.enc_val_state h) by done.
  eexists. split; [apply step14_enc | apply hex_finalize_digest].
Qed.

End finalizer.

(** ** The program *)

(** C7: on a state of five words of 32 binary characters step 14
    returns, without error, the twenty bytes the finalizer of the
    specification lays out (each word big-endian, [h0] first), printed as
    two hexadecimal characters per byte: a digest of forty characters. *)
Theorem finalizer_refines h :
  Compressor.bits_state h →
  Main.step14_finalize (U := UtilsImpl.exports) h
  = Ok (Spec.hex_of_bytes (Spec.finalize (Compressor.val_state h)))
  ∧ is_digest (Spec.hex_of_bytes (Spec.finalize (Compressor.val_state h))).
Proof.
  intros Hh. split; [|apply hex_finalize_digest].
  pose proof (step14_enc (U := UtilsImpl.exports) (Compressor.val_state h))
    as Hs.
  by rewrite Compressor.enc_val_state in Hs.
Qed.

Lemma finalizer_refines_witness :
  Main.step14_finalize (U := UtilsImpl.exports) Main.step12_init
  = Ok (Spec.hex_of_bytes
          (Spec.finalize (Compressor.val_state Main.step12_init)))
  ∧ is_digest
      (Spec.hex_of_bytes
         (Spec.finalize (Compressor.val_state Main.step12_init))).
Proof. apply finalizer_refines. vm_decide. Defined.

End Finalizer.
