(* ===== verification/Refinement.v ===== *)
(** * [Main.sha1] computes SHA-1

    The refinement theorems of the development: [Main.sha1] returns the
    hexadecimal form of the digest [Spec.bit_sha1] of the bit string steps
    1 to 5 build ([sha1_refines_bits]); on a string of bytes shorter than
    2^61 characters this is the digest the specification ([Spec.sha1])
    assigns to the bytes ([sha1_refines_spec]).  They are proved for any
    [Utils] object that meets the contract ([Utils.Laws]), from the lemmas
    of the five components:

    - [Padder]: steps 1 to 8 produce the bits of [Spec.pad];
    - [Splitter]: steps 9 and 10 cut them into the words of [Spec.split];
    - [Expander]: step 11 extends sixteen words to [Spec.expand];
    - [Compressor]: step 13 folds [Spec.compress] over the chunks;
    - [Finalizer]: step 14 prints [Spec.finalize] in hexadecimal.

    The bound 2^61 is the length from which the bit length no longer fits
    the 64-bit field; no string of JavaScript reaches it. *)

From S2P Require Import Prelude JsRuntime Bits Utils Main Padder Sha1Spec.
From S2P Require Import Bytes BitString Splitter Expander Compressor Finalizer.

Module Refinement.

Section refinement.
Context {U : Utils.Ops}.

(** [sha1] is the composition of its three stages. *)
Lemma sha1_stages (str : jsstr) :
  Main.sha1 str
  = ws ← Main.schedules str; h ← Main.step13_process ws;
    Main.step14_finalize h.
Proof.
  unfold Main.sha1, Main.schedules, Main.padded, Main.message_bits.
  by case_bind.
Qed.

Context {L : Utils.Laws U}.

(** Steps 11 to 14 on well-formed chunks. *)
Lemma digest_of_chunks (chunks : list (list jsstr)) :
  Forall Splitter.chunk chunks →
  (ws ← Main.step11_80_words_per_chunk chunks;
   h ← Main.step13_process ws; Main.step14_finalize h)
  = Ok (Spec.hex_of_bytes
          (Spec.digest_of_blocks (fmap (M := list) val <$> chunks))).
Proof.
  intros Hcs. rewrite Expander.step11_expand by done.
  cbn [mbind result_bind]. rewrite Compressor.step13_enc.
  - cbn [mbind result_bind]. rewrite Finalizer.step14_enc.
    unfold Spec.digest_of_blocks. rewrite !foldl_fmap. do 3 f_equal.
    apply foldl_ext_Forall. eapply Forall_impl; [done|].
    intros ws [_ Hws] st. cbv beta. rewrite val_enc_list; [done|].
    apply Spec.extend_word. auto with bits.
  - apply Forall_fmap. eapply Forall_impl; [done|].
    intros ws [Hlen Hws]. split; [|apply enc_list_bits].
    rewrite length_fmap. apply Spec.expand_length. by rewrite length_fmap.
Qed.

(** Steps 1 to 8 produce the bits of the padded bytes. *)
Lemma padded_pad (msg : jsstr) :
  Forall Padder.is_byte msg → (Z.of_nat (length msg) < 2 ^ 61)%Z →
  Main.padded msg
  = Ok (Bytes.bits_of_bytes (Spec.pad (Bytes.bytes_of msg))).
Proof.
  intros Hmsg Hlen. rewrite Padder.padded_bytes by done.
  by rewrite Bytes.pad_bits, Bytes.bits_of_bytes_of, Bytes.bytes_of_length.
Qed.

(** The chunks of a string that is the bits of whole blocks of bytes. *)
Lemma chunks_of_bytes bs k :
  length bs = k * 64 →
  Forall Splitter.chunk (chunks 32 <$> chunks 512 (Bytes.bits_of_bytes bs)).
Proof.
  intros Hlen. apply (Splitter.blocks_shape k). split.
  - unfold Bytes.bits_of_bytes.
    rewrite (length_concat_uniform 8) by apply enc_list_bits_length.
    rewrite length_fmap. lia.
  - apply Forall_concat, Forall_fmap, Forall_forall. intros b _.
    apply enc_bits.
Qed.

(** Steps 9 to 14 on a padded message of whole chunks: the digest of its
    blocks. *)
Lemma sha1_of_padded (msg padded : jsstr) k :
  Main.padded msg = Ok padded → bits (k * 512) padded →
  Main.sha1 msg
  = Ok (Spec.hex_of_bytes
          (Spec.digest_of_blocks
             (fmap (M := list) val <$> (chunks 32 <$> chunks 512 padded)))).
Proof.
  intros Hp Hbits. rewrite sha1_stages. unfold Main.schedules.
  rewrite Hp. cbn [mbind result_bind].
  rewrite Splitter.step9_chunks. cbn [mbind result_bind].
  rewrite Splitter.step10_words. cbn [mbind result_bind].
  by rewrite digest_of_chunks by (by apply (Splitter.blocks_shape k)).
Qed.

(** The program computes the SHA-1 of the bit string steps 1 to 5 build,
    whatever the code units, as long as its length fits 64 bits. *)
Lemma sha1_refines_bits (msg : jsstr) :
  (Z.of_nat (length (Padder.unit_bits msg)) < 2 ^ 64)%Z →
  Main.sha1 msg
  = Ok (Spec.hex_of_bytes
          (Spec.bit_sha1 (BitString.bools (Padder.unit_bits msg)))).
Proof.
  intros Hlen.
  destruct (Padder.padded_bits_shape msg Hlen) as (p & k & Hp & Hk & _).
  rewrite (sha1_of_padded msg p k Hp Hk). do 2 f_equal.
  rewrite Padder.padded_bits in Hp by done. injection Hp as <-.
  unfold Spec.bit_sha1.
  rewrite <-BitString.bit_split_text, BitString.text_bit_pad.
  by rewrite BitString.text_bools, BitString.bools_length
    by apply Padder.unit_bits_bin.
Qed.

(** On code units, at most 16 bits each. *)
Lemma sha1_units_bits (msg : jsstr) :
  Forall Padder.is_code_unit msg → (Z.of_nat (length msg) < 2 ^ 60)%Z →
  Main.sha1 msg
  = Ok (Spec.hex_of_bytes
          (Spec.bit_sha1 (BitString.bools (Padder.unit_bits msg)))).
Proof.
  intros Hmsg Hlen. apply sha1_refines_bits.
  pose proof (Padder.unit_bits_length msg Hmsg). lia.
Qed.

(** On bytes the bit string is that of the bytes, and its digest the one
    of the byte-level specification. *)
Lemma sha1_refines_spec (msg : jsstr) :
  Forall Padder.is_byte msg → (Z.of_nat (length msg) < 2 ^ 61)%Z →
  ∃ digest, Spec.sha1 (Bytes.bytes_of msg) = Some digest
            ∧ Main.sha1 msg = Ok (Spec.hex_of_bytes digest).
Proof.
  intros Hmsg Hlen. eexists.
  split; [by apply BitString.bit_sha1_bytes, Bytes.bytes_of_word|].
  rewrite Bytes.bits_of_bytes_of, <-Padder.unit_bits_bytes by done.
  apply sha1_refines_bits.
  rewrite Padder.unit_bits_bytes, Padder.byte_bits_length by done. lia.
Qed.

(** The digest is a function of the bit string of steps 1 to 5. *)
Lemma sha1_message_bits (m1 m2 : jsstr) :
  Main.message_bits m1 = Main.message_bits m2 → Main.sha1 m1 = Main.sha1 m2.
Proof.
  intros Hbits. rewrite !sha1_stages. unfold Main.schedules, Main.padded.
  by rewrite Hbits.
Qed.

(** On bytes the padding loses nothing: the message is read back from
    the padded message, whose last 64 characters give its length. *)
Lemma padded_bytes_inj (m1 m2 : jsstr) :
  Forall Padder.is_byte m1 → Forall Padder.is_byte m2 →
  (Z.of_nat (length m1) < 2 ^ 61)%Z → (Z.of_nat (length m2) < 2 ^ 61)%Z →
  Main.padded m1 = Main.padded m2 → m1 = m2.
Proof.
  intros H1 H2 Hl1 Hl2. rewrite !Padder.padded_bytes by done.
  generalize (Padder.zero_count (8 * length m1 + 1))
    (Padder.zero_count (8 * length m2 + 1)).
  intros z1 z2 [= Heq]. rewrite !app_comm_cons, !app_assoc in Heq.
  apply app_inj_2 in Heq as [Hpre Hlen]; [|by rewrite !enc_length].
  apply (f_equal val) in Hlen.
  rewrite !val_enc_word in Hlen by (unfold word; simpl; lia).
  apply app_inj_1 in Hpre as [Hbits _];
    [|rewrite !Padder.byte_bits_length; lia].
  by rewrite <-(Bytes.decode_byte_bits m1), <-(Bytes.decode_byte_bits m2),
    Hbits.
Qed.

(** On every string of code units the result is a digest: the program
    does not throw, whether the code units are bytes or not. *)
Lemma sha1_units_digest (msg : jsstr) :
  Forall Padder.is_code_unit msg → (Z.of_nat (length msg) < 2 ^ 60)%Z →
  ∃ d, Main.sha1 msg = Ok d ∧ Finalizer.is_digest d.
Proof.
  intros Hmsg Hlen. eexists. split; [by apply sha1_units_bits|].
  apply Finalizer.hex_finalize_digest.
Qed.

End refinement.

(** ** The program

    From here on the [Utils] object is the one the file builds,
    [UtilsImpl.exports]. *)

(** C3: steps 1 to 8 on a string of bytes return, without error, the
    bits of the padded message of the specification: the message, the
    byte 0x80, zero bytes up to 56 modulo 64 and the bit length as eight
    big-endian bytes, each byte written as eight characters. *)
Theorem padder_refines (msg : jsstr) :
  Forall Padder.is_byte msg → (Z.of_nat (length msg) < 2 ^ 61)%Z →
  Main.padded (U := UtilsImpl.exports) msg
  = Ok (Bytes.bits_of_bytes (Spec.pad (Bytes.bytes_of msg))).
Proof. apply padded_pad. Qed.

Lemma padder_refines_witness :
  Main.padded (U := UtilsImpl.exports) (str "abc")
  = Ok (Bytes.bits_of_bytes (Spec.pad (Bytes.bytes_of (str "abc")))).
Proof. apply padder_refines; [vm_decide | reflexivity]. Defined.

(** C4: steps 9 and 10 on the bits of a list of bytes whose length is a
    multiple of 64 return, without error, chunks of sixteen words of 32
    binary characters whose values are the blocks of sixteen big-endian
    words into which the specification splits the bytes. *)
Theorem splitter_refines bs :
  Forall (word 8) bs → length bs mod 64 = 0 →
  ∃ cs ws, Main.step9_split_512b_chunks (Bytes.bits_of_bytes bs) = Ok cs
           ∧ Main.step10_split_32b_words cs = Ok ws
           ∧ Forall Splitter.chunk ws
           ∧ Spec.split bs = Some (fmap (M := list) val <$> ws).
Proof.
  intros Hbs Hlen. do 2 eexists.
  split; [apply Splitter.step9_chunks|].
  split; [apply Splitter.step10_words|]. split.
  - apply chunks_of_bytes with (length bs / 64).
    pose proof (Nat.div_mod_eq (length bs) 64). lia.
  - unfold Spec.split. rewrite decide_True by done.
    by rewrite Bytes.split_bits.
Qed.

Lemma splitter_refines_witness :
  ∃ cs ws,
    Main.step9_split_512b_chunks
      (Bytes.bits_of_bytes (Spec.pad [97; 98; 99]%Z)) = Ok cs
    ∧ Main.step10_split_32b_words cs = Ok ws
    ∧ Forall Splitter.chunk ws
    ∧ Spec.split (Spec.pad [97; 98; 99]%Z)
      = Some (fmap (M := list) val <$> ws).
Proof. apply splitter_refines; vm_decide. Defined.

(** C24: on strings of bytes steps 1 to 8 lose nothing.  Two messages
    with the same padded message are the same message: the first
    characters, eight per byte, are read back as the bytes
    ([Bytes.decode]), and the last 64 separate messages of different
    lengths.  Two byte strings with one digest are thus a collision of
    SHA-1 itself. *)
Theorem padded_injective (m1 m2 : jsstr) :
  Forall Padder.is_byte m1 → Forall Padder.is_byte m2 →
  (Z.of_nat (length m1) < 2 ^ 61)%Z → (Z.of_nat (length m2) < 2 ^ 61)%Z →
  Main.padded (U := UtilsImpl.exports) m1
  = Main.padded (U := UtilsImpl.exports) m2 →
  m1 = m2
  ∧ Main.message_bits (U := UtilsImpl.exports) m1
    = Ok (Padder.byte_bits m1)
  ∧ Bytes.decode (Padder.byte_bits m1) = m1.
Proof.
  intros H1 H2 Hl1 Hl2 Heq. split; [by apply padded_bytes_inj|].
  split; [by apply Padder.message_bits_bytes|by apply Bytes.decode_byte_bits].
Qed.

Lemma padded_injective_witness :
  str "abc" = str "abc"
  ∧ Main.message_bits (U := UtilsImpl.exports) (str "abc")
    = Ok (Padder.byte_bits (str "abc"))
  ∧ Bytes.decode (Padder.byte_bits (str "abc")) = str "abc".
Proof.
  apply (padded_injective (str "abc") (str "abc"));
    [vm_decide | vm_decide | reflexivity | reflexivity | reflexivity].
Defined.

End Refinement.
