(* ===== verification/Program.v ===== *)
(** * The program: [Main.sha1] over the [Utils] object of the file

    [Main] is parametric in the [Utils] object; the program of
    src/javascript/main.js is its instance at [UtilsImpl.exports], which
    meets the contract ([UtilsImpl.exports_laws]).  This file states what
    that program computes:

    - on every string of bytes it returns the SHA-1 digest of the
      specification, in hexadecimal ([sha1_correct]);
    - on every string of code units, bytes or not, it returns the SHA-1
      digest of the bit string steps 1 to 5 build ([sha1_bit_string]),
      forty hexadecimal characters ([sha1_is_digest]); a character from
      2^15 on has the bit string, hence the digest, of the two characters
      of its bytes ([wide_unit_collision]);
    - on the standard test messages the definitions evaluate to the
      published digests ([sha1_known_answers], a test of the definitions
      and not a property); the third one spans two chunks, the message
      being long enough for the padding to spill over. *)

From S2P Require Import Prelude JsRuntime Bits Utils Main Padder Sha1Spec.
From S2P Require Import Bytes BitString Finalizer Refinement.

Module Program.

(** [Main.sha1] as the script calls it. *)
Definition sha1 (str : jsstr) : result jsstr :=
  Main.sha1 (U := UtilsImpl.exports) str.

(** What line 385 logs: [console.log(Main.sha1('Hello World'))]. *)
Definition logged : result jsstr := sha1 (str "Hello World").

(** C1: on a string whose code units are bytes, shorter than 2^61
    characters, the program returns without error the hexadecimal form of
    the SHA-1 digest that the specification (padding, splitting into
    blocks, schedule expansion, 80 rounds per block, finalization) assigns
    to those bytes. *)
Theorem sha1_correct (msg : jsstr) :
  Forall Padder.is_byte msg → (Z.of_nat (length msg) < 2 ^ 61)%Z →
  ∃ digest, Spec.sha1 (Bytes.bytes_of msg) = Some digest
            ∧ sha1 msg = Ok (Spec.hex_of_bytes digest).
Proof. apply Refinement.sha1_refines_spec. Qed.

Lemma sha1_correct_witness :
  ∃ digest, Spec.sha1 (Bytes.bytes_of (str "abc")) = Some digest
            ∧ sha1 (str "abc") = Ok (Spec.hex_of_bytes digest).
Proof. apply sha1_correct; [vm_decide | reflexivity]. Defined.

(** C2: on every string of UTF-16 code units, bytes or not, shorter than
    2^60 characters, the program returns without error the hexadecimal
    form of the SHA-1 digest, as FIPS 180 defines it on messages of bits,
    of the bit string steps 1 to 5 build: the binary numeral of every code
    unit, padded to eight digits when it is shorter. *)
Theorem sha1_bit_string (msg : jsstr) :
  Forall Padder.is_code_unit msg → (Z.of_nat (length msg) < 2 ^ 60)%Z →
  sha1 msg
  = Ok (Spec.hex_of_bytes
          (Spec.bit_sha1 (BitString.bools (Padder.unit_bits msg)))).
Proof. apply Refinement.sha1_units_bits. Qed.

Lemma sha1_bit_string_witness :
  sha1 [72; 8364; 33]%N
  = Ok (Spec.hex_of_bytes
          (Spec.bit_sha1
             (BitString.bools (Padder.unit_bits [72; 8364; 33]%N)))).
Proof. apply sha1_bit_string; [vm_decide | reflexivity]. Defined.

(** C28: strings that are not made of bytes collide.  A code unit from
    2^15 on is written on sixteen binary digits, which are the digits of
    its two bytes: the string of that one character and the string of the
    two characters whose codes are these bytes are different strings with
    the same digest, as the character of code 0xE282 and the two
    characters of codes 0xE2 and 0x82. *)
Theorem wide_unit_collision (hi lo : char) :
  (128 ≤ hi < 256)%N → (lo < 256)%N →
  sha1 [(hi * 256 + lo)%N] = sha1 [hi; lo]
  ∧ [(hi * 256 + lo)%N] ≠ [hi; lo].
Proof.
  intros Hhi Hlo. split; [|done]. apply Refinement.sha1_message_bits.
  by rewrite !Padder.message_bits_pad8, Padder.unit_bits_two_bytes.
Qed.

Lemma wide_unit_collision_witness :
  sha1 [(226 * 256 + 130)%N] = sha1 [226; 130]%N
  ∧ [(226 * 256 + 130)%N] ≠ [226; 130]%N.
Proof. apply wide_unit_collision; lia. Defined.

(** Known answers, as tests of the definitions: the program maps the
    messages of FIPS 180 to their digests: "abc", the empty string (whose
    padded message is the single chunk made of the '1', 447 zeros and a
    zero length) and the message of 56 bytes, which no longer fits one
    chunk with its padding and is processed as two. *)
Example sha1_known_answers :
  sha1 (str "abc") = Ok (str "a9993e364706816aba3e25717850c26c9cd0d89d")
  ∧ sha1 [] = Ok (str "da39a3ee5e6b4b0d3255bfef95601890afd80709")
  ∧ sha1 (str "abcdbcdecdefdefgefghfghighijhijkijkljklmklmnlmnomnopnopq")
    = Ok (str "84983e441c3bd26ebaae4aa1f95129e5e54670f1").
Proof. repeat split; vm_compute; reflexivity. Qed.

(** C30: on every string of UTF-16 code units, bytes or not, shorter than
    2^60 characters, the program cannot throw, and what it returns is a
    digest: exactly forty characters, each one of '0'-'9' or 'a'-'f'. *)
Theorem sha1_is_digest (msg : jsstr) :
  Forall Padder.is_code_unit msg → (Z.of_nat (length msg) < 2 ^ 60)%Z →
  ∃ d, sha1 msg = Ok d ∧ Finalizer.is_digest d.
Proof. apply Refinement.sha1_units_digest. Qed.

Lemma sha1_is_digest_witness :
  ∃ d, sha1 [72; 8364; 33]%N = Ok d ∧ Finalizer.is_digest d.
Proof. apply sha1_is_digest; [vm_decide | reflexivity]. Defined.

(** The value the script passes to [console.log] is the digest of
    "Hello World", 0a4d55a8 d778e502 2fab7019 77c5d840 bbc486d0; the
    script as a whole is in [Script]. *)
Example logged_hello_world :
  logged = Ok (str "0a4d55a8d778e5022fab701977c5d840bbc486d0").
Proof. vm_compute. reflexivity. Qed.

End Program.
