(* ===== verification/Extension.v ===== *)
(** * Resuming the computation: the digest of an extended message

    Step 13 is a left fold over the chunks: [h0] to [h4] are all that one
    chunk hands to the next, and step 14 prints them.  So the digest of a
    message gives the registers back ([resume]), and whoever knows the
    digest and the length of a message [m] of bytes computes, without
    [m], the digest of [m] followed by its padding ([glue]) and by any
    further bytes ([extend]): [length_extension].  A digest of
    [Main.sha1] over a secret followed by data does not authenticate the
    data; two messages of one length and one digest keep one digest under
    every such extension ([same_digest_extends]).

    The file also holds the lemmas this rests on: the padded message of
    the extended message starts with the padded message of [m]
    ([padded_extended]), the chunks of a string that follows whole chunks
    are cut independently of them ([chunks_app_whole], [expanded_app]),
    and the fold of step 13 continues from the registers the first part
    leaves ([step13_app]).  None of the definitions of this file is code of
    the repository: they are the computation of someone who holds a digest,
    written with the steps of [Main]. *)

From S2P Require Import Prelude JsRuntime Bits Utils Main Padder Sha1Spec.
From S2P Require Import Bytes Splitter Expander Compressor Finalizer.
From S2P Require Import Refinement Program.

Module Extension.

Local Open Scope Z_scope.

(** ** Definitions *)

(** What the specification appends to a message of [len] bytes: 0x80,
    zero bytes up to 56 modulo 64, the bit length on eight bytes. *)
Definition padding (len : nat) : list Z :=
  [128] ++ replicate (Z.to_nat ((55 - Z.of_nat len) mod 64)) 0
        ++ Spec.be_bytes 8 ((8 * Z.of_nat len) mod 2 ^ 64).

(** The same as characters: a message followed by [glue] has, as its bit
    string, the padded message. *)
Definition glue (len : nat) : jsstr := Z.to_N <$> padding len.

(** The number of bytes of a message of [len] bytes, its padding and
    [n] more. *)
Definition extended_length (len n : nat) : nat :=
  (len + length (glue len) + n)%nat.

(** The characters step 8 returns after those of the padded message of
    the first [len] bytes, when [x] follows their padding. *)
Definition tail_bits (len : nat) (x : jsstr) : jsstr :=
  let n := extended_length len (length x) in
  Padder.byte_bits x ++ [ch1]
    ++ replicate (Padder.zero_count (8 * n + 1)) ch0
    ++ enc 64 (8 * Z.of_nat n).

(** A word of the digest read back: [parseInt(s, 16)] on 32 binary
    characters. *)
Definition word_of_hex (s : jsstr) : jsstr :=
  match parseInt s 16 with
  | Num n => enc 32 (Z.of_N n)
  | _ => enc 32 0
  end.

(** The registers a digest prints. *)
Definition resume (d : jsstr) : Main.hstate :=
  match chunks 8 d with
  | [x0; x1; x2; x3; x4] =>
      Main.HState (word_of_hex x0) (word_of_hex x1) (word_of_hex x2)
                  (word_of_hex x3) (word_of_hex x4)
  | _ => Main.step12_init
  end.

(** The schedules of a padded message of whole chunks: the words of
    every chunk, extended as the specification extends them. *)
Definition expanded (padded : jsstr) : list (list jsstr) :=
  (λ ws, enc 32 <$> Spec.expand (val <$> ws))
    <$> (chunks 32 <$> chunks 512 padded).

Section extension.
Context {U : Utils.Ops}.

(** Steps 9 to 11 on a padded message. *)
Definition blocks (padded : jsstr) : result (list (list jsstr)) :=
  step9 ← Main.step9_split_512b_chunks padded;
  step10 ← Main.step10_split_32b_words step9;
  Main.step11_80_words_per_chunk step10.

(** The digest of the message of [len] bytes whose digest is [d],
    followed by its padding and by [x]: steps 9 to 14 on the last chunks,
    from the registers of [d]. *)
Definition extend (d : jsstr) (len : nat) (x : jsstr) : result jsstr :=
  ws ← blocks (tail_bits len x);
  h ← foldlM Main.process_chunk (resume d) ws;
  Main.step14_finalize h.

End extension.

(** ** The padding as characters *)

Lemma pad_padding bs : Spec.pad bs = bs ++ padding (length bs).
Proof. done. Qed.

Lemma padding_word len : Forall (word 8) (padding len).
Proof.
  unfold padding. rewrite !Forall_app. split_and!.
  - by apply Forall_singleton.
  - by apply Forall_replicate.
  - apply Bytes.be_bytes_word.
Qed.

Lemma bytes_of_glue len : Bytes.bytes_of (glue len) = padding len.
Proof.
  unfold Bytes.bytes_of, glue.
  apply (fmap_cancel (word 8)); [|apply padding_word].
  intros z [Hz _]. by apply Z2N.id.
Qed.

Lemma glue_bytes len : Forall Padder.is_byte (glue len).
Proof.
  apply Forall_fmap. eapply Forall_impl; [apply padding_word|].
  intros z [Hz Hlt]. unfold Padder.is_byte. simpl in *. lia.
Qed.

(** Between 9 and 72 characters, up to the next multiple of 64. *)
Lemma glue_length len :
  (9 ≤ length (glue len) ≤ 72)%nat
  ∧ ((len + length (glue len)) mod 64 = 0)%nat.
Proof.
  unfold glue, padding. rewrite length_fmap, !length_app, length_replicate.
  unfold Spec.be_bytes. rewrite length_fmap, length_seq. simpl length.
  pose proof (Z.mod_pos_bound (55 - Z.of_nat len) 64 ltac:(lia)) as Hm.
  split; [lia|]. apply Nat2Z.inj.
  rewrite Nat2Z.inj_mod, !Nat2Z.inj_add, Z2Nat.id by lia.
  rewrite (Z.mod_eq (55 - Z.of_nat len) 64) by lia.
  replace (Z.of_nat len + _) with ((1 - (55 - Z.of_nat len) / 64) * 64)
    by lia.
  apply Z_mod_mult.
Qed.

Lemma extended_bytes (m x : jsstr) :
  Forall Padder.is_byte m → Forall Padder.is_byte x →
  Forall Padder.is_byte (m ++ glue (length m) ++ x).
Proof.
  intros Hm Hx. rewrite !Forall_app. split_and!; [done|apply glue_bytes|done].
Qed.

Lemma extended_length_app (m x : jsstr) :
  length (m ++ glue (length m) ++ x)
  = extended_length (length m) (length x).
Proof. rewrite !length_app. unfold extended_length. lia. Qed.

Lemma byte_bits_app (m x : jsstr) :
  Padder.byte_bits (m ++ x) = Padder.byte_bits m ++ Padder.byte_bits x.
Proof. unfold Padder.byte_bits. by rewrite fmap_app, concat_app. Qed.

(** ** Chunks of a concatenation *)

Lemma chunks_app_whole {A} (n k : nat) (l t : list A) :
  (0 < n)%nat → length l = (k * n)%nat →
  chunks n (l ++ t) = chunks n l ++ chunks n t.
Proof.
  intros Hn. revert l. induction k as [|k IH]; intros l Hl.
  - apply nil_length_inv in Hl as ->. by rewrite chunks_nil.
  - rewrite <-(take_drop n l), <-app_assoc.
    assert (length (take n l) = n) as Htake by (rewrite length_take; lia).
    rewrite (chunks_app n Hn _ (drop n l ++ t)), (chunks_app n Hn _ (drop n l))
      by done.
    by rewrite IH by (rewrite length_drop; lia).
Qed.

Lemma expanded_app k (s1 s2 : jsstr) :
  length s1 = (k * 512)%nat → expanded (s1 ++ s2) = expanded s1 ++ expanded s2.
Proof.
  intros H1. unfold expanded.
  by rewrite (chunks_app_whole 512 k), !fmap_app by (lia || done).
Qed.

Lemma expanded_schedule k (s : jsstr) :
  bits (k * 512) s → Forall Compressor.schedule (expanded s).
Proof.
  intros Hs. apply Forall_fmap.
  destruct (Splitter.blocks_shape k s Hs) as [_ Hcs].
  eapply Forall_impl; [done|].
  intros c [Hlen Hws]. split; [|apply enc_list_bits].
  rewrite length_fmap. apply Spec.expand_length. by rewrite length_fmap.
Qed.

(** ** The registers of a digest *)

Lemma word_of_hex_hex z : word_of_hex (hex 8 z) = enc 32 z.
Proof.
  unfold word_of_hex. rewrite parseInt_hex by lia.
  rewrite Z2N.id by (apply Z.mod_pos_bound; lia). apply (enc_mod 32).
Qed.

Lemma resume_digest s :
  resume (Spec.hex_of_bytes (Spec.finalize s)) = Compressor.enc_state s.
Proof.
  rewrite Finalizer.hex_finalize. unfold resume.
  rewrite <-(app_nil_r (hex 8 (Spec.H4 s))).
  change (chunks 8 ?l) with
    (chunks 8 (concat [hex 8 (Spec.H0 s); hex 8 (Spec.H1 s);
                       hex 8 (Spec.H2 s); hex 8 (Spec.H3 s);
                       hex 8 (Spec.H4 s)])).
  rewrite chunks_concat by (lia || (repeat constructor; apply hex_length)).
  by rewrite !word_of_hex_hex.
Qed.

Section extension_lemmas.
Context {U : Utils.Ops} {L : Utils.Laws U}.

(** The padded message of a message of bytes is the bit string of the
    message followed by [glue]. *)
Lemma padded_glued (m : jsstr) :
  Forall Padder.is_byte m → Z.of_nat (length m) < 2 ^ 61 →
  Main.padded m = Ok (Padder.byte_bits (m ++ glue (length m))).
Proof.
  intros Hm Hlen. rewrite Refinement.padded_pad by done.
  rewrite pad_padding, Bytes.bytes_of_length, <-bytes_of_glue.
  unfold Bytes.bytes_of. by rewrite <-fmap_app, Bytes.bits_of_bytes_of.
Qed.

(** The padded message of the extended message: that of [m], then the
    last chunks. *)
Lemma padded_extended (m x p : jsstr) :
  Forall Padder.is_byte m → Forall Padder.is_byte x →
  Z.of_nat (extended_length (length m) (length x)) < 2 ^ 61 →
  Main.padded m = Ok p →
  Main.padded (m ++ glue (length m) ++ x)
  = Ok (p ++ tail_bits (length m) x).
Proof.
  intros Hm Hx Hlen.
  rewrite padded_glued by (done || unfold extended_length in Hlen; lia).
  intros [= <-].
  rewrite Padder.padded_bytes, extended_length_app
    by (by apply extended_bytes || by rewrite extended_length_app).
  by rewrite !byte_bits_app, <-!app_assoc.
Qed.

(** Both parts are whole chunks of binary characters. *)
Lemma padded_tail (m x : jsstr) :
  Forall Padder.is_byte m → Forall Padder.is_byte x →
  Z.of_nat (extended_length (length m) (length x)) < 2 ^ 61 →
  ∃ p k1 k2,
    Main.padded m = Ok p
    ∧ Main.padded (m ++ glue (length m) ++ x)
      = Ok (p ++ tail_bits (length m) x)
    ∧ bits (k1 * 512) p ∧ bits (k2 * 512) (tail_bits (length m) x).
Proof.
  intros Hm Hx Hlen.
  destruct (Padder.padded_bytes_count m Hm) as (p & Hp & Hl1 & Hb1);
    [unfold extended_length in Hlen; lia|].
  destruct (Padder.padded_bytes_count (m ++ glue (length m) ++ x))
    as (q & Hq & Hl & Hb);
    [by apply extended_bytes | by rewrite extended_length_app |].
  pose proof (padded_extended m x p Hm Hx Hlen Hp) as Hpx.
  rewrite Hpx in Hq. injection Hq as <-.
  revert Hl1 Hl. rewrite length_app.
  generalize ((length m + 8) `div` 64 + 1)%nat
    ((length (m ++ glue (length m) ++ x) + 8) `div` 64 + 1)%nat.
  intros k1 k Hl1 Hl. exists p, k1, (k - k1)%nat.
  apply Forall_app in Hb as [_ Hb]. split_and!; try done.
  split; [lia|done].
Qed.

(** Steps 9 to 11 on whole chunks of binary characters. *)
Lemma blocks_expand k (s : jsstr) :
  bits (k * 512) s → blocks s = Ok (expanded s).
Proof.
  intros Hs. unfold blocks. rewrite Splitter.step9_chunks.
  cbn [mbind result_bind]. rewrite Splitter.step10_words.
  cbn [mbind result_bind].
  by rewrite Expander.step11_expand by (by apply (Splitter.blocks_shape k)).
Qed.

(** The digest as steps 9 to 14 on the padded message. *)
Lemma sha1_blocks (msg : jsstr) :
  Main.sha1 msg
  = p ← Main.padded msg; ws ← blocks p; h ← Main.step13_process ws;
    Main.step14_finalize h.
Proof.
  unfold Main.sha1, blocks, Main.padded, Main.message_bits. by case_bind.
Qed.

(** Step 13 on the schedules of two strings of whole chunks, one after
    the other, continues from the registers the first leaves. *)
Lemma step13_app k (s1 s2 : jsstr) :
  length s1 = (k * 512)%nat →
  Main.step13_process (expanded (s1 ++ s2))
  = h ← Main.step13_process (expanded s1);
    foldlM Main.process_chunk h (expanded s2).
Proof.
  intros H1. unfold Main.step13_process.
  by rewrite (expanded_app k), foldlM_app.
Qed.

(** What step 14 prints gives the registers back. *)
Lemma resume_step14 h d :
  Compressor.bits_state h → Main.step14_finalize h = Ok d → resume d = h.
Proof.
  intros Hh. rewrite <-(Compressor.enc_val_state h) by done.
  rewrite Finalizer.step14_enc. intros [= <-]. apply resume_digest.
Qed.

(** The digest of the extended message, from the digest of [m]. *)
Lemma sha1_extend (m x d : jsstr) :
  Forall Padder.is_byte m → Forall Padder.is_byte x →
  Z.of_nat (extended_length (length m) (length x)) < 2 ^ 61 →
  Main.sha1 m = Ok d →
  Main.sha1 (m ++ glue (length m) ++ x) = extend d (length m) x.
Proof.
  intros Hm Hx Hlen.
  destruct (padded_tail m x Hm Hx Hlen) as (p & k1 & k2 & Hp & Hpx & H1 & H2).
  rewrite !sha1_blocks, Hp, Hpx. cbn [mbind result_bind].
  rewrite (blocks_expand k1), (blocks_expand (k1 + k2)) by
    (done || (rewrite Nat.mul_add_distr_r; by apply bits_app)).
  cbn [mbind result_bind]. rewrite (step13_app k1) by apply H1.
  destruct (Compressor.step13_total (expanded p)) as (h & -> & Hh);
    [by apply (expanded_schedule k1)|].
  cbn [mbind result_bind]. intros Hd. unfold extend.
  rewrite (blocks_expand k2) by done. cbn [mbind result_bind].
  by rewrite (resume_step14 h d).
Qed.

(** The extension returns: its result is the digest the program returns
    on the extended message. *)
Lemma extend_digest (m x d : jsstr) :
  Forall Padder.is_byte m → Forall Padder.is_byte x →
  Z.of_nat (extended_length (length m) (length x)) < 2 ^ 61 →
  Main.sha1 m = Ok d →
  ∃ d', Main.sha1 (m ++ glue (length m) ++ x) = Ok d'
        ∧ extend d (length m) x = Ok d'.
Proof.
  intros Hm Hx Hlen Hd.
  destruct (Refinement.sha1_refines_spec (m ++ glue (length m) ++ x))
    as (dg & _ & Hs);
    [by apply extended_bytes | by rewrite extended_length_app |].
  eexists. split; [done|]. by rewrite <-(sha1_extend m x d).
Qed.

(** Two messages of one length and one digest have one digest under
    every extension: a collision extends. *)
Lemma same_digest_extends (m1 m2 x d : jsstr) :
  Forall Padder.is_byte m1 → Forall Padder.is_byte m2 →
  Forall Padder.is_byte x → length m1 = length m2 →
  Z.of_nat (extended_length (length m1) (length x)) < 2 ^ 61 →
  Main.sha1 m1 = Ok d → Main.sha1 m2 = Ok d →
  Main.sha1 (m1 ++ glue (length m1) ++ x)
  = Main.sha1 (m2 ++ glue (length m2) ++ x).
Proof.
  intros H1 H2 Hx Heq Hlen Hd1 Hd2.
  rewrite (sha1_extend m1 x d), (sha1_extend m2 x d) by (done || by rewrite <-Heq).
  by rewrite Heq.
Qed.

End extension_lemmas.

(** ** The program *)

(** C26: length extension.  From the digest [d] and the length of a
    message [m] of bytes, without [m], [extend] computes the digest the
    program returns on [m] followed by its padding (the byte 0x80, zero
    bytes, the bit length on eight bytes) and by any bytes [x]: it reads
    h0 to h4 back from the forty characters of [d] and runs steps 9 to 14
    on the last chunks only.  The registers are all that step 13 keeps
    from one chunk to the next, and step 14 prints them. *)
Theorem length_extension (m x d : jsstr) :
  Forall Padder.is_byte m → Forall Padder.is_byte x →
  Z.of_nat (extended_length (length m) (length x)) < 2 ^ 61 →
  Program.sha1 m = Ok d →
  ∃ d', Program.sha1 (m ++ glue (length m) ++ x) = Ok d'
        ∧ extend (U := UtilsImpl.exports) d (length m) x = Ok d'.
Proof. apply extend_digest. Qed.

Lemma length_extension_witness :
  ∃ d', Program.sha1 (str "abc" ++ glue 3 ++ str "def") = Ok d'
        ∧ extend (U := UtilsImpl.exports)
            (str "a9993e364706816aba3e25717850c26c9cd0d89d") 3 (str "def")
          = Ok d'.
Proof.
  apply (length_extension (str "abc") (str "def"));
    [vm_decide | vm_decide | reflexivity | vm_compute; reflexivity].
Defined.

(** The digest of "abc", its 61 characters of padding and "def", from the
    digest of "abc" alone: one chunk is processed instead of two. *)
Example extend_abc_def :
  extend (U := UtilsImpl.exports)
    (str "a9993e364706816aba3e25717850c26c9cd0d89d") 3 (str "def")
  = Ok (str "e17be75b08a7e926498da4bc47f3cb6e1f20b125")
  ∧ length (glue 3) = 61%nat.
Proof. split; vm_compute; reflexivity. Qed.

End Extension.
