(* ===== verification/Draft.v ===== *)
(** * The draft: src/unnamed/part_000

    An earlier version of main.js that stops after step 12 ("TODO: Finish
    implementation!") and returns the words of every chunk instead of a
    digest.  Its [Utils] object has three functions ([Draft.Ops]), whose
    code is that of main.js; steps 1 to 10 are those of main.js; steps 11
    and 12 differ:

    - step 11 pushes the exclusive-or of the four words without rotating
      it ([Draft.expand_loop]);
    - step 12 rotates every word of every chunk by one, the first sixteen
      included ([Draft.step12_rotate_words]).

    The theorems show that the draft never throws on a string of code
    units and returns chunks of 80 words, what these words are on
    well-formed chunks ([xor_extend], then a rotation of every word) and,
    end to end, on the blocks of a padded string of bytes
    ([draft_refines]), and that this is not the schedule of SHA-1, which
    main.js computes.  Steps 1 to 10 are the code of main.js, so their
    definitions are those of [Main] ([words_main], by conversion). *)

From S2P Require Import Prelude JsRuntime Bits Utils Main Padder Sha1Spec.
From S2P Require Import Bytes Splitter Expander Refinement.

Module Draft.

(** The object the draft's [Utils] closure returns (lines 66-70). *)
Class Ops : Type := {
  getStringXTime : jsstr → Z → result jsstr;
  xor : jsstr → jsstr → jsstr;
  rotate : jsstr → nat → jsstr;
}.

Section sha1.
Context {U : Ops}.

Definition step1_split (str : jsstr) : list char := str.

Definition step2_to_ascii_code (step1_split : list char) : list jsnum :=
  (λ c, Num c) <$> step1_split.

Definition step3_ascii_binary (step2_to_ascii_code : list jsnum)
    : list jsstr :=
  (λ c, Number_toString c 2) <$> step2_to_ascii_code.

Definition step4_ascii_binary_8_length (step3_ascii_binary : list jsstr)
    : result (list jsstr) :=
  mapM (λ c : jsstr,
    if decide (length c < 8) then
      zeros ← getStringXTime [ch0] (8 - Z.of_nat (length c));
      Ok (zeros ++ c)
    else Ok c) step3_ascii_binary.

Definition step5_combine_str (step4_ascii_binary_8_length : list jsstr)
    : jsstr :=
  concat step4_ascii_binary_8_length.

Definition step6_append_1 (step5_combine_str : jsstr) : jsstr :=
  step5_combine_str ++ [ch1].

Definition step7_modulo_512_is_448 (str : jsstr) : result jsstr :=
  let currentModulo := length str mod 512 in
  if decide (currentModulo < 448) then
    zeros ← getStringXTime [ch0] (448 - Z.of_nat currentModulo);
    Ok (str ++ zeros)
  else if decide (448 < currentModulo) then
    zeros ← getStringXTime [ch0] (512 - Z.of_nat currentModulo + 448);
    Ok (str ++ zeros)
  else Ok str.

Definition step5BinaryLength (step5_length : N) : result jsstr :=
  let step5BinaryLength := Number_toString (Num step5_length) 2 in
  zeros ← getStringXTime [ch0] (64 - Z.of_nat (length step5BinaryLength));
  Ok (zeros ++ step5BinaryLength).

Definition step8_append_step5_length (str step5 : jsstr) : result jsstr :=
  step5BinaryLength ← step5BinaryLength (N.of_nat (length step5));
  Ok (str ++ step5BinaryLength).

(** The [while (str.length > 0)] loops of steps 9 and 10. *)
Fixpoint substr_loop (fuel : nat) (size : nat) (str : jsstr)
    (chunks : list jsstr) : result (list jsstr) :=
  match fuel with
  | O => Err OutOfFuel
  | S fuel' =>
      if decide (0 < length str) then
        substr_loop fuel' size (substr str (Z.of_nat size) None)
          (chunks ++ [substr str 0 (Some (Z.of_nat size))])
      else Ok chunks
  end.

Definition step9_split_512b_chunks (str : jsstr) : result (list jsstr) :=
  substr_loop (S (length str)) 512 str [].

Definition step10_split_32b_words (step9_split_512b_chunks : list jsstr)
    : result (list (list jsstr)) :=
  mapM (λ chunk, substr_loop (S (length chunk)) 32 chunk [])
       step9_split_512b_chunks.

(** [for (var j = 16; words.length < 80; j++)]: the new word is pushed
    as the three calls of [Utils.xor] leave it. *)
Fixpoint expand_loop (fuel : nat) (j : nat) (words : list jsstr)
    : result (list jsstr) :=
  match fuel with
  | O => Err OutOfFuel
  | S fuel' =>
      if decide (length words < 80) then
        w3 ← Main.word_at words (j - 3);
        w8 ← Main.word_at words (j - 8);
        let tmp := xor w3 w8 in
        w14 ← Main.word_at words (j - 14);
        let tmp := xor tmp w14 in
        w16 ← Main.word_at words (j - 16);
        let tmp := xor tmp w16 in
        expand_loop fuel' (S j) (words ++ [tmp])
      else Ok words
  end.

Definition step11_80_words_per_chunk (chunks : list (list jsstr))
    : result (list (list jsstr)) :=
  mapM (expand_loop 81 16) chunks.

(** Step 12: every word of every chunk rotated once. *)
Definition step12_rotate_words (step11_80_words_per_chunk : list (list jsstr))
    : list (list jsstr) :=
  (λ chunk : list jsstr, (λ word, rotate word 1) <$> chunk)
    <$> step11_80_words_per_chunk.

(** Steps 1 to 10: the words of the padded message. *)
Definition words (str : jsstr) : result (list (list jsstr)) :=
  let step1 := step1_split str in
  let step2 := step2_to_ascii_code step1 in
  let step3 := step3_ascii_binary step2 in
  step4 ← step4_ascii_binary_8_length step3;
  let step5 := step5_combine_str step4 in
  let step6 := step6_append_1 step5 in
  step7 ← step7_modulo_512_is_448 step6;
  step8 ← step8_append_step5_length step7 step5;
  step9 ← step9_split_512b_chunks step8;
  step10_split_32b_words step9.

Definition sha1 (str : jsstr) : result (list (list jsstr)) :=
  step10 ← words str;
  step11 ← step11_80_words_per_chunk step10;
  Ok (step12_rotate_words step11).

End sha1.

End Draft.

(** ** The functions of the draft's [Utils] *)

Module DraftImpl.

Definition getStringXTime (str : jsstr) (count : Z) : result jsstr :=
  arr ← new_Array (count + 1); Ok (Array_join str arr).

Definition xor (w1 w2 : jsstr) : jsstr :=
  let bits1 := w1 in
  let bits2 := w2 in
  (λ i, if bool_decide (bits1 !! i ≠ bits2 !! i)
           && (bool_decide (bits1 !! i = Some ch1)
               || bool_decide (bits2 !! i = Some ch1))
        then ch1 else ch0)
  <$> seq 0 (length w1 `max` length w2).

Fixpoint rotate (str : jsstr) (count : nat) : jsstr :=
  match count with
  | O => str
  | S count' =>
      let arr := match str with [] => [] | c :: arr => arr ++ [c] end in
      rotate arr count'
  end.

#[global] Instance exports : Draft.Ops := {|
  Draft.getStringXTime := getStringXTime;
  Draft.xor := xor;
  Draft.rotate := rotate;
|}.

(** [Main.sha1] of the draft as its last line calls it, and what that
    line logs: [console.log(Main.sha1('A Test'))]. *)
Definition sha1 (s : jsstr) : result (list (list jsstr)) :=
  Draft.sha1 (U := exports) s.

Definition logged : result (list (list jsstr)) := sha1 (str "A Test").

(** ** What the draft computes on words

    The recurrence of step 11 without the rotation, on integers. *)

Local Open Scope Z_scope.

Definition xor_word (w : list Z) : Z :=
  let t := length w in
  Z.lxor (Z.lxor (Z.lxor (w !!! (t - 3)%nat) (w !!! (t - 8)%nat))
                 (w !!! (t - 14)%nat))
         (w !!! (t - 16)%nat).

Definition xor_extend (n : nat) (w : list Z) : list Z :=
  extend_with xor_word n w.

(** The 80 words the draft returns for a chunk: the extension, every word
    rotated by one. *)
Definition draft_words (ws : list jsstr) : list jsstr :=
  enc 32 <$> (rotl 32 1 <$> xor_extend 64 (val <$> ws)).

(** ** The draft and main.js *)

Lemma xor_eq : xor = UtilsImpl.xor.
Proof. reflexivity. Qed.

Lemma rotate_eq : rotate = UtilsImpl.rotate.
Proof. reflexivity. Qed.

Lemma xor_word_word (w : list Z) : Forall (word 32) w → word 32 (xor_word w).
Proof.
  intros Hw. unfold xor_word.
  assert (∀ i, word 32 (w !!! i)) as Hi.
  { intros i. destruct (w !! i) as [x|] eqn:Hx.
    - rewrite (list_lookup_total_correct _ _ _ Hx).
      by eapply Forall_lookup_1.
    - by rewrite list_lookup_total_alt, Hx. }
  auto 6 with bits.
Qed.

(** The word one iteration of step 11 pushes. *)
Lemma xor_word_enc (ws : list jsstr) w3 w8 w14 w16 :
  Forall (bits 32) ws →
  ws !! (length ws - 3)%nat = Some w3 → ws !! (length ws - 8)%nat = Some w8 →
  ws !! (length ws - 14)%nat = Some w14 →
  ws !! (length ws - 16)%nat = Some w16 →
  xor (xor (xor w3 w8) w14) w16 = enc 32 (xor_word (val <$> ws)).
Proof.
  intros Hws H3 H8 H14 H16. rewrite xor_eq.
  pose proof (Forall_lookup_1 _ _ _ _ Hws H3).
  pose proof (Forall_lookup_1 _ _ _ _ Hws H8).
  pose proof (Forall_lookup_1 _ _ _ _ Hws H14).
  pose proof (Forall_lookup_1 _ _ _ _ Hws H16).
  rewrite (UtilsImpl.xor_enc 32 w3 w8) by done.
  rewrite (UtilsImpl.xor_enc 32 _ w14) by auto with bits.
  rewrite (UtilsImpl.xor_enc 32 _ w16) by auto with bits.
  rewrite !val_enc_word by auto 6 with bits.
  unfold xor_word. rewrite length_fmap.
  by rewrite (fmap_lookup_total val ws _ w3), (fmap_lookup_total val ws _ w8),
    (fmap_lookup_total val ws _ w14), (fmap_lookup_total val ws _ w16).
Qed.

Lemma draft_expand_step fuel (ws : list jsstr) :
  Forall (bits 32) ws → (16 ≤ length ws < 80)%nat →
  Draft.expand_loop (S fuel) (length ws) ws
  = Draft.expand_loop fuel (S (length ws))
      (ws ++ [enc 32 (xor_word (val <$> ws))]).
Proof.
  intros Hws Hlen. simpl. case_decide; [|lia].
  destruct (lookup_lt_is_Some_2 ws (length ws - 3)) as [w3 H3]; [lia|].
  destruct (lookup_lt_is_Some_2 ws (length ws - 8)) as [w8 H8]; [lia|].
  destruct (lookup_lt_is_Some_2 ws (length ws - 14)) as [w14 H14]; [lia|].
  destruct (lookup_lt_is_Some_2 ws (length ws - 16)) as [w16 H16]; [lia|].
  unfold Main.word_at. rewrite H3, H8, H14, H16.
  cbn [mbind result_bind]. by rewrite (xor_word_enc ws w3 w8 w14 w16).
Qed.

Lemma expand_loop_xor_extend fuel (ws : list jsstr) :
  Forall (bits 32) ws → (16 ≤ length ws)%nat → (80 - length ws < fuel)%nat →
  Draft.expand_loop fuel (length ws) ws
  = Ok (enc 32 <$> xor_extend (80 - length ws) (val <$> ws)).
Proof.
  revert ws. induction fuel as [|fuel IH]; intros ws Hws Hlen Hfuel; [lia|].
  destruct (decide (length ws < 80)%nat) as [Hlt|Hge].
  - rewrite draft_expand_step by (done || lia).
    replace (S (length ws))
      with (length (ws ++ [enc 32 (xor_word (val <$> ws))]))
      by (len; simpl; lia).
    rewrite IH.
    + rewrite length_app. simpl length.
      replace (80 - length ws)%nat with (S (80 - (length ws + 1))) by lia.
      unfold xor_extend. rewrite extend_with_S, fmap_app. simpl fmap.
      by rewrite val_enc_word by (apply xor_word_word; auto with bits).
    + apply Forall_app. split; [done|]. constructor; auto with bits.
    + len; simpl; lia.
    + len; simpl; lia.
  - simpl. case_decide; [lia|].
    replace (80 - length ws)%nat with 0%nat by lia.
    change (xor_extend 0 (val <$> ws)) with (val <$> ws).
    by rewrite enc_val_list.
Qed.

Lemma xor_extend_word n w : Forall (word 32) w → Forall (word 32) (xor_extend n w).
Proof. apply extend_with_Forall. apply xor_word_word. Qed.

(** Step 11 of the draft on well-formed chunks. *)
Lemma draft_step11 (chunks : list (list jsstr)) :
  Forall Splitter.chunk chunks →
  Draft.step11_80_words_per_chunk chunks
  = Ok ((λ ws, enc 32 <$> xor_extend 64 (val <$> ws)) <$> chunks).
Proof.
  intros Hcs. apply mapM_Ok_ext. eapply Forall_impl; [done|].
  intros ws [Hlen Hws]. cbv beta.
  pose proof (expand_loop_xor_extend 81 ws Hws) as H.
  rewrite Hlen in H. apply H; lia.
Qed.

(** The rotation of step 12 on a list of encoded words. *)
Lemma rotate_enc_list (zs : list Z) :
  Forall (word 32) zs →
  (λ word, rotate word 1) <$> (enc 32 <$> zs) = enc 32 <$> (rotl 32 1 <$> zs).
Proof.
  intros Hzs. rewrite <-!list_fmap_compose. apply Forall_fmap_ext_1.
  eapply Forall_impl; [done|]. intros z Hz. cbv beta. unfold compose.
  rewrite rotate_eq, (UtilsImpl.rotate_enc 32) by apply enc_bits.
  by rewrite val_enc_word.
Qed.

(** Steps 1 to 10 of the draft are those of main.js. *)
Lemma words_main (s : jsstr) :
  Draft.words (U := exports) s
  = (padded ← Main.padded (U := UtilsImpl.exports) s;
     chunks ← Main.step9_split_512b_chunks padded;
     Main.step10_split_32b_words chunks).
Proof.
  unfold Draft.words, Main.padded, Main.message_bits.
  change Draft.step1_split with Main.step1_split.
  change Draft.step2_to_ascii_code with Main.step2_to_ascii_code.
  change Draft.step3_ascii_binary with Main.step3_ascii_binary.
  change Draft.step5_combine_str with Main.step5_combine_str.
  change Draft.step6_append_1 with Main.step6_append_1.
  change (Draft.step4_ascii_binary_8_length (U := exports))
    with (Main.step4_ascii_binary_8_length (U := UtilsImpl.exports)).
  change (Draft.step7_modulo_512_is_448 (U := exports))
    with (Main.step7_modulo_512_is_448 (U := UtilsImpl.exports)).
  change (Draft.step8_append_step5_length (U := exports))
    with (Main.step8_append_step5_length (U := UtilsImpl.exports)).
  change Draft.step9_split_512b_chunks with Main.step9_split_512b_chunks.
  change Draft.step10_split_32b_words with Main.step10_split_32b_words.
  by case_bind.
Qed.

Lemma draft_words_shape (ws : list jsstr) :
  Splitter.chunk ws →
  length (draft_words ws) = 80%nat ∧ Forall (bits 32) (draft_words ws).
Proof.
  intros [Hlen Hws]. split; [|apply enc_list_bits].
  unfold draft_words, xor_extend.
  rewrite !length_fmap, extend_with_length, length_fmap. lia.
Qed.

(** The draft on a padded message of whole chunks. *)
Lemma draft_of_padded (msg padded : jsstr) k :
  Main.padded (U := UtilsImpl.exports) msg = Ok padded →
  bits (k * 512) padded →
  sha1 msg = Ok (draft_words <$> (chunks 32 <$> chunks 512 padded)).
Proof.
  intros Hp Hk. unfold sha1, Draft.sha1. rewrite words_main, Hp.
  cbn [mbind result_bind]. rewrite Splitter.step9_chunks.
  cbn [mbind result_bind]. rewrite Splitter.step10_words.
  cbn [mbind result_bind].
  pose proof (Splitter.blocks_shape k padded Hk) as [_ Hcs].
  revert Hcs. generalize (chunks 32 <$> chunks 512 padded). intros cs Hcs.
  rewrite draft_step11 by done. cbn [mbind result_bind]. f_equal.
  unfold Draft.step12_rotate_words. rewrite <-!list_fmap_compose.
  apply Forall_fmap_ext_1. eapply Forall_impl; [done|].
  intros ws [_ Hws]. cbv beta. unfold compose, draft_words.
  change Draft.rotate with rotate. apply rotate_enc_list.
  apply xor_extend_word. auto with bits.
Qed.

(** The draft on a string of bytes: the words of the blocks of the padded
    bytes, extended without rotation, then rotated. *)
Lemma draft_of_bytes (msg : jsstr) :
  Forall Padder.is_byte msg → Z.of_nat (length msg) < 2 ^ 61 →
  sha1 msg
  = Ok ((λ block, enc 32 <$> (rotl 32 1 <$> xor_extend 64 block))
          <$> ((λ block, Spec.be_word <$> chunks 4 block)
                 <$> chunks 64 (Spec.pad (Bytes.bytes_of msg)))).
Proof.
  intros Hmsg Hlen.
  pose proof (Refinement.padded_pad (U := UtilsImpl.exports) msg Hmsg Hlen)
    as Hp.
  destruct (Padder.padded_bytes_count (U := UtilsImpl.exports) msg Hmsg Hlen)
    as (p & Hp' & Hbits).
  rewrite Hp in Hp'. injection Hp' as <-.
  rewrite (draft_of_padded msg _ _ Hp Hbits). f_equal.
  rewrite <-Bytes.split_bits by (by apply Bytes.pad_word, Bytes.bytes_of_word).
  rewrite <-!list_fmap_compose. apply list_fmap_ext. intros i c _.
  unfold compose, draft_words. by cbv beta.
Qed.

(** C31: the draft cannot throw on a string of UTF-16 code units shorter
    than 2^60 characters: it returns at least one chunk, and every chunk
    it returns has 80 words of 32 binary characters. *)
Theorem draft_sha1_total (msg : jsstr) :
  Forall Padder.is_code_unit msg → (Z.of_nat (length msg) < 2 ^ 60)%Z →
  ∃ out, sha1 msg = Ok out ∧ (0 < length out)%nat
         ∧ Forall (λ ws, length ws = 80%nat ∧ Forall (bits 32) ws) out.
Proof.
  intros Hmsg Hlen.
  destruct (Padder.padded_units_shape (U := UtilsImpl.exports) msg Hmsg Hlen)
    as (p & k & Hp & Hk & Hpos).
  pose proof (Splitter.blocks_shape k p Hk) as [Hl Hcs].
  eexists. split; [by apply draft_of_padded with k|].
  split; [rewrite length_fmap; lia|].
  apply Forall_fmap. eapply Forall_impl; [done|]. apply draft_words_shape.
Qed.

Lemma draft_sha1_total_witness :
  ∃ out, sha1 (str "A Test") = Ok out ∧ (0 < length out)%nat
         ∧ Forall (λ ws, length ws = 80%nat ∧ Forall (bits 32) ws) out.
Proof. apply draft_sha1_total; [vm_decide | reflexivity]. Defined.

(** C34: what the draft returns on a string of bytes, against the
    specification.  The bytes are padded and split into blocks of sixteen
    big-endian words as the specification prescribes; the draft returns,
    for every block, the 80 words obtained by extending the block with
    the exclusive-or of the words at t-3, t-8, t-14 and t-16, not rotated,
    and then rotating every one of the 80 words left by one bit, each as
    32 binary characters. *)
Theorem draft_refines (msg : jsstr) :
  Forall Padder.is_byte msg → Z.of_nat (length msg) < 2 ^ 61 →
  ∃ blocks,
    Spec.split (Spec.pad (Bytes.bytes_of msg)) = Some blocks
    ∧ sha1 msg
      = Ok ((λ block, enc 32 <$> (rotl 32 1 <$> xor_extend 64 block))
              <$> blocks).
Proof.
  intros Hmsg Hlen. eexists. split; [apply Bytes.split_pad|].
  by apply draft_of_bytes.
Qed.

Lemma draft_refines_witness :
  ∃ blocks,
    Spec.split (Spec.pad (Bytes.bytes_of (str "A Test"))) = Some blocks
    ∧ sha1 (str "A Test")
      = Ok ((λ block, enc 32 <$> (rotl 32 1 <$> xor_extend 64 block))
              <$> blocks).
Proof. apply draft_refines; [vm_decide | reflexivity]. Defined.

(** C35: on chunks of sixteen words of 32 binary characters, steps 11
    and 12 of the draft return the words obtained by extending each chunk
    with the exclusive-or of the words at t-3, t-8, t-14 and t-16, not
    rotated, and then rotating every one of the 80 words left by one
    bit. *)
Theorem draft_schedule (chunks : list (list jsstr)) :
  Forall Splitter.chunk chunks →
  ∃ step11,
    Draft.step11_80_words_per_chunk (U := exports) chunks = Ok step11
    ∧ fmap (M := list) val <$> Draft.step12_rotate_words (U := exports) step11
      = (λ ws, rotl 32 1 <$> xor_extend 64 (val <$> ws)) <$> chunks.
Proof.
  intros Hcs. eexists. split; [by apply draft_step11|].
  unfold Draft.step12_rotate_words. rewrite <-!list_fmap_compose.
  apply Forall_fmap_ext_1. eapply Forall_impl; [done|].
  intros ws [_ Hws]. cbv beta. unfold compose.
  assert (Forall (word 32) (xor_extend 64 (val <$> ws))) as Hw
    by (apply xor_extend_word; auto with bits).
  change (Draft.rotate) with rotate. rewrite rotate_enc_list by done.
  apply val_enc_list, Forall_fmap, Forall_forall. intros z _.
  apply word_rotl.
Qed.

Lemma draft_schedule_witness :
  ∃ step11,
    Draft.step11_80_words_per_chunk (U := exports)
      [enc 32 <$> (Z.of_nat <$> seq 0 16)] = Ok step11
    ∧ fmap (M := list) val <$> Draft.step12_rotate_words (U := exports) step11
      = (λ ws, rotl 32 1 <$> xor_extend 64 (val <$> ws))
          <$> [enc 32 <$> (Z.of_nat <$> seq 0 16)].
Proof. apply draft_schedule. vm_decide. Defined.

(** C36: the draft does not compute the schedule of SHA-1.  On a chunk
    of sixteen words, the first sixteen words main.js returns are the
    chunk; the first sixteen the draft returns are the words of the chunk
    each rotated by one. *)
Theorem draft_rotates_chunk (ws : list jsstr) :
  Splitter.chunk ws →
  ∃ out fin,
    (step11 ← Draft.step11_80_words_per_chunk (U := exports) [ws];
     Ok (Draft.step12_rotate_words (U := exports) step11)) = Ok [out]
    ∧ Main.step11_80_words_per_chunk (U := UtilsImpl.exports) [ws] = Ok [fin]
    ∧ take 16 fin = ws
    ∧ take 16 out = (λ word, UtilsImpl.rotate word 1) <$> ws.
Proof.
  intros [Hlen Hws].
  destruct (Expander.expand_chunk_shape (U := UtilsImpl.exports) ws Hlen Hws)
    as (fin & Hfin & _ & _ & Htake).
  exists ((λ word, rotate word 1)
            <$> (enc 32 <$> xor_extend 64 (val <$> ws))), fin.
  split; [|split; [|split]].
  - by rewrite draft_step11 by (by repeat constructor).
  - unfold Main.step11_80_words_per_chunk. cbn [mapM]. by rewrite Hfin.
  - done.
  - rewrite <-!fmap_take.
    pose proof (extend_with_prefix xor_word 64 (val <$> ws)) as Hp.
    rewrite length_fmap, Hlen in Hp. unfold xor_extend.
    by rewrite Hp, enc_val_list.
Qed.

Lemma draft_rotates_chunk_witness :
  ∃ out fin,
    (step11 ← Draft.step11_80_words_per_chunk (U := exports)
                [enc 32 <$> (Z.of_nat <$> seq 0 16)];
     Ok (Draft.step12_rotate_words (U := exports) step11)) = Ok [out]
    ∧ Main.step11_80_words_per_chunk (U := UtilsImpl.exports)
        [enc 32 <$> (Z.of_nat <$> seq 0 16)] = Ok [fin]
    ∧ take 16 fin = enc 32 <$> (Z.of_nat <$> seq 0 16)
    ∧ take 16 out
      = (λ word, UtilsImpl.rotate word 1)
          <$> (enc 32 <$> (Z.of_nat <$> seq 0 16)).
Proof. apply draft_rotates_chunk. vm_decide. Defined.

(** The value the draft logs for 'A Test' is one chunk of 80 words, and
    not the schedule main.js computes for the same string. *)
Example logged_differs :
  (out ← logged;
   fin ← Main.schedules (U := UtilsImpl.exports) (str "A Test");
   Ok (length out, bool_decide (out = fin))) = Ok (1%nat, false).
Proof. vm_compute. reflexivity. Qed.

End DraftImpl.
