(* ===== verification/Script.v ===== *)
(** * The scripts: top-level statements, global variables and the console

    Both files are scripts of three statements:

    - [var Utils = (function () { ... })();] evaluates the first closure
      and assigns the object it returns to the global variable [Utils];
    - [var Main = (function () { ... })();] does the same for [Main],
      whose only property is [sha1];
    - [console.log(Main.sha1('...'));] calls [sha1] and writes what it
      returns to the console.

    The functions reach each other through these global variables: [sha1]
    reads [Utils] every time it calls a helper, at the time of the call.
    A [var] is hoisted, so that before its statement has run the variable
    exists and holds [undefined]; reading a property of [undefined] throws
    a TypeError, and an exception nothing catches ends the script.

    The machine is a step relation ([step]) on states made of the two
    global variables, the console, the uncaught exception if any and the
    statements still to run.  It is generic in the object of [Utils] and
    in [sha1], and is instantiated with those of main.js ([main_js]) and
    of the draft ([draft_js]).  [exec1] is the step as a function and
    [run] iterates it.

    - The step is deterministic and is [exec1]; every script stops, after
      at most one step per statement, in one final state.
    - In every reachable state the globals hold [undefined] or the objects
      of the closures, and every line of the console is what [sha1]
      returned for the argument of a [console.log] statement
      ([good_reachable], by induction on the steps): with main.js, a
      digest.
    - main.js runs to the end without exception and leaves one line on
      the console, the digest of "Hello World".

    The machine is a model of how a JavaScript engine runs the three
    statements, not code of the repository, and its lemmas are generic in
    the functions it is given: what the development proves of [Main.sha1]
    is in [Program] and in the files of the components. *)

From stdpp Require Import relations.
From S2P Require Import Prelude JsRuntime Bits Utils Main Padder Finalizer.
From S2P Require Import Refinement Program Draft.

Module Script.

(** What [console.log] is given: the string of main.js, the array of
    arrays of words of the draft. *)
Inductive value : Type :=
  | VString (s : jsstr)
  | VArray (chunks : list (list jsstr)).

Inductive stmt : Type :=
  | VarUtils
  | VarMain
  | ConsoleLogSha1 (arg : jsstr).

(** The arguments of the [console.log] statements of a script. *)
Definition logged_args (p : list stmt) : list jsstr :=
  omap (λ st, match st with ConsoleLogSha1 arg => Some arg | _ => None end) p.

Section machine.
Context {Ops : Type}.
Context (utils : Ops) (sha1 : Ops → jsstr → result value).

(** The function [sha1] as the closure of [Main] holds it: it is given
    the value of the global [Utils] at the time of the call, and the first
    [Utils.getStringXTime] it evaluates (in step 8 at the latest, whatever
    the string) throws when that value is [undefined]. *)
Definition closure (global_Utils : option Ops) (arg : jsstr) : result value :=
  match global_Utils with
  | Some U => sha1 U arg
  | None => Err TypeError
  end.

Record state : Type := State {
  global_Utils : option Ops;
  global_Main : option (option Ops → jsstr → result value);
  console : list value;
  uncaught : option error;
  pending : list stmt;
}.

Definition initial (p : list stmt) : state := State None None [] None p.

Inductive step : relation state :=
  | step_var_Utils u m out p :
      step (State u m out None (VarUtils :: p))
           (State (Some utils) m out None p)
  | step_var_Main u m out p :
      step (State u m out None (VarMain :: p))
           (State u (Some closure) out None p)
  | step_log u f out arg p v :
      f u arg = Ok v →
      step (State u (Some f) out None (ConsoleLogSha1 arg :: p))
           (State u (Some f) (out ++ [v]) None p)
  | step_throw u f out arg p e :
      f u arg = Err e →
      step (State u (Some f) out None (ConsoleLogSha1 arg :: p))
           (State u (Some f) out (Some e) (ConsoleLogSha1 arg :: p))
  | step_undefined u out arg p :
      step (State u None out None (ConsoleLogSha1 arg :: p))
           (State u None out (Some TypeError) (ConsoleLogSha1 arg :: p)).

(** The step as a function. *)
Definition exec1 (s : state) : option state :=
  let '(State u m out e p) := s in
  match e, p with
  | None, VarUtils :: p => Some (State (Some utils) m out None p)
  | None, VarMain :: p => Some (State u (Some closure) out None p)
  | None, ConsoleLogSha1 arg :: p' =>
      match m with
      | Some f =>
          match f u arg with
          | Ok v => Some (State u m (out ++ [v]) None p')
          | Err e => Some (State u m out (Some e) p)
          end
      | None => Some (State u m out (Some TypeError) p)
      end
  | _, _ => None
  end.

Fixpoint run (fuel : nat) (s : state) : state :=
  match fuel with
  | O => s
  | S fuel' => match exec1 s with Some s' => run fuel' s' | None => s end
  end.

(** What holds of every state a script [p] reaches. *)
Definition good (p : list stmt) (s : state) : Prop :=
  (global_Utils s = None ∨ global_Utils s = Some utils)
  ∧ (global_Main s = None ∨ global_Main s = Some closure)
  ∧ (∃ ran, p = ran ++ pending s)
  ∧ Forall (λ v, ∃ arg, arg ∈ logged_args p ∧ sha1 utils arg = Ok v)
           (console s).

(** ** The step is a function *)

Lemma step_exec1 s s' : step s s' ↔ exec1 s = Some s'.
Proof.
  split.
  - destruct 1; simpl; by rewrite ?H.
  - destruct s as [u m out [e|] [|[| |arg] p]]; simpl; try done;
      try (intros [= <-]; constructor).
    destruct m as [f|]; [|intros [= <-]; constructor].
    destruct (f u arg) eqn:Hf; intros [= <-]; by constructor.
Qed.

Lemma step_deterministic : deterministic step.
Proof. intros s s1 s2 H1%step_exec1 H2%step_exec1. congruence. Qed.

Lemma exec1_None s : exec1 s = None ↔ nf step s.
Proof.
  split.
  - intros Hs [s' Hs'%step_exec1]. congruence.
  - intros Hnf. destruct (exec1 s) as [s'|] eqn:Hs; [|done].
    destruct Hnf. exists s'. by apply step_exec1.
Qed.

(** ** Every script stops *)

Lemma run_rtc n s : rtc step s (run n s).
Proof.
  revert s. induction n as [|n IH]; intros s; simpl; [done|].
  destruct (exec1 s) as [s'|] eqn:Hs; [|done].
  eapply rtc_l; [by apply step_exec1|apply IH].
Qed.

(** A step runs a statement or ends the script. *)
Lemma exec1_measure s s' :
  exec1 s = Some s' →
  length (pending s') < length (pending s) ∨ exec1 s' = None.
Proof.
  intros Hs%step_exec1. destruct Hs; simpl; auto.
Qed.

Lemma run_nf n s : length (pending s) ≤ n → nf step (run n s).
Proof.
  revert s. induction n as [|n IH]; intros s Hn; simpl.
  - apply exec1_None. destruct s as [u m out [e|] [|st p]]; simpl in *;
      done || lia.
  - destruct (exec1 s) as [s'|] eqn:Hs; [|by apply exec1_None].
    destruct (exec1_measure s s' Hs) as [Hlt|Hend]; [apply IH; lia|].
    destruct n; simpl; rewrite ?Hend; by apply exec1_None.
Qed.

Lemma run_unique s s' :
  rtc step s s' → nf step s' → s' = run (length (pending s)) s.
Proof.
  intros Hs Hnf.
  apply (confluent_rtc_nf (R := step) s);
    [apply deterministic_confluent, step_deterministic | done | done
    | apply run_rtc | by apply run_nf].
Qed.

(** ** The invariant *)

Lemma logged_args_app p q :
  logged_args (p ++ q) = logged_args p ++ logged_args q.
Proof. apply omap_app. Qed.

Lemma good_initial p : good p (initial p).
Proof. repeat split; simpl; auto. by exists []. Qed.

Lemma good_step p s s' : good p s → step s s' → good p s'.
Proof.
  intros (Hu & Hm & [ran Hp] & Hout) Hstep.
  destruct Hstep; simpl in *; split_and!; auto;
    try (exists (ran ++ [VarUtils]); by rewrite <-app_assoc);
    try (exists (ran ++ [VarMain]); by rewrite <-app_assoc);
    try by exists ran.
  - exists (ran ++ [ConsoleLogSha1 arg]). by rewrite <-app_assoc.
  - apply Forall_app. split; [done|]. apply Forall_singleton.
    destruct Hm as [|[= ->]]; [done|]. destruct Hu as [->| ->]; [done|].
    exists arg. split; [|done]. rewrite Hp, logged_args_app.
    apply elem_of_app. right. simpl. left.
Qed.

Lemma good_reachable p s : rtc step (initial p) s → good p s.
Proof.
  revert s. apply rtc_ind_r; [apply good_initial|].
  intros s s' _ Hstep Hs. by apply good_step with s.
Qed.

End machine.

Arguments state : clear implicits.

(** ** main.js *)

Definition main_sha1 (U : Utils.Ops) (arg : jsstr) : result value :=
  VString <$> Main.sha1 (U := U) arg.

Definition main_js : list stmt :=
  [VarUtils; VarMain; ConsoleLogSha1 (str "Hello World")].

Abbreviation main_step := (step UtilsImpl.exports main_sha1).
Abbreviation main_run := (run UtilsImpl.exports main_sha1).

(** A string [Main.sha1] accepts: UTF-16 code units, fewer than 2^60. *)
Definition loggable (arg : jsstr) : Prop :=
  Forall Padder.is_code_unit arg ∧ (Z.of_nat (length arg) < 2 ^ 60)%Z.

#[global] Instance loggable_dec arg : Decision (loggable arg).
Proof. unfold loggable. apply _. Defined.

Definition digest_line (v : value) : Prop :=
  ∃ d, v = VString d ∧ Finalizer.is_digest d.

(** Whatever the statements and their order, what reaches the console is
    a digest. *)
Lemma console_digests p s :
  Forall loggable (logged_args p) → rtc main_step (initial p) s →
  Forall digest_line (console s).
Proof.
  intros Hp Hs. apply good_reachable in Hs as (_ & _ & _ & Hout).
  eapply Forall_impl; [done|]. intros v (arg & Harg & Hv).
  destruct (proj1 (Forall_forall _ _) Hp arg Harg) as [Hunits Hlen].
  destruct (Refinement.sha1_units_digest (U := UtilsImpl.exports)
              arg Hunits Hlen) as (d & Hd & Hdigest).
  unfold main_sha1 in Hv. rewrite Hd in Hv. simplify_eq/=. by exists d.
Qed.

(** ** The draft *)

Definition draft_sha1 (U : Draft.Ops) (arg : jsstr) : result value :=
  VArray <$> Draft.sha1 (U := U) arg.

Definition draft_js : list stmt :=
  [VarUtils; VarMain; ConsoleLogSha1 (str "A Test")].

(** ** What the scripts do *)

(** The lemmas below are properties of the machine rather than of the
    functions of the repository: the invariant of the globals holds of any
    object and any function put in their place, and what they say of
    [Main.sha1] is [Program.sha1_is_digest] and the evaluation of one
    call. *)

(** The invariant of the globals and the console of main.js, by
    induction on the steps.  In every state a script made of the three
    kinds of statement reaches, whatever their number and order, [Utils]
    is undefined or the object of the first closure, [Main] is undefined
    or the object holding [sha1], the statements still to run are a suffix
    of the script, and every line of the console is the digest, forty
    hexadecimal characters, that [Main.sha1] returns for the argument of a
    [console.log] statement of the script. *)
Lemma script_invariant (p : list stmt) (s : state Utils.Ops) :
  Forall loggable (logged_args p) → rtc main_step (initial p) s →
  good UtilsImpl.exports main_sha1 p s ∧ Forall digest_line (console s).
Proof.
  intros Hp Hs. split; [by apply good_reachable|].
  by apply console_digests with p.
Qed.

(** The machine stops: a call of [sha1] is one step, whether it returns
    or throws, so that from any state there is, after at most one step per
    statement still to run, a state from which there is no step, and every
    sequence of steps that cannot be continued ends in that state. *)
Lemma script_terminates (s : state Utils.Ops) :
  ∃ s', rtc main_step s s' ∧ nf main_step s'
        ∧ ∀ s'', rtc main_step s s'' → nf main_step s'' → s'' = s'.
Proof.
  exists (main_run (length (pending s)) s).
  split; [apply run_rtc|]. split; [by apply run_nf | apply run_unique].
Qed.

(** main.js logs the digest of "Hello World".  From the initial state, in
    which both globals are undefined, the script reaches a state with no
    statement left and no uncaught exception, whose console holds one
    line, 0a4d55a8 d778e502 2fab7019 77c5d840 bbc486d0; every run that
    cannot be continued ends in that state. *)
Example script_logs_digest :
  ∃ s, rtc main_step (initial main_js) s
       ∧ pending s = [] ∧ uncaught s = None
       ∧ console s = [VString (str "0a4d55a8d778e5022fab701977c5d840bbc486d0")]
       ∧ ∀ s', rtc main_step (initial main_js) s' → nf main_step s' → s' = s.
Proof.
  exists (main_run 3 (initial main_js)).
  split; [apply run_rtc|]. split_and!; [by vm_compute..|].
  apply (run_unique _ _ (initial main_js)).
Qed.

(** The draft logs the array [DraftImpl.logged] holds. *)
Example draft_script_logs :
  (λ chunks, [VArray chunks]) <$> DraftImpl.logged
  = Ok (console (run DraftImpl.exports draft_sha1 3 (initial draft_js))).
Proof. vm_compute. reflexivity. Qed.

(** The order of the statements matters: [Main.sha1] called while [Utils]
    is still undefined throws, and nothing is logged. *)
Example log_before_Utils :
  let s := main_run 3
             (initial [VarMain; ConsoleLogSha1 (str "Hello World"); VarUtils])
  in uncaught s = Some TypeError ∧ console s = [] ∧ global_Utils s = None.
Proof. by vm_compute. Qed.

End Script.
